(** * cpuprofile: the bottom-up view of a CPU sampling profile

    A shallow embedding of [lib/profile_node.js] (class [ProfileNode]) and
    [lib/profile.js] (class [Profile]), and the properties of the tree
    reconstruction and of the bottom-up aggregation.

    Conventions of the embedding.
    - A JavaScript number that carries a time or a hit count is a value of an
      abstract type [num] with the four operations the code applies to it
      (class [JSNumber]).  Nothing is assumed about them unless a theorem says
      so; [float_number] instantiates them with IEEE 754 binary64.
    - Objects created by [new ProfileNode] live in lists indexed by position:
      the flat nodes of a profile in [nodes], the nodes of one reconstructed
      tree in an arena of their own (every read of [translatedRoot] builds
      fresh objects).  A reference is an index; in a flat node [children]
      holds node ids, in a tree node it holds arena indices.
    - A [callFrame] object is shared by a flat node and its clones; after the
      constructor of [Profile] nothing writes to one, so it is kept by value.
    - Loops that JavaScript runs until a work list is empty take a [fuel]
      bound and answer [OutOfFuel] when it is used up. *)

From Stdlib Require Import ZArith Floats Ascii DecimalString QArith Qcanon.
From stdpp Require Import gmap strings list.

Set Default Proof Using "Type".
Set Warnings "-register-all".
Open Scope Z_scope.
Open Scope nat_scope.

(** ** Numbers *)

Class JSNumber (num : Type) := {
  num_zero : num;
  num_thousand : num;
  num_add : num → num → num;
  num_sub : num → num → num;
  num_mul : num → num → num;
  num_div : num → num → num
}.

#[global] Instance float_number : JSNumber float := {|
  num_zero := 0%float;
  num_thousand := 1000%float;
  num_add := PrimFloat.add;
  num_sub := PrimFloat.sub;
  num_mul := PrimFloat.mul;
  num_div := PrimFloat.div
|}.

(** Exact rationals: the arithmetic of the code without rounding. *)
#[global] Instance exact_number : JSNumber Qc := {|
  num_zero := 0%Qc;
  num_thousand := Q2Qc 1000;
  num_add := Qcplus;
  num_sub := Qcminus;
  num_mul := Qcmult;
  num_div := Qcdiv
|}.

(** ** Results of code that can throw *)

Inductive Result (A : Type) : Type :=
  | Ok (a : A)
  | TypeError      (* a property of [undefined] was read *)
  | OutOfFuel.
Arguments Ok {A} a.
Arguments TypeError {A}.
Arguments OutOfFuel {A}.

#[global] Instance Result_bind : MBind Result := λ A B k r,
  match r with
  | Ok a => k a
  | TypeError => TypeError
  | OutOfFuel => OutOfFuel
  end.

(** [o] is an object reference that may be [undefined]. *)
Definition defined {A} (o : option A) : Result A :=
  match o with Some a => Ok a | None => TypeError end.

(** The call has no result: it threw, or the bound on its steps was too low. *)
Definition failed {A} (r : Result A) : Prop := r = TypeError ∨ r = OutOfFuel.

(** ** lib/profile_node.js *)

Record CallFrame := {
  functionName : string;
  scriptId : string;
  url : string;
  lineNumber : Z;
  columnNumber : Z
}.

Definition set_functionName (s : string) (c : CallFrame) : CallFrame :=
  {| functionName := s; scriptId := scriptId c; url := url c;
     lineNumber := lineNumber c; columnNumber := columnNumber c |}.

(** The template literal of the constructor: [`${functionName}@${scriptId}:${lineNumber}`]. *)
Definition render_callUID (c : CallFrame) : string :=
  functionName c +:+ "@" +:+ scriptId c +:+ ":" +:+ NilZero.string_of_int (Z.to_int (lineNumber c)).

Section Model.
Context {num : Type} `{JSNumber num}.

Record ProfileNode := {
  id : nat;
  callFrame : CallFrame;
  hitCount : num;
  children : option (list nat);      (* [None]: a falsy [children] *)
  positionTicks : list (Z * Z);
  deoptReason : option string;
  selfTime : num;
  totalTime : num;
  callUID : string;
  depth : option Z;                  (* [None]: not assigned *)
  parent : option nat;               (* [None]: [null] or not assigned *)
  UID : option nat                   (* [None]: not assigned *)
}.

Definition set_callFrame (c : CallFrame) (n : ProfileNode) : ProfileNode :=
  {| id := id n; callFrame := c; hitCount := hitCount n; children := children n;
     positionTicks := positionTicks n; deoptReason := deoptReason n;
     selfTime := selfTime n; totalTime := totalTime n; callUID := callUID n;
     depth := depth n; parent := parent n; UID := UID n |}.

Definition set_children (cs : option (list nat)) (n : ProfileNode) : ProfileNode :=
  {| id := id n; callFrame := callFrame n; hitCount := hitCount n; children := cs;
     positionTicks := positionTicks n; deoptReason := deoptReason n;
     selfTime := selfTime n; totalTime := totalTime n; callUID := callUID n;
     depth := depth n; parent := parent n; UID := UID n |}.

Definition set_selfTime (x : num) (n : ProfileNode) : ProfileNode :=
  {| id := id n; callFrame := callFrame n; hitCount := hitCount n; children := children n;
     positionTicks := positionTicks n; deoptReason := deoptReason n;
     selfTime := x; totalTime := totalTime n; callUID := callUID n;
     depth := depth n; parent := parent n; UID := UID n |}.

Definition set_totalTime (x : num) (n : ProfileNode) : ProfileNode :=
  {| id := id n; callFrame := callFrame n; hitCount := hitCount n; children := children n;
     positionTicks := positionTicks n; deoptReason := deoptReason n;
     selfTime := selfTime n; totalTime := x; callUID := callUID n;
     depth := depth n; parent := parent n; UID := UID n |}.

Definition set_depth_parent (d : option Z) (p : option nat) (n : ProfileNode) : ProfileNode :=
  {| id := id n; callFrame := callFrame n; hitCount := hitCount n; children := children n;
     positionTicks := positionTicks n; deoptReason := deoptReason n;
     selfTime := selfTime n; totalTime := totalTime n; callUID := callUID n;
     depth := d; parent := p; UID := UID n |}.

Definition set_UID (u : option nat) (n : ProfileNode) : ProfileNode :=
  {| id := id n; callFrame := callFrame n; hitCount := hitCount n; children := children n;
     positionTicks := positionTicks n; deoptReason := deoptReason n;
     selfTime := selfTime n; totalTime := totalTime n; callUID := callUID n;
     depth := depth n; parent := parent n; UID := u |}.

(** [constructor(id, callFrame, hitCount, children, positionTicks, deoptReason)]:
    a falsy [children] or [positionTicks] becomes an empty array, both times
    start at 0 and [callUID] is rendered from the call frame as it is now. *)
Definition new_ProfileNode (i : nat) (c : CallFrame) (h : num) (cs : option (list nat))
    (pt : option (list (Z * Z))) (dr : option string) : ProfileNode :=
  {| id := i; callFrame := c; hitCount := h; children := Some (default [] cs);
     positionTicks := default [] pt; deoptReason := dr;
     selfTime := num_zero; totalTime := num_zero; callUID := render_callUID c;
     depth := None; parent := None; UID := None |}.

(** A node of the parsed JSON document. *)
Record RawNode := {
  raw_id : nat;
  raw_callFrame : CallFrame;
  raw_hitCount : num;
  raw_children : option (list nat);
  raw_positionTicks : option (list (Z * Z));
  raw_deoptReason : option string
}.

Definition ProfileNode_createFromObject (obj : RawNode) : ProfileNode :=
  new_ProfileNode (raw_id obj) (raw_callFrame obj) (raw_hitCount obj) (raw_children obj)
    (raw_positionTicks obj) (raw_deoptReason obj).

(** [ProfileNode.clone]: the children array is copied ([slice]). *)
Definition clone (node : ProfileNode) : ProfileNode :=
  let instance := new_ProfileNode (id node) (callFrame node) (hitCount node)
                    (Some (default [] (children node))) (Some (positionTicks node))
                    (deoptReason node) in
  set_totalTime (totalTime node) (set_selfTime (selfTime node) instance).

Definition cloneWithoutChildren (node : ProfileNode) : ProfileNode :=
  let instance := new_ProfileNode (id node) (callFrame node) (hitCount node)
                    (Some []) (Some (positionTicks node)) (deoptReason node) in
  set_totalTime (totalTime node) (set_selfTime (selfTime node) instance).

(** [!!this.callFrame.url && this.callFrame.url.startsWith('native ')] *)
Definition isNativeNode (node : ProfileNode) : bool :=
  negb (String.eqb (url (callFrame node)) "") && String.prefix "native " (url (callFrame node)).

(** ** lib/profile.js: construction *)

Record Profile := {
  nodes : list ProfileNode;
  startTime : num;
  endTime : num;
  samples : list nat;
  timeDeltas : list num;
  idToNodeMap : gmap nat nat;        (* node id ↦ index of the node object in [nodes] *)
  samplingInterval : option num      (* [None]: not assigned *)
}.

Definition set_nodes (ns : list ProfileNode) (p : Profile) : Profile :=
  {| nodes := ns; startTime := startTime p; endTime := endTime p; samples := samples p;
     timeDeltas := timeDeltas p; idToNodeMap := idToNodeMap p;
     samplingInterval := samplingInterval p |}.

Definition set_idToNodeMap (m : gmap nat nat) (p : Profile) : Profile :=
  {| nodes := nodes p; startTime := startTime p; endTime := endTime p; samples := samples p;
     timeDeltas := timeDeltas p; idToNodeMap := m;
     samplingInterval := samplingInterval p |}.

Definition set_samplingInterval (x : num) (p : Profile) : Profile :=
  {| nodes := nodes p; startTime := startTime p; endTime := endTime p; samples := samples p;
     timeDeltas := timeDeltas p; idToNodeMap := idToNodeMap p;
     samplingInterval := Some x |}.

(** [for (let node of this.nodes) this._idToNodeMap.set(node.id, node)] *)
Definition _createIdToNodeMap (p : Profile) : Profile :=
  set_idToNodeMap
    (fold_left (fun m '(i, node) => <[id node := i]> m) (imap pair (nodes p)) (idToNodeMap p)) p.

Definition totalHitCount (ns : list ProfileNode) : num :=
  fold_left (fun acc node => num_add acc (hitCount node)) ns num_zero.

Definition _determineSamplingInterval (p : Profile) : Profile :=
  set_samplingInterval (num_div (num_sub (endTime p) (startTime p)) (totalHitCount (nodes p))) p.

(** Reading [this.samplingInterval] before it is assigned gives [undefined];
    the constructor assigns it first, so the placeholder is never used. *)
Definition _assignInitialSelfTimes (p : Profile) : Profile :=
  let si := default num_zero (samplingInterval p) in
  set_nodes
    (map (fun node => set_selfTime (num_div (num_mul (hitCount node) si) num_thousand) node)
       (nodes p)) p.

Definition anonymous_name : string := "(anonymous function)".

Definition _nameAnonymousFunctions (p : Profile) : Profile :=
  set_nodes
    (map (fun node =>
            if String.eqb (functionName (callFrame node)) ""
            then set_callFrame (set_functionName anonymous_name (callFrame node)) node
            else node)
       (nodes p)) p.

Definition new_Profile (ns : list ProfileNode) (startT endT : num) (smp : list nat)
    (deltas : list num) : Profile :=
  let this := {| nodes := ns; startTime := startT; endTime := endT; samples := smp;
                 timeDeltas := deltas; idToNodeMap := ∅; samplingInterval := None |} in
  let this := _createIdToNodeMap this in
  let this := _determineSamplingInterval this in
  let this := _assignInitialSelfTimes this in
  _nameAnonymousFunctions this.

(** The parsed [.cpuprofile] document. *)
Record RawProfile := {
  raw_nodes : list RawNode;
  raw_startTime : num;
  raw_endTime : num;
  raw_samples : list nat;
  raw_timeDeltas : list num
}.

Definition createFromObject (obj : RawProfile) : Profile :=
  new_Profile (map ProfileNode_createFromObject (raw_nodes obj))
    (raw_startTime obj) (raw_endTime obj) (raw_samples obj) (raw_timeDeltas obj).

(** ** lib/profile.js: [translatedRoot] *)

(** A loop body run over an array, left to right, that may throw. *)
Fixpoint foldl_result {A B} (f : A → B → Result A) (a : A) (l : list B) : Result A :=
  match l with
  | [] => Ok a
  | x :: l => a ← f a x; foldl_result f a l
  end.

(** [parentNode.children.push(targetNode)] *)
Definition push_child (parentNode targetNode : nat) (arena : list ProfileNode)
    : Result (list ProfileNode) :=
  pn ← defined (arena !! parentNode);
  cs ← defined (children pn);
  Ok (<[parentNode := set_children (Some (cs ++ [targetNode])) pn]> arena).

(** [parentNode.selfTime += x] *)
Definition add_selfTime (parentNode : nat) (x : num) (arena : list ProfileNode)
    : Result (list ProfileNode) :=
  pn ← defined (arena !! parentNode);
  Ok (<[parentNode := set_selfTime (num_add (selfTime pn) x) pn]> arena).

(** The [while (pairs.length)] loop.  [pairs] is kept with the top of the
    stack first: [pop] takes the head, and pushing [c1 .. ck] one after the
    other puts [ck] in front.  A pair holds the index of the parent in the
    arena and what [_idToNodeMap.get] answered for the source id.  The clone
    of a non-native node is stored at the end of the arena; the clone of a
    native node is referenced by nothing and is not stored. *)
Fixpoint walkPairs (fuel : nat) (idmap : gmap nat nat) (flat arena : list ProfileNode)
    (pairs : list (nat * option nat)) : Result (list ProfileNode * list ProfileNode) :=
  match fuel with
  | 0 => OutOfFuel
  | S fuel =>
    match pairs with
    | [] => Ok (flat, arena)
    | (parentNode, sourceNode) :: pairs =>
      src ← defined sourceNode;
      node ← defined (flat !! src);
      let '(flat, node) :=
        match children node with
        | Some _ => (flat, node)
        | None => (<[src := set_children (Some []) node]> flat, set_children (Some []) node)
        end in
      let targetNode := cloneWithoutChildren node in
      let cs := default [] (children node) in
      if negb (isNativeNode node) then
        let target := length arena in
        arena ← push_child parentNode target (arena ++ [targetNode]);
        walkPairs fuel idmap flat arena (rev (map (λ c, (target, idmap !! c)) cs) ++ pairs)
      else
        arena ← add_selfTime parentNode (selfTime targetNode) arena;
        walkPairs fuel idmap flat arena (rev (map (λ c, (parentNode, idmap !! c)) cs) ++ pairs)
    end
  end.

(** The callback of [reduce]: [(acc, child) => acc + sumTotal(child)]. *)
Definition sumChild (sumTotal : list ProfileNode → nat → Result (num * list ProfileNode))
    (st : num * list ProfileNode) (child : nat) : Result (num * list ProfileNode) :=
  let '(acc, arena) := st in
  '(t, arena) ← sumTotal arena child;
  Ok (num_add acc t, arena).

(** [sumTotal]: [fuel] bounds the depth of the recursion. *)
Fixpoint sumTotal (fuel : nat) (arena : list ProfileNode) (node : nat)
    : Result (num * list ProfileNode) :=
  match fuel with
  | 0 => OutOfFuel
  | S fuel =>
    n ← defined (arena !! node);
    cs ← defined (children n);
    '(acc, arena) ← foldl_result (sumChild (sumTotal fuel)) (selfTime n, arena) cs;
    n ← defined (arena !! node);
    Ok (acc, <[node := set_totalTime acc n]> arena)
  end.

(** One child of the [for (let child of parent.children)] loop. *)
Definition assignChild (dp : option Z) (parentNode : nat)
    (st : list ProfileNode * list nat) (child : nat) : Result (list ProfileNode * list nat) :=
  let '(arena, pushed) := st in
  cn ← defined (arena !! child);
  let arena := <[child := set_depth_parent dp (Some parentNode) cn]> arena in
  ccs ← defined (children cn);
  Ok (arena, if bool_decide (ccs = []) then pushed else pushed ++ [child]).

(** The [while (stack.length)] loop, the top of the stack first. *)
Fixpoint assignDepths (fuel : nat) (arena : list ProfileNode) (stack : list nat)
    : Result (list ProfileNode) :=
  match fuel with
  | 0 => OutOfFuel
  | S fuel =>
    match stack with
    | [] => Ok arena
    | parentNode :: stack =>
      pn ← defined (arena !! parentNode);
      let dp := (λ d, d + 1)%Z <$> depth pn in
      cs ← defined (children pn);
      '(arena, pushed) ← foldl_result (assignChild dp parentNode) (arena, []) cs;
      assignDepths fuel arena (rev pushed ++ stack)
    end
  end.

(** The getter: the profile (its flat nodes as the walk left them) and the
    arena of the new tree, whose root is at index 0. *)
Definition translatedRoot (fuel : nat) (p : Profile) : Result (Profile * list ProfileNode) :=
  originalRoot ← defined (nodes p !! 0);
  let root := cloneWithoutChildren originalRoot in
  cs ← defined (children originalRoot);
  let pairs := rev (map (λ i, (0, idToNodeMap p !! i)) cs) in
  '(flat, arena) ← walkPairs fuel (idToNodeMap p) (nodes p) [root] pairs;
  '(_, arena) ← sumTotal fuel arena 0;
  r ← defined (arena !! 0);
  let arena := <[0 := set_depth_parent (Some (-1)%Z) None r]> arena in
  arena ← assignDepths fuel arena [0];
  Ok (set_nodes flat p, arena).

(** ** lib/profile.js: [remainingNodeInfos] *)

Record NodeInfo := {
  ancestor : nat;
  focusNode : nat;
  totalAccountedFor : bool
}.

(** The variables of the getter. *)
Record Visit := {
  v_arena : list ProfileNode;
  profileNodeUIDs : nat;
  visitedProfileNodesForCallUID : gmap string (gset nat);
  v_infos : list NodeInfo
}.

(** [visitedNodes.has(parentProfileNode.UID)] *)
Definition has_UID (arena : list ProfileNode) (visitedNodes : gset nat) (node : nat) : bool :=
  match arena !! node ≫= UID with
  | Some u => bool_decide (u ∈ visitedNodes)
  | None => false
  end.

(** The body of [for (let profileNode of profileNodes)]; [pushed] collects
    the groups this loop appends to [profileNodeGroups]. *)
Definition visitNode (parentProfileNodes : list nat)
    (st : Visit * list (list nat * list nat)) (profileNode : nat)
    : Result (Visit * list (list nat * list nat)) :=
  let '(v, pushed) := st in
  n ← defined (v_arena v !! profileNode);
  let '(uids, uid, arena) :=
    match UID n with
    | None | Some 0 =>
        let u := S (profileNodeUIDs v) in
        (u, u, <[profileNode := set_UID (Some u) n]> (v_arena v))
    | Some u => (profileNodeUIDs v, u, v_arena v)
    end in
  let '(visited, infos) :=
    match parent n with
    | Some _ =>
        let '(visitedNodes, accounted) :=
          match visitedProfileNodesForCallUID v !! callUID n with
          | None => (∅, false)
          | Some visitedNodes =>
              (visitedNodes, existsb (has_UID arena visitedNodes) parentProfileNodes)
          end in
        (<[callUID n := visitedNodes ∪ {[uid]}]> (visitedProfileNodesForCallUID v),
         v_infos v ++ [{| ancestor := profileNode; focusNode := profileNode;
                          totalAccountedFor := accounted |}])
    | None => (visitedProfileNodesForCallUID v, v_infos v)
    end in
  cs ← defined (children n);
  Ok ({| v_arena := arena; profileNodeUIDs := uids;
         visitedProfileNodesForCallUID := visited; v_infos := infos |},
      if bool_decide (cs = []) then pushed
      else pushed ++ [(parentProfileNodes ++ [profileNode], cs)]).

(** The outer [for] loop: [profileNodeGroups] read two entries at a time,
    as a queue of the pairs not yet read. *)
Fixpoint visitGroups (fuel : nat) (v : Visit) (groups : list (list nat * list nat))
    : Result Visit :=
  match fuel with
  | 0 => OutOfFuel
  | S fuel =>
    match groups with
    | [] => Ok v
    | (parentProfileNodes, profileNodes) :: groups =>
      '(v, pushed) ← foldl_result (visitNode parentProfileNodes) (v, []) profileNodes;
      visitGroups fuel v (groups ++ pushed)
    end
  end.

Definition remainingNodeInfos (fuel : nat) (p : Profile)
    : Result (Profile * list ProfileNode * list NodeInfo) :=
  '(p, arena) ← translatedRoot fuel p;
  v ← visitGroups fuel
        {| v_arena := arena; profileNodeUIDs := 0;
           visitedProfileNodesForCallUID := ∅; v_infos := [] |}
        [([], [0])];
  Ok (p, v_arena v, v_infos v).

(** ** lib/profile.js: [bottomUpNodes] and [formattedBottomUpProfile] *)

(** [array.filter(f).pop()]: the index of the last element that satisfies [f]. *)
Fixpoint find_last {A} (f : A → bool) (l : list A) : option nat :=
  match l with
  | [] => None
  | x :: l =>
    match find_last f l with
    | Some i => Some (S i)
    | None => if f x then Some 0 else None
    end
  end.

(** The body of [for (let nodeInfo of this.remainingNodeInfos)]. *)
Definition mergeInfo (arena : list ProfileNode) (bottomUp : list ProfileNode)
    (nodeInfo : NodeInfo) : Result (list ProfileNode) :=
  anc ← defined (arena !! ancestor nodeInfo);
  focus ← defined (arena !! focusNode nodeInfo);
  match find_last (λ node, String.eqb (callUID node) (callUID anc)) bottomUp with
  | Some i =>
      child ← defined (bottomUp !! i);
      let child := set_selfTime (num_add (selfTime child) (selfTime focus)) child in
      let child :=
        if totalAccountedFor nodeInfo then child
        else set_totalTime (num_add (totalTime child) (totalTime focus)) child in
      Ok (<[i := child]> bottomUp)
  | None =>
      let child := clone anc in
      let child :=
        if bool_decide (ancestor nodeInfo = focusNode nodeInfo) then child
        else set_totalTime (totalTime focus) (set_selfTime (selfTime focus) child) in
      Ok (bottomUp ++ [child])
  end.

Definition bottomUpNodes (fuel : nat) (p : Profile) : Result (Profile * list ProfileNode) :=
  '(p, arena, infos) ← remainingNodeInfos fuel p;
  records ← foldl_result (mergeInfo arena) [] infos;
  Ok (p, records).

Record FormattedNode := {
  out_functionName : string;
  out_selfTime : num;
  out_totalTime : num
}.

Definition format_node (node : ProfileNode) : FormattedNode :=
  {| out_functionName := functionName (callFrame node);
     out_selfTime := selfTime node;
     out_totalTime := totalTime node |}.

Definition formattedBottomUpProfile (fuel : nat) (p : Profile)
    : Result (Profile * list FormattedNode) :=
  '(p, records) ← bottomUpNodes fuel p;
  Ok (p, map format_node records).

End Model.

Arguments ProfileNode : clear implicits.
Arguments RawNode : clear implicits.
Arguments Profile : clear implicits.
Arguments RawProfile : clear implicits.
Arguments Visit : clear implicits.
Arguments FormattedNode : clear implicits.

(** * The reconstructed tree as a value

    The arena that [translatedRoot] answers is described by a tree value:
    [expand] follows the flat nodes the way the work list does, and [layout]
    gives the arena that holds a tree, its nodes in the order the walk
    creates them. *)

Section Trees.
Context {num : Type} `{JSNumber num}.

Inductive tree : Type := Node (d : ProfileNode num) (kids : list tree).

Definition root_data (t : tree) : ProfileNode num := match t with Node d _ => d end.
Definition subtrees (t : tree) : list tree := match t with Node _ ks => ks end.

Fixpoint tree_size (t : tree) : nat :=
  match t with Node _ ks => S (list_sum (map tree_size ks)) end.

Definition forest_size (ts : list tree) : nat := list_sum (map tree_size ts).

Fixpoint height (t : tree) : nat :=
  match t with Node _ ks => S (fold_right (λ k h, Nat.max (height k) h) 0 ks) end.

(** The nodes of a tree in the order of the walk: a node, then its subtrees. *)
Fixpoint preorder (t : tree) : list (ProfileNode num) :=
  match t with Node d ks => d :: concat (map preorder ks) end.

(** The indices of the roots of [ts] when [ts] is stored from [base] on. *)
Fixpoint roots (base : nat) (ts : list tree) : list nat :=
  match ts with
  | [] => []
  | t :: ts => base :: roots (base + tree_size t) ts
  end.

Fixpoint forest_with {A} (f : nat → tree → A) (base : nat) (ts : list tree) : list A :=
  match ts with
  | [] => []
  | t :: ts => f base t :: forest_with f (base + tree_size t) ts
  end.

(** The arena cells of a tree stored from [base] on: the root first, its
    [children] the indices of the roots of its subtrees. *)
Fixpoint layout (base : nat) (t : tree) : list (ProfileNode num) :=
  match t with
  | Node d ks =>
      set_children (Some (roots (S base) ks)) d :: concat (forest_with layout (S base) ks)
  end.

Definition layouts (base : nat) (ts : list tree) : list (ProfileNode num) :=
  concat (forest_with layout base ts).

(** What the walk does for one pair, as a value: the subtrees it appends to
    the parent of the pair and the self times it adds to that parent, both in
    the order of the walk.  [fuel] bounds the depth below the source node. *)
Fixpoint expand (fuel : nat) (idmap : gmap nat nat) (flat : list (ProfileNode num))
    (sourceNode : option nat) : option (list tree * list num) :=
  match fuel with
  | 0 => None
  | S fuel =>
    src ← sourceNode;
    node ← flat !! src;
    rs ← mapM (λ c, expand fuel idmap flat (idmap !! c)) (rev (default [] (children node)));
    let ts := concat (fst <$> rs) in
    let incs := concat (snd <$> rs) in
    if negb (isNativeNode node)
    then Some ([Node (set_selfTime (fold_left num_add incs (selfTime node))
                        (cloneWithoutChildren node)) ts], [])
    else Some (ts, selfTime node :: incs)
  end.

(** The tree when the work list is empty. *)
Definition built_tree (fuel : nat) (p : Profile num) : option tree :=
  originalRoot ← nodes p !! 0;
  cs ← children originalRoot;
  rs ← mapM (λ c, expand fuel (idToNodeMap p) (nodes p) (idToNodeMap p !! c)) (rev cs);
  Some (Node (set_selfTime (fold_left num_add (concat (snd <$> rs)) (selfTime originalRoot))
                (cloneWithoutChildren originalRoot))
          (concat (fst <$> rs))).

(** Total times, bottom-up. *)
Fixpoint with_totals (t : tree) : tree :=
  match t with
  | Node d ks =>
      let ks' := map with_totals ks in
      Node (set_totalTime
              (fold_left num_add (map (λ k, totalTime (root_data k)) ks') (selfTime d)) d) ks'
  end.

(** Depths and parents: [t] is stored at [base], its parent at [par]. *)
Fixpoint stamp (par : nat) (dp : Z) (base : nat) (t : tree) : tree :=
  match t with
  | Node d ks =>
      Node (set_depth_parent (Some dp) (Some par) d)
        (forest_with (stamp base (dp + 1)%Z) (S base) ks)
  end.

Definition stamp_root (t : tree) : tree :=
  match t with
  | Node d ks =>
      Node (set_depth_parent (Some (-1)%Z) None d) (forest_with (stamp 0 0%Z) 1 ks)
  end.

(** The tree that [translatedRoot] answers. *)
Definition spec_tree (fuel : nat) (p : Profile num) : option tree :=
  t ← built_tree fuel p; Some (stamp_root (with_totals t)).

(** The flat nodes the walk takes for one pair, in the order of the walk. *)
Fixpoint walked (fuel : nat) (idmap : gmap nat nat) (flat : list (ProfileNode num))
    (sourceNode : option nat) : option (list (ProfileNode num)) :=
  match fuel with
  | 0 => None
  | S fuel =>
    src ← sourceNode;
    node ← flat !! src;
    ws ← mapM (λ c, walked fuel idmap flat (idmap !! c)) (rev (default [] (children node)));
    Some (node :: concat ws)
  end.

(** The root and every flat node the walk takes. *)
Definition walked_nodes (fuel : nat) (p : Profile num) : option (list (ProfileNode num)) :=
  originalRoot ← nodes p !! 0;
  cs ← children originalRoot;
  ws ← mapM (λ c, walked fuel (idToNodeMap p) (nodes p) (idToNodeMap p !! c)) (rev cs);
  Some (originalRoot :: concat ws).

(** Two lists of numbers have the same sum from every start. *)
Definition same_sum (l1 l2 : list num) : Prop :=
  ∀ acc, fold_left num_add l1 acc = fold_left num_add l2 acc.

End Trees.

Arguments tree : clear implicits.

(** ** Statements about the loops *)

Section LoopSpecs.
Context {num : Type} `{JSNumber num}.

(** Every flat node has a [children] array, as the constructor of
    [ProfileNode] leaves it. *)
Definition has_children (ns : list (ProfileNode num)) : Prop :=
  Forall (λ n, is_Some (children n)) ns.

(** What the walk leaves of the parent of a pair: the new tree nodes are
    appended to its children and the folded self times are added to its own. *)
Definition grown (P : ProfileNode num) (kids : list nat) (incs : list num) : ProfileNode num :=
  set_selfTime (fold_left num_add incs (selfTime P))
    (set_children (Some (default [] (children P) ++ kids)) P).

(** Running the work list with the pair [(p, src)] on top, until that pair
    and everything pushed on top of it has been taken, has the effect [r]. *)
Definition walk_spec (idmap : gmap nat nat) (flat : list (ProfileNode num))
    (src : option nat) (r : list (tree num) * list num) : Prop :=
  ∃ n, ∀ k arena p P rest,
    arena !! p = Some P → is_Some (children P) →
    walkPairs (n + k) idmap flat arena ((p, src) :: rest) =
    walkPairs k idmap flat
      (<[p := grown P (roots (length arena) r.1) r.2]> arena ++ layouts (length arena) r.1) rest.

Definition walks_spec (idmap : gmap nat nat) (flat : list (ProfileNode num))
    (cs : list nat) (rs : list (list (tree num) * list num)) : Prop :=
  ∃ n, ∀ k arena p P rest,
    arena !! p = Some P → is_Some (children P) →
    walkPairs (n + k) idmap flat arena (map (λ c, (p, idmap !! c)) cs ++ rest) =
    walkPairs k idmap flat
      (<[p := grown P (roots (length arena) (concat (fst <$> rs))) (concat (snd <$> rs))]> arena
         ++ layouts (length arena) (concat (fst <$> rs))) rest.

(** [stamp] in two steps, as the loop does it: the loop body writes the
    depth and the parent of every child of the node it took ([stamp_top]),
    and a child is stamped below its root when it is taken in turn. *)
Definition stamp_top (par : nat) (dp : Z) (t : tree num) : tree num :=
  match t with Node d ks => Node (set_depth_parent (Some dp) (Some par) d) ks end.

Definition stamp_below (dp : Z) (base : nat) (t : tree num) : tree num :=
  match t with Node d ks => Node d (forest_with (stamp base (dp + 1)%Z) (S base) ks) end.

(** The roots the loop body pushes: those with children. *)
Fixpoint nonleaf_roots (base : nat) (ts : list (tree num)) : list nat :=
  match ts with
  | [] => []
  | t :: ts =>
      (if bool_decide (subtrees t = []) then [] else [base])
        ++ nonleaf_roots (base + tree_size t) ts
  end.

(** Running the stack of the depth loop with the node at [b] on top, until
    that node and everything pushed on top of it has been taken, stamps the
    tree stored at [b] below its root. *)
Definition depths_spec (dp : Z) (b : nat) (t : tree num) : Prop :=
  depth (root_data t) = Some dp →
  ∃ n, ∀ k pre post rest,
    length pre = b →
    assignDepths (n + k) (pre ++ layout b t ++ post) (b :: rest) =
    assignDepths k (pre ++ layout b (stamp_below dp b t) ++ post) rest.

(** From [source], which is what [_idToNodeMap.get] answered, an
    [undefined] can be reached: within [fuel] steps along the [children]
    arrays there is an id for which it answered nothing (or a node that is
    not there, as [nodes[0]] of an empty profile). *)
Fixpoint reaches_dangling (fuel : nat) (idmap : gmap nat nat) (flat : list (ProfileNode num))
    (source : option nat) : bool :=
  match source with
  | None => true
  | Some src =>
    match fuel with
    | 0 => false
    | S fuel =>
      match flat !! src with
      | None => true
      | Some node =>
          existsb (λ c, reaches_dangling fuel idmap flat (idmap !! c))
            (default [] (children node))
      end
    end
  end.

(** The loop of [translatedRoot] on the sources of its pairs alone, top of
    the stack first: within [fuel] turns it pops a source that is
    [undefined] (an id for which [_idToNodeMap.get] answered nothing, or a
    node that is not there). *)
Fixpoint pops_undefined (fuel : nat) (idmap : gmap nat nat) (flat : list (ProfileNode num))
    (sources : list (option nat)) : bool :=
  match fuel with
  | 0 => false
  | S fuel =>
    match sources with
    | [] => false
    | None :: _ => true
    | Some src :: sources =>
      match flat !! src with
      | None => true
      | Some node =>
          pops_undefined fuel idmap flat
            (rev (map (λ c, idmap !! c) (default [] (children node))) ++ sources)
      end
    end
  end.

(** [translatedRoot] reads a property of [undefined] within [fuel] turns of
    its loop: there is no [nodes[0]], or the root has no [children], or the
    loop pops an [undefined] source. *)
Definition walk_throws (fuel : nat) (p : Profile num) : bool :=
  match nodes p !! 0 with
  | None => true
  | Some originalRoot =>
    match children originalRoot with
    | None => true
    | Some cs =>
        pops_undefined fuel (idToNodeMap p) (nodes p) (rev (map (λ i, idToNodeMap p !! i) cs))
    end
  end.

(** Every node at an index of [s] has a child whose id [_idToNodeMap]
    resolves to an index of [s]: from a node of [s] the [children] arrays
    lead on for ever. *)
Definition closed_under_children (idmap : gmap nat nat) (flat : list (ProfileNode num))
    (s : list nat) : bool :=
  forallb (λ i,
    match flat !! i with
    | Some node =>
        existsb (λ c, match idmap !! c with
                      | Some j => bool_decide (j ∈ s)
                      | None => false
                      end) (default [] (children node))
    | None => false
    end) s.
End LoopSpecs.

(** ** The traversal of [remainingNodeInfos] as values *)

Section AggregationSpecs.
Context {num : Type} `{JSNumber num}.

(** Every node of a tree stored at [base], by its index, with the chain of
    its ancestors from the root of the whole tree down to its parent;
    [anc] is the chain of the root of [t]. *)
Fixpoint chains (anc : list nat) (base : nat) (t : tree num) : list (nat * list nat) :=
  match t with
  | Node _ ks => (base, anc) :: concat (forest_with (chains (anc ++ [base])) (S base) ks)
  end.

Definition callUID_at (arena : list (ProfileNode num)) (a : nat) : option string :=
  callUID <$> arena !! a.

(** [if (profileNode.parent)]: every node but the root has one. *)
Definition has_parent (arena : list (ProfileNode num)) (a : nat) : bool :=
  bool_decide (is_Some (arena !! a ≫= parent)).

(** Some ancestor in the chain, the root apart, has the call site of [a]. *)
Definition accounted (arena : list (ProfileNode num)) (a : nat) (chain : list nat) : bool :=
  existsb (λ b, has_parent arena b && bool_decide (callUID_at arena b = callUID_at arena a))
    chain.

Definition info_of (arena : list (ProfileNode num)) (o : nat * list nat) : NodeInfo :=
  {| ancestor := o.1; focusNode := o.1; totalAccountedFor := accounted arena o.1 o.2 |}.

(** The traversal id of a node: its position, from 1, among the nodes
    visited so far. *)
Fixpoint uid_from (k : nat) (vis : list (nat * list nat)) (a : nat) : option nat :=
  match vis with
  | [] => None
  | o :: vis => if bool_decide (o.1 = a) then Some (S k) else uid_from (S k) vis a
  end.

(** The state of the traversal when the nodes [vis] have been visited, in
    this order, in a tree whose arena was [arena0] before the traversal. *)
Record visit_inv (arena0 : list (ProfileNode num)) (v : Visit num)
    (vis : list (nat * list nat)) : Prop := {
  inv_length : length (v_arena v) = length arena0;
  inv_arena : ∀ a n, arena0 !! a = Some n →
    v_arena v !! a = Some (set_UID (uid_from 0 vis a) n);
  inv_bound : ∀ o, o ∈ vis → o.1 < length arena0;
  inv_uids : profileNodeUIDs v = length vis;
  inv_seen : ∀ u,
    match visitedProfileNodesForCallUID v !! u with
    | None => ∀ o, o ∈ vis → has_parent arena0 o.1 = true → callUID_at arena0 o.1 ≠ Some u
    | Some s => ∀ x, x ∈ s ↔
        ∃ a, uid_from 0 vis a = Some x ∧ has_parent arena0 a = true
             ∧ callUID_at arena0 a = Some u
    end;
  inv_infos : v_infos v = map (info_of arena0) (filter (λ o, has_parent arena0 o.1 = true) vis)
}.

(** A group of [profileNodeGroups] with the subtrees its nodes are the roots
    of: the chain [anc] and the trees [ts] stored from [b] on. *)
Definition group_of (g : list nat * nat * list (tree num)) : list nat * list nat :=
  (g.1.1, roots g.1.2 g.2).

Definition pending (g : list nat * nat * list (tree num)) : list (nat * list nat) :=
  concat (forest_with (chains g.1.1) g.1.2 g.2).

(** The arena holds the trees [ts] from index [b] on. *)
Definition located (arena : list (ProfileNode num)) (b : nat) (ts : list (tree num)) : Prop :=
  ∃ pre post, arena = pre ++ layouts b ts ++ post ∧ length pre = b.

(** Ancestors come first: every member of a chain was visited before. *)
Definition chains_closed (vis : list (nat * list nat)) : Prop :=
  ∀ i o, vis !! i = Some o → ∀ b, b ∈ o.2 → ∃ j o', j < i ∧ vis !! j = Some o' ∧ o'.1 = b.

(** The groups pushed while the roots of [ts] are visited. *)
Fixpoint kid_groups (anc : list nat) (b : nat) (ts : list (tree num))
    : list (list nat * nat * list (tree num)) :=
  match ts with
  | [] => []
  | t :: ts =>
      (if bool_decide (subtrees t = []) then [] else [(anc ++ [b], S b, subtrees t)])
        ++ kid_groups anc (b + tree_size t) ts
  end.

(** The loop iterations a queue of groups needs at most. *)
Definition queue_cost (q : list (list nat * nat * list (tree num))) : nat :=
  list_sum (map (λ g, S (forest_size g.2)) q).

End AggregationSpecs.

(** ** Keys of call sites *)

(** What [_nameAnonymousFunctions] leaves of a call frame. *)
Definition named (c : CallFrame) : CallFrame :=
  if String.eqb (functionName c) "" then set_functionName anonymous_name c else c.

(** The character [c] stands in [s]. *)
Fixpoint has_char (c : Ascii.ascii) (s : string) : bool :=
  match s with
  | EmptyString => false
  | String c' s => Ascii.eqb c' c || has_char c s
  end.

(** ** The merge of [bottomUpNodes] as values *)

Section MergeSpecs.
Context {num : Type} `{JSNumber num}.

(** The keys of a list in the order in which they are first seen. *)
Definition first_seen (l : list string) : list string :=
  fold_left (λ acc u, if bool_decide (u ∈ acc) then acc else acc ++ [u]) l [].

(** An occurrence: a tree node and its [totalAccountedFor] flag. *)
Definition occurrences_of (u : string) (occ : list (ProfileNode num * bool))
    : list (ProfileNode num * bool) :=
  filter (λ o, callUID o.1 = u) occ.

(** The record of the occurrences [g] of one call site, in the order of the
    traversal: a clone of the first, its self time summed over all, its
    total time summed over the first and those not accounted for. *)
Definition group_record (g : list (ProfileNode num * bool)) : option (ProfileNode num) :=
  match g with
  | [] => None
  | (n0, _) :: rest =>
      Some (set_totalTime
              (fold_left num_add (totalTime <$> (filter (λ o, o.2 = false) rest).*1)
                 (totalTime n0))
              (set_selfTime (fold_left num_add (selfTime <$> rest.*1) (selfTime n0))
                 (clone n0)))
  end.

(** The entries [infos] visit the occurrences [occ] in the arena. *)
Definition visits (arena : list (ProfileNode num)) (infos : list NodeInfo)
    (occ : list (ProfileNode num * bool)) : Prop :=
  Forall2 (λ i o, ancestor i = focusNode i ∧ totalAccountedFor i = o.2 ∧
                  ∃ u, arena !! focusNode i = Some (set_UID u o.1)) infos occ.

(** The records describe the occurrences. *)
Definition merged (records : list (ProfileNode num)) (occ : list (ProfileNode num * bool))
    : Prop :=
  callUID <$> records = first_seen (callUID <$> occ.*1) ∧
  Forall (λ r, group_record (occurrences_of (callUID r) occ) = Some r) records.

End MergeSpecs.

(** ** The nodes of a stored tree *)

Section Cells.
Context {num : Type} `{JSNumber num}.

(** Every subtree of a tree stored at [base], with the index of its root. *)
Fixpoint nodes_at (base : nat) (t : tree num) : list (nat * tree num) :=
  match t with
  | Node _ ks => (base, t) :: concat (forest_with nodes_at (S base) ks)
  end.

(** The arena cell of the root of [s] when [s] is stored at [a]. *)
Definition cell (o : nat * tree num) : ProfileNode num :=
  set_children (Some (roots (S o.1) (subtrees o.2))) (root_data o.2).

(** [Q] holds of a tree and of every subtree of it. *)
Fixpoint all_sub (Q : tree num → Prop) (t : tree num) : Prop :=
  match t with
  | Node _ ks => Q t ∧ fold_right (λ k acc, all_sub Q k ∧ acc) True ks
  end.

(** The total time of the root is its self time plus the total times of its
    children, added from left to right. *)
Definition total_is_sum (t : tree num) : Prop :=
  totalTime (root_data t) =
  fold_left num_add (map (λ k, totalTime (root_data k)) (subtrees t)) (selfTime (root_data t)).

(** The root of [o.2], stored at [o.1], has a depth, and the roots of its
    subtrees have it for their parent and stand one level below it. *)
Definition linked (o : nat * tree num) : Prop :=
  ∃ dp, depth (root_data o.2) = Some dp ∧
        Forall (λ k, parent (root_data k) = Some o.1 ∧ depth (root_data k) = Some (dp + 1)%Z)
          (subtrees o.2).
(** What a node of the tree keeps of the flat node it is cloned from. *)
Definition origin (n : ProfileNode num)
    : nat * CallFrame * num * list (Z * Z) * option string :=
  (id n, callFrame n, hitCount n, positionTicks n, deoptReason n).
End Cells.

(** ** A profile to run the code on *)

Definition frame (name script origin : string) (line : Z) : CallFrame :=
  {| functionName := name; scriptId := script; url := origin;
     lineNumber := line; columnNumber := 0%Z |}.

Definition raw_node (i : nat) (c : CallFrame) (hits : float) (cs : list nat) : RawNode float :=
  {| raw_id := i; raw_callFrame := c; raw_hitCount := hits; raw_children := Some cs;
     raw_positionTicks := None; raw_deoptReason := None |}.

(** root → A → B → A (recursive) → a native frame, and an anonymous function
    below the root; 25 hits in 2500 µs. *)
Definition example_profile : RawProfile float :=
  {| raw_nodes :=
       [ raw_node 1 (frame "(root)" "0" "" (-1)) 0%float [2; 5];
         raw_node 2 (frame "A" "1" "a.js" 10) 10%float [3];
         raw_node 3 (frame "B" "1" "a.js" 20) 5%float [4];
         raw_node 4 (frame "A" "1" "a.js" 10) 5%float [6];
         raw_node 5 (frame "" "1" "a.js" 30) 3%float [];
         raw_node 6 (frame "push" "0" "native array.js" 7) 2%float [] ];
     raw_startTime := 0%float; raw_endTime := 2500%float;
     raw_samples := []; raw_timeDeltas := [] |}.

(** The same tree with exact rationals for numbers. *)
Definition exact_node (i : nat) (c : CallFrame) (hits : Z) (cs : list nat) : RawNode Qc :=
  {| raw_id := i; raw_callFrame := c; raw_hitCount := Q2Qc (inject_Z hits);
     raw_children := Some cs; raw_positionTicks := None; raw_deoptReason := None |}.

Definition example_exact : RawProfile Qc :=
  {| raw_nodes :=
       [ exact_node 1 (frame "(root)" "0" "" (-1)) 0 [2; 5];
         exact_node 2 (frame "A" "1" "a.js" 10) 10 [3];
         exact_node 3 (frame "B" "1" "a.js" 20) 5 [4];
         exact_node 4 (frame "A" "1" "a.js" 10) 5 [6];
         exact_node 5 (frame "" "1" "a.js" 30) 3 [];
         exact_node 6 (frame "push" "0" "native array.js" 7) 2 [] ];
     raw_startTime := Q2Qc 0; raw_endTime := Q2Qc 2500;
     raw_samples := []; raw_timeDeltas := [] |}.

(** root → a native frame, and root → A → a native frame; one hit each but
    for the root, in 3000 µs. *)
Definition native_profile : RawProfile float :=
  {| raw_nodes :=
       [ raw_node 1 (frame "(root)" "0" "" (-1)) 0%float [2; 3];
         raw_node 2 (frame "push" "0" "native array.js" 7) 1%float [];
         raw_node 3 (frame "A" "1" "a.js" 10) 1%float [4];
         raw_node 4 (frame "push" "0" "native array.js" 7) 1%float [] ];
     raw_startTime := 0%float; raw_endTime := 3000%float;
     raw_samples := []; raw_timeDeltas := [] |}.

(** root → A → B → A with 1, 1 and 4 hits in 1000 µs: self times that are
    sixths of a millisecond. *)
Definition rounding_profile : RawProfile float :=
  {| raw_nodes :=
       [ raw_node 1 (frame "(root)" "0" "" (-1)) 0%float [2];
         raw_node 2 (frame "A" "1" "a.js" 10) 1%float [3];
         raw_node 3 (frame "B" "1" "a.js" 20) 1%float [4];
         raw_node 4 (frame "A" "1" "a.js" 10) 4%float [] ];
     raw_startTime := 0%float; raw_endTime := 1000%float;
     raw_samples := []; raw_timeDeltas := [] |}.

(** An anonymous function in a script whose id holds the separator of the
    key, next to a function whose name ends as the key of the first begins. *)
Definition collision_profile : RawProfile float :=
  {| raw_nodes :=
       [ raw_node 1 (frame "(root)" "0" "" (-1)) 0%float [2; 3];
         raw_node 2 (frame "" "1@2" "b.js" 3) 1%float [];
         raw_node 3 (frame "(anonymous function)@1" "2" "a.js" 3) 1%float [] ];
     raw_startTime := 0%float; raw_endTime := 2000%float;
     raw_samples := []; raw_timeDeltas := [] |}.

(** A profile without a single hit. *)
Definition idle_profile : RawProfile float :=
  {| raw_nodes :=
       [ raw_node 1 (frame "(root)" "0" "" (-1)) 0%float [2];
         raw_node 2 (frame "A" "1" "a.js" 10) 0%float [] ];
     raw_startTime := 0%float; raw_endTime := 2000%float;
     raw_samples := []; raw_timeDeltas := [] |}.

(** A profile that ends before it starts. *)
Definition backwards_profile : RawProfile float :=
  {| raw_nodes :=
       [ raw_node 1 (frame "(root)" "0" "" (-1)) 0%float [2];
         raw_node 2 (frame "A" "1" "a.js" 10) 4%float [] ];
     raw_startTime := 2000%float; raw_endTime := 0%float;
     raw_samples := []; raw_timeDeltas := [] |}.

(** A profile whose node 2 names a child that is not there. *)
Definition dangling_profile : RawProfile float :=
  {| raw_nodes :=
       [ raw_node 1 (frame "(root)" "0" "" (-1)) 0%float [2];
         raw_node 2 (frame "A" "1" "a.js" 10) 4%float [7] ];
     raw_startTime := 0%float; raw_endTime := 2000%float;
     raw_samples := []; raw_timeDeltas := [] |}.

(** A document without nodes. *)
Definition empty_profile : RawProfile float :=
  {| raw_nodes := []; raw_startTime := 0%float; raw_endTime := 2000%float;
     raw_samples := []; raw_timeDeltas := [] |}.

(** A root alone, with three hits in 3000 µs. *)
Definition lone_root_profile : RawProfile float :=
  {| raw_nodes := [ raw_node 1 (frame "(root)" "0" "" (-1)) 3%float [] ];
     raw_startTime := 0%float; raw_endTime := 3000%float;
     raw_samples := []; raw_timeDeltas := [] |}.

(** root → A → B → A: the [children] of B name the flat node of A itself. *)
Definition cyclic_profile : RawProfile float :=
  {| raw_nodes :=
       [ raw_node 1 (frame "(root)" "0" "" (-1)) 0%float [2];
         raw_node 2 (frame "A" "1" "a.js" 10) 1%float [3];
         raw_node 3 (frame "B" "1" "a.js" 20) 1%float [2] ];
     raw_startTime := 0%float; raw_endTime := 2000%float;
     raw_samples := []; raw_timeDeltas := [] |}.
(** A profile whose node 2 names, after a child that is not there, itself. *)
Definition hanging_profile : RawProfile float :=
  {| raw_nodes :=
       [ raw_node 1 (frame "(root)" "0" "" (-1)) 0%float [2];
         raw_node 2 (frame "A" "1" "a.js" 10) 4%float [7; 2] ];
     raw_startTime := 0%float; raw_endTime := 2000%float;
     raw_samples := []; raw_timeDeltas := [] |}.

(** * Properties *)

(** ** Trees and their layout *)

Section TreeFacts.
Context {num : Type} `{JSNumber num}.
Implicit Types (t : tree num) (ts ks : list (tree num)).

Lemma tree_ind' (P : tree num → Prop) :
  (∀ d ks, Forall P ks → P (Node d ks)) → ∀ t, P t.
Proof.
  intros IH. fix go 1. intros [d ks]. apply IH.
  induction ks as [|k ks IHks]; constructor; [apply go | apply IHks].
Qed.

Lemma forest_size_cons t ts : forest_size (t :: ts) = tree_size t + forest_size ts.
Proof. reflexivity. Qed.

Lemma forest_size_app ts1 ts2 : forest_size (ts1 ++ ts2) = forest_size ts1 + forest_size ts2.
Proof. unfold forest_size. rewrite map_app, list_sum_app. done. Qed.

Lemma forest_with_app {A} (f : nat → tree num → A) b ts1 ts2 :
  forest_with f b (ts1 ++ ts2) = forest_with f b ts1 ++ forest_with f (b + forest_size ts1) ts2.
Proof.
  revert b. induction ts1 as [|t ts1 IH]; intros b; simpl.
  - by rewrite Nat.add_0_r.
  - rewrite IH, forest_size_cons. do 3 f_equal. lia.
Qed.

Lemma roots_forest_with b ts : roots b ts = forest_with (λ a _, a) b ts.
Proof. revert b. induction ts as [|t ts IH]; intros b; simpl; [done|]. by rewrite IH. Qed.

Lemma roots_app b ts1 ts2 : roots b (ts1 ++ ts2) = roots b ts1 ++ roots (b + forest_size ts1) ts2.
Proof. rewrite !roots_forest_with. apply forest_with_app. Qed.

Lemma layouts_nil b : layouts b ([] : list (tree num)) = [].
Proof. reflexivity. Qed.

Lemma layouts_cons b t ts : layouts b (t :: ts) = layout b t ++ layouts (b + tree_size t) ts.
Proof. reflexivity. Qed.

Lemma layouts_app b ts1 ts2 :
  layouts b (ts1 ++ ts2) = layouts b ts1 ++ layouts (b + forest_size ts1) ts2.
Proof. unfold layouts. by rewrite forest_with_app, concat_app. Qed.

Lemma layout_Node b d ks :
  layout b (Node d ks) = set_children (Some (roots (S b) ks)) d :: layouts (S b) ks.
Proof. reflexivity. Qed.

Lemma length_layout b t : length (layout b t) = tree_size t.
Proof.
  revert b. induction t as [d ks IH] using tree_ind'. intros b.
  rewrite layout_Node. simpl. f_equal. fold (forest_size ks).
  generalize (S b). induction IH as [|k ks Hk _ IHks]; intros b'; [done|].
  rewrite layouts_cons, length_app, Hk, IHks, forest_size_cons. done.
Qed.

Lemma length_layouts b ts : length (layouts b ts) = forest_size ts.
Proof.
  revert b. induction ts as [|t ts IH]; intros b; [done|].
  by rewrite layouts_cons, length_app, length_layout, IH.
Qed.

End TreeFacts.

Section Construction.
Context {num : Type} `{JSNumber num}.

Lemma totalHitCount_sum (ns : list (ProfileNode num)) :
  totalHitCount ns = fold_left num_add (map hitCount ns) num_zero.
Proof.
  unfold totalHitCount. generalize (num_zero (num := num)).
  induction ns as [|n ns IH]; intros acc; simpl; [done|]. apply IH.
Qed.

Lemma nodes_new_Profile (ns : list (ProfileNode num)) (st en : num) smp dl :
  nodes (new_Profile ns st en smp dl) =
  map (λ node,
         let node' := set_selfTime
           (num_div (num_mul (hitCount node)
                       (num_div (num_sub en st) (totalHitCount ns))) num_thousand) node in
         if String.eqb (functionName (callFrame node')) ""
         then set_callFrame (set_functionName anonymous_name (callFrame node')) node'
         else node') ns.
Proof.
  unfold new_Profile, _nameAnonymousFunctions, _assignInitialSelfTimes,
    _determineSamplingInterval, _createIdToNodeMap. simpl.
  rewrite map_map. reflexivity.
Qed.

(** C5: after construction the sampling interval is the elapsed time divided
    by the sum of all hit counts, and every flat node's self time is its own
    hit count times that interval, divided by 1000. *)
Theorem C5_sampling_interval_and_self_times
    (ns : list (ProfileNode num)) (st en : num) smp dl :
  let p := new_Profile ns st en smp dl in
  let interval := num_div (num_sub en st) (fold_left num_add (map hitCount ns) num_zero) in
  samplingInterval p = Some interval ∧
  length (nodes p) = length ns ∧
  ∀ i node, nodes p !! i = Some node →
    (∃ node0, ns !! i = Some node0 ∧ hitCount node = hitCount node0) ∧
    selfTime node = num_div (num_mul (hitCount node) interval) num_thousand.
Proof.
  intros p interval. subst p interval. rewrite <- totalHitCount_sum.
  split; [reflexivity|]. rewrite nodes_new_Profile. split; [by rewrite length_map|].
  intros i node Hi. rewrite list_lookup_fmap in Hi.
  destruct (ns !! i) as [node0|] eqn:E; simpl in Hi; [|done].
  injection Hi as <-. split.
  - exists node0. split; [done|]. by destruct (String.eqb _ _).
  - by destruct (String.eqb _ _).
Qed.

End Construction.

(** ** The work list of [translatedRoot] *)

Section Walk.
Context {num : Type} `{JSNumber num}.
Implicit Types (t : tree num) (ts ks : list (tree num)) (arena flat : list (ProfileNode num)).

Variable idmap : gmap nat nat.
Variable flat : list (ProfileNode num).

Lemma grown_nil P : is_Some (children P) → grown P [] [] = P.
Proof. intros [cs Hcs]. destruct P; simpl in *. subst. unfold grown; simpl. by rewrite app_nil_r. Qed.

Lemma grown_grown P k1 i1 k2 i2 :
  grown (grown P k1 i1) k2 i2 = grown P (k1 ++ k2) (i1 ++ i2).
Proof. unfold grown; simpl. by rewrite fold_left_app, app_assoc. Qed.

Lemma walks_of_walk cs rs :
  Forall2 (λ c r, walk_spec idmap flat (idmap !! c) r) cs rs → walks_spec idmap flat cs rs.
Proof.
  induction 1 as [|c r cs rs [n1 H1] _ [n2 H2]].
  - exists 0. intros k arena p P rest HP HPc. simpl.
    rewrite grown_nil by done. rewrite list_insert_id by done. by rewrite app_nil_r.
  - exists (n1 + n2). intros k arena p P rest HP HPc. simpl.
    rewrite <- Nat.add_assoc, (H1 _ _ _ P) by done.
    assert (p < length arena) by (by eapply lookup_lt_Some).
    erewrite H2; cycle 1.
    { rewrite lookup_app_l by (by rewrite length_insert).
      by apply list_lookup_insert_eq. }
    { simpl. eauto. }
    f_equal. rewrite length_app, length_insert, length_layouts.
    rewrite insert_app_l by (by rewrite length_insert).
    rewrite list_insert_insert_eq, grown_grown.
    rewrite <- roots_app, layouts_app, app_assoc. done.
Qed.

Lemma mapM_Forall2 {A B} (f : A → option B) (l : list A) (k : list B) (P : A → B → Prop) :
  (∀ a b, f a = Some b → P a b) → mapM f l = Some k → Forall2 P l k.
Proof.
  intros Hf Hm. apply mapM_Some_1 in Hm.
  induction Hm; constructor; auto.
Qed.

Lemma walk_of_expand d src r :
  has_children flat → expand d idmap flat src = Some r → walk_spec idmap flat src r.
Proof.
  intros Hflat. revert src r. induction d as [|d IH]; intros src r He; [done|].
  simpl in He. destruct src as [src|]; [|done]. simpl in He.
  destruct (flat !! src) as [node|] eqn:Hnode; [|done]. simpl in He.
  destruct (mapM _ _) as [rs|] eqn:Hrs; [|done]. simpl in He.
  apply (mapM_Forall2 _ _ _ (λ c r, walk_spec idmap flat (idmap !! c) r)) in Hrs; [|by auto].
  apply walks_of_walk in Hrs as [n Hn].
  assert (is_Some (children node)) as [cs Hcs].
  { eapply Forall_lookup_1 in Hflat; eauto. }
  rewrite Hcs in *. simpl in *.
  exists (S n). intros k arena p P rest HP HPc. simpl.
  rewrite Hnode. simpl. rewrite Hcs. simpl.
  assert (p < length arena) by (by eapply lookup_lt_Some).
  destruct (isNativeNode node) eqn:Hnat; simpl in *; injection He as <-; simpl.
  - (* native: folded into the parent *)
    unfold add_selfTime. rewrite HP. simpl.
    rewrite Hcs. simpl. rewrite <- map_rev.
    erewrite Hn; cycle 1.
    { by apply list_lookup_insert_eq. }
    { done. }
    rewrite length_insert, list_insert_insert_eq. done.
  - (* a tree node of its own *)
    unfold push_child. rewrite lookup_app_l, HP by done. simpl.
    destruct HPc as [pcs HPc]. rewrite HPc. simpl.
    rewrite Hcs. simpl. rewrite <- map_rev.
    erewrite Hn; cycle 1.
    { rewrite insert_app_l by done. rewrite lookup_app_r by (by rewrite length_insert).
      rewrite length_insert, Nat.sub_diag. reflexivity. }
    { simpl. eauto. }
    f_equal. rewrite length_insert, length_app. simpl.
    rewrite insert_app_l by done.
    rewrite insert_app_r_alt by (by rewrite length_insert).
    rewrite length_insert, Nat.sub_diag. simpl.
    rewrite layouts_cons, layout_Node, layouts_nil, app_nil_r.
    rewrite <- app_assoc. simpl.
    replace (length arena + 1) with (S (length arena)) by lia.
    f_equal.
    unfold grown; simpl. rewrite HPc. simpl. by destruct P.
Qed.

End Walk.

(** ** [sumTotal] *)

Section Totals.
Context {num : Type} `{JSNumber num}.
Implicit Types (t : tree num) (ts ks : list (tree num)) (arena pre post : list (ProfileNode num)).

Lemma tree_size_with_totals t : tree_size (with_totals t) = tree_size t.
Proof.
  induction t as [d ks IH] using tree_ind'. simpl. f_equal.
  induction IH as [|k ks Hk _ IHks]; [done|]. simpl. by rewrite Hk, IHks.
Qed.

Lemma forest_size_with_totals ts : forest_size (map with_totals ts) = forest_size ts.
Proof.
  induction ts as [|t ts IH]; [done|].
  simpl. rewrite !forest_size_cons, tree_size_with_totals. by f_equal.
Qed.

Lemma roots_with_totals b ts : roots b (map with_totals ts) = roots b ts.
Proof.
  revert b. induction ts as [|t ts IH]; intros b; [done|].
  simpl. by rewrite tree_size_with_totals, IH.
Qed.

Lemma height_kids d ks k : k ∈ ks → height k < height (Node d ks).
Proof.
  simpl. induction ks as [|k' ks IH]; intros Hk.
  - by apply not_elem_of_nil in Hk.
  - apply elem_of_cons in Hk as [->|Hk]; simpl; [lia|]. specialize (IH Hk). lia.
Qed.

Lemma sumTotal_kids fuel ks :
  (∀ k, k ∈ ks → ∀ pre post,
     sumTotal fuel (pre ++ layout (length pre) k ++ post) (length pre) =
     Ok (totalTime (root_data (with_totals k)),
         pre ++ layout (length pre) (with_totals k) ++ post)) →
  ∀ pre post acc,
    foldl_result (sumChild (sumTotal fuel)) (acc, pre ++ layouts (length pre) ks ++ post)
      (roots (length pre) ks) =
    Ok (fold_left num_add (map (λ k, totalTime (root_data k)) (map with_totals ks)) acc,
        pre ++ layouts (length pre) (map with_totals ks) ++ post).
Proof.
  induction ks as [|k ks IH]; intros Hks pre post acc; [done|].
  simpl. rewrite layouts_cons, <- app_assoc.
  rewrite Hks by apply list_elem_of_here. simpl.
  specialize (IH (λ k' Hk', Hks k' (list_elem_of_further _ _ _ Hk'))
                (pre ++ layout (length pre) (with_totals k)) post).
  rewrite length_app, length_layout, tree_size_with_totals in IH.
  rewrite app_assoc, IH. rewrite layouts_cons, tree_size_with_totals, <- !app_assoc. done.
Qed.

Lemma sumTotal_layout fuel t pre post :
  height t ≤ fuel →
  sumTotal fuel (pre ++ layout (length pre) t ++ post) (length pre) =
  Ok (totalTime (root_data (with_totals t)),
      pre ++ layout (length pre) (with_totals t) ++ post).
Proof.
  revert t pre post. induction fuel as [|fuel IH]; intros [d ks] pre post Hh.
  { simpl in Hh. lia. }
  rewrite layout_Node. cbn [sumTotal].
  rewrite lookup_app_r, Nat.sub_diag by done. simpl.
  pose proof (sumTotal_kids fuel ks) as Hk.
  specialize (Hk (λ k Hk pre post, IH k pre post
                   ltac:(pose proof (height_kids d ks k Hk); lia))).
  specialize (Hk (pre ++ [set_children (Some (roots (S (length pre)) ks)) d]) post (selfTime d)).
  rewrite length_app, Nat.add_1_r in Hk. simpl in Hk.
  rewrite <- app_assoc in Hk. simpl in Hk. rewrite Hk. simpl.
  rewrite <- app_assoc. simpl.
  rewrite lookup_app_r, Nat.sub_diag by done. simpl.
  rewrite insert_app_r_alt, Nat.sub_diag by done. simpl.
  rewrite roots_with_totals. done.
Qed.

End Totals.

(** ** The depths and parents *)

Section Depths.
Context {num : Type} `{JSNumber num}.
Implicit Types (t : tree num) (ts ks : list (tree num)) (arena pre post : list (ProfileNode num)).

Lemma forest_with_sizes (f : nat → tree num → tree num) b ts :
  (∀ a t, t ∈ ts → tree_size (f a t) = tree_size t) →
  forest_size (forest_with f b ts) = forest_size ts ∧
  roots b (forest_with f b ts) = roots b ts.
Proof.
  revert b. induction ts as [|t ts IH]; intros b Hf; [done|].
  simpl. rewrite !forest_size_cons.
  destruct (IH (b + tree_size t)) as [-> Hr].
  { intros a t' Ht'. apply Hf. by apply list_elem_of_further. }
  rewrite !Hf by apply list_elem_of_here. by rewrite Hr.
Qed.

Lemma tree_size_stamp par dp b t : tree_size (stamp par dp b t) = tree_size t.
Proof.
  revert par dp b. induction t as [d ks IH] using tree_ind'. intros par dp b.
  simpl. f_equal. fold (forest_size ks).
  fold (forest_size (forest_with (stamp b (dp + 1)%Z) (S b) ks)).
  apply forest_with_sizes. intros a t Ht.
  rewrite Forall_forall in IH. by apply IH.
Qed.

Lemma roots_stamp par dp b ts : roots b (forest_with (stamp par dp) b ts) = roots b ts.
Proof. apply forest_with_sizes. intros. apply tree_size_stamp. Qed.

Lemma tree_size_stamp_top par dp t : tree_size (stamp_top par dp t) = tree_size t.
Proof. by destruct t. Qed.

Lemma tree_size_stamp_below dp b t : tree_size (stamp_below dp b t) = tree_size t.
Proof.
  destruct t as [d ks]. simpl. f_equal.
  fold (forest_size ks). fold (forest_size (forest_with (stamp b (dp + 1)%Z) (S b) ks)).
  apply forest_with_sizes. intros. apply tree_size_stamp.
Qed.

Lemma stamp_split par dp b t : stamp par dp b t = stamp_below dp b (stamp_top par dp t).
Proof. by destruct t. Qed.

Lemma forest_with_map {A} (f : nat → tree num → A) (g : tree num → tree num) b ts :
  (∀ t, tree_size (g t) = tree_size t) →
  forest_with f b (map g ts) = forest_with (λ a t, f a (g t)) b ts.
Proof.
  intros Hg. revert b. induction ts as [|t ts IH]; intros b; [done|].
  simpl. by rewrite Hg, IH.
Qed.

Lemma forest_with_ext {A} (f g : nat → tree num → A) b ts :
  (∀ a t, f a t = g a t) → forest_with f b ts = forest_with g b ts.
Proof.
  intros Hfg. revert b. induction ts as [|t ts IH]; intros b; [done|].
  simpl. by rewrite Hfg, IH.
Qed.

Lemma nonleaf_roots_app b ts1 ts2 :
  nonleaf_roots b (ts1 ++ ts2) = nonleaf_roots b ts1 ++ nonleaf_roots (b + forest_size ts1) ts2.
Proof.
  revert b. induction ts1 as [|t ts1 IH]; intros b; simpl.
  - by rewrite Nat.add_0_r.
  - rewrite IH, forest_size_cons, <- app_assoc. do 3 f_equal. lia.
Qed.

Lemma nonleaf_roots_map (g : tree num → tree num) b ts :
  (∀ t, tree_size (g t) = tree_size t) →
  (∀ t, subtrees (g t) = [] ↔ subtrees t = []) →
  nonleaf_roots b (map g ts) = nonleaf_roots b ts.
Proof.
  intros Hs Hg. revert b. induction ts as [|t ts IH]; intros b; [done|].
  simpl. rewrite Hs, IH. f_equal.
  by rewrite (bool_decide_ext _ _ (Hg t)).
Qed.

Lemma roots_nil_iff b ts : roots b ts = [] ↔ ts = [].
Proof. by destruct ts. Qed.

Lemma assignChild_eq dp par arena pushed child cn ccs :
  arena !! child = Some cn → children cn = Some ccs →
  assignChild dp par (arena, pushed) child =
  Ok (<[child := set_depth_parent dp (Some par) cn]> arena,
      if bool_decide (ccs = []) then pushed else pushed ++ [child]).
Proof. intros Hc Hcs. unfold assignChild. rewrite Hc. simpl. by rewrite Hcs. Qed.

(** The loop body over the children of a node. *)
Lemma assignChild_kids dp par ks pre post pushed :
  foldl_result (assignChild (Some dp) par) (pre ++ layouts (length pre) ks ++ post, pushed)
    (roots (length pre) ks) =
  Ok (pre ++ layouts (length pre) (map (stamp_top par dp) ks) ++ post,
      pushed ++ nonleaf_roots (length pre) ks).
Proof.
  revert pre pushed. induction ks as [|[d ks'] ks IH]; intros pre pushed.
  { simpl. by rewrite app_nil_r. }
  cbn [roots foldl_result map nonleaf_roots subtrees].
  rewrite !layouts_cons, !layout_Node, <- !app_assoc.
  erewrite assignChild_eq; cycle 1.
  { rewrite lookup_app_r, Nat.sub_diag by done. reflexivity. }
  { reflexivity. }
  rewrite insert_app_r_alt, Nat.sub_diag by done.
  cbn [mbind Result_bind insert list_insert app].
  specialize (IH (pre ++ set_children (Some (roots (S (length pre)) ks'))
                          (set_depth_parent (Some dp) (Some par) d)
                        :: layouts (S (length pre)) ks')).
  rewrite length_app in IH. cbn [length] in IH. rewrite length_layouts in IH.
  replace (length pre + S (forest_size ks')) with (length pre + tree_size (Node d ks'))
    in IH by done.
  rewrite <- !app_assoc in IH. cbn [app] in IH.
  rewrite tree_size_stamp_top.
  cbn [stamp_top]. rewrite layout_Node.
  destruct (decide (ks' = [])) as [E|E].
  - rewrite !bool_decide_true by (by rewrite ?roots_nil_iff). by rewrite IH.
  - rewrite !bool_decide_false by (by rewrite ?roots_nil_iff).
    rewrite IH, <- !app_assoc. done.
Qed.

Lemma assignDepths_forest dp ks :
  Forall (λ k, depth (root_data k) = Some dp) ks →
  (∀ b k, k ∈ ks → depths_spec dp b k) →
  ∀ b, ∃ n, ∀ k pre post rest,
    length pre = b →
    assignDepths (n + k) (pre ++ layouts b ks ++ post) (rev (nonleaf_roots b ks) ++ rest) =
    assignDepths k (pre ++ layouts b (forest_with (stamp_below dp) b ks) ++ post) rest.
Proof.
  induction ks as [|kl ks IH] using rev_ind; intros Hd Hks b.
  { by exists 0. }
  apply Forall_app in Hd as [Hd Hdl]. apply Forall_cons in Hdl as [Hdl _].
  destruct (IH Hd) with (b := b) as [n1 H1].
  { intros b' k Hk. apply Hks. apply elem_of_app. by left. }
  destruct (Hks (b + forest_size ks) kl) as [n2 H2]; [|done|].
  { apply elem_of_app. right. apply list_elem_of_here. }
  assert (forest_size (forest_with (stamp_below dp) b ks) = forest_size ks) as Hsz.
  { apply forest_with_sizes. intros. apply tree_size_stamp_below. }
  destruct (decide (subtrees kl = [])) as [Hleaf|Hleaf].
  - exists n1. intros k pre post rest Hpre.
    rewrite nonleaf_roots_app. simpl. rewrite bool_decide_true by done. simpl.
    rewrite app_nil_r, layouts_app, layouts_cons, layouts_nil, app_nil_r, <- app_assoc.
    rewrite H1 by done. rewrite forest_with_app, layouts_app. simpl.
    rewrite layouts_cons, layouts_nil, app_nil_r, <- app_assoc, Hsz.
    destruct kl as [d ks']. simpl in Hleaf. subst ks'. done.
  - exists (n2 + n1). intros k pre post rest Hpre.
    rewrite nonleaf_roots_app. simpl. rewrite bool_decide_false by done. simpl.
    rewrite rev_app_distr. simpl.
    rewrite layouts_app, layouts_cons, layouts_nil, app_nil_r, <- app_assoc.
    rewrite app_assoc, <- Nat.add_assoc, H2
      by (by rewrite length_app, length_layouts, Hpre).
    rewrite <- app_assoc, H1 by done.
    rewrite forest_with_app, layouts_app. simpl.
    rewrite layouts_cons, layouts_nil, app_nil_r, <- app_assoc, Hsz. done.
Qed.

Lemma height_stamp_top par dp t : height (stamp_top par dp t) = height t.
Proof. by destruct t. Qed.

Lemma depths_spec_all h t dp b : height t ≤ h → depths_spec dp b t.
Proof.
  revert t dp b. induction h as [|h IH]; intros [d ks] dp b Hh Hd.
  { simpl in Hh. lia. }
  simpl in Hd.
  destruct (assignDepths_forest (dp + 1) (map (stamp_top b (dp + 1)%Z) ks)) with (b := S b)
    as [n Hn].
  { apply Forall_forall. intros k Hk. apply list_elem_of_fmap in Hk as ([d' ks'] & -> & _). done. }
  { intros b' k Hk. apply list_elem_of_fmap in Hk as (k' & -> & Hk').
    apply IH. rewrite height_stamp_top.
    pose proof (height_kids d ks k' Hk'). lia. }
  exists (S n). intros k pre post rest Hpre. subst b.
  rewrite layout_Node. cbn [Nat.add assignDepths].
  rewrite lookup_app_r, Nat.sub_diag by done. simpl. rewrite Hd. simpl.
  pose proof (assignChild_kids (dp + 1) (length pre) ks
                (pre ++ [set_children (Some (roots (S (length pre)) ks)) d]) post []) as Hk.
  rewrite length_app, Nat.add_1_r in Hk. simpl in Hk.
  rewrite <- !app_assoc in Hk. simpl in Hk. rewrite Hk. simpl.
  rewrite nonleaf_roots_map in Hn; cycle 1.
  { apply tree_size_stamp_top. }
  { by intros []. }
  specialize (Hn k (pre ++ [set_children (Some (roots (S (length pre)) ks)) d]) post rest).
  rewrite length_app, Nat.add_1_r in Hn. simpl in Hn.
  rewrite <- !app_assoc in Hn. simpl in Hn. rewrite Hn by done.
  do 2 f_equal.
  assert (forest_with (stamp_below (dp + 1)) (S (length pre))
            (map (stamp_top (length pre) (dp + 1)%Z) ks) =
          forest_with (stamp (length pre) (dp + 1)%Z) (S (length pre)) ks) as ->.
  { rewrite forest_with_map by apply tree_size_stamp_top.
    apply forest_with_ext. intros. symmetry. apply stamp_split. }
  by rewrite roots_stamp.
Qed.

End Depths.

(** ** [translatedRoot] answers the layout of [spec_tree] *)

Section TranslatedRoot.
Context {num : Type} `{JSNumber num}.
Implicit Types (t : tree num) (p : Profile num).

Lemma set_nodes_id p : set_nodes (nodes p) p = p.
Proof. by destruct p. Qed.

Lemma walkPairs_done k idmap (flat arena : list (ProfileNode num)) :
  walkPairs (S k) idmap flat arena [] = Ok (flat, arena).
Proof. reflexivity. Qed.

Lemma assignDepths_done k (arena : list (ProfileNode num)) :
  assignDepths (S k) arena [] = Ok arena.
Proof. reflexivity. Qed.

Lemma walkPairs_built d p t :
  has_children (nodes p) → built_tree d p = Some t →
  ∃ n, ∀ fuel, n ≤ fuel →
    ∃ root cs, nodes p !! 0 = Some root ∧ children root = Some cs ∧
      walkPairs fuel (idToNodeMap p) (nodes p) [cloneWithoutChildren root]
        (rev (map (λ i, (0, idToNodeMap p !! i)) cs)) = Ok (nodes p, layout 0 t).
Proof.
  intros Hflat Hb. unfold built_tree in Hb.
  destruct (nodes p !! 0) as [root|] eqn:Hroot; [|done]. simpl in Hb.
  destruct (children root) as [cs|] eqn:Hcs; [|done]. simpl in Hb.
  destruct (mapM _ _) as [rs|] eqn:Hrs; [|done]. simpl in Hb. injection Hb as <-.
  apply (mapM_Forall2 _ _ _ (λ c r, walk_spec (idToNodeMap p) (nodes p) (idToNodeMap p !! c) r))
    in Hrs; [|by eauto using walk_of_expand].
  apply walks_of_walk in Hrs as [n Hn].
  exists (S n). intros fuel Hfuel. exists root, cs. split; [done|]. split; [done|].
  replace fuel with (n + S (fuel - S n)) by lia.
  rewrite <- map_rev.
  rewrite <- (app_nil_r (map _ _)).
  erewrite Hn; [|reflexivity|by eexists].
  rewrite walkPairs_done. by rewrite layout_Node.
Qed.

Theorem translatedRoot_spec d p t :
  has_children (nodes p) → spec_tree d p = Some t →
  ∃ n, ∀ fuel, n ≤ fuel → translatedRoot fuel p = Ok (p, layout 0 t).
Proof.
  intros Hflat Hs. unfold spec_tree in Hs.
  destruct (built_tree d p) as [t1|] eqn:Hb; [|done]. simpl in Hs. injection Hs as <-.
  destruct (walkPairs_built d p t1 Hflat Hb) as [n1 H1].
  destruct (with_totals t1) as [d2 ks2] eqn:Ht2.
  destruct (depths_spec_all (height (Node (set_depth_parent (Some (-1)%Z) None d2) ks2))
              (Node (set_depth_parent (Some (-1)%Z) None d2) ks2) (-1)%Z 0) as [n3 H3];
    [done|done|].
  exists (n1 + height t1 + S n3). intros fuel Hfuel.
  destruct (H1 fuel) as (root & cs & Hroot & Hcs & Hw); [lia|].
  unfold translatedRoot. rewrite Hroot. simpl. rewrite Hcs. simpl.
  rewrite Hw. simpl.
  pose proof (sumTotal_layout fuel t1 [] []) as Hsum. simpl in Hsum.
  rewrite app_nil_r in Hsum. rewrite Hsum by lia. simpl.
  rewrite app_nil_r, Ht2, layout_Node. simpl.
  replace fuel with (n3 + S (fuel - S n3)) by lia.
  specialize (H3 (S (fuel - S n3)) [] [] []).
  rewrite !app_nil_r, layout_Node in H3. cbn [app] in H3.
  change (set_depth_parent ?a ?b (set_children ?c ?n))
    with (set_children c (set_depth_parent a b n)).
  rewrite H3 by done. rewrite assignDepths_done. simpl. by rewrite set_nodes_id.
Qed.

End TranslatedRoot.

(** ** Visiting one node *)

Section VisitNode.
Context {num : Type} `{JSNumber num}.
Implicit Types (arena : list (ProfileNode num)) (vis : list (nat * list nat)).

Lemma uid_from_app k vis vis' a :
  uid_from k (vis ++ vis') a =
  match uid_from k vis a with
  | Some x => Some x
  | None => uid_from (k + length vis) vis' a
  end.
Proof.
  revert k. induction vis as [|o vis IH]; intros k; simpl.
  - by rewrite Nat.add_0_r.
  - case_bool_decide; [done|]. rewrite IH. by replace (S k + length vis) with (k + S (length vis)) by lia.
Qed.

Lemma uid_from_None k vis a : uid_from k vis a = None ↔ a ∉ vis.*1.
Proof.
  revert k. induction vis as [|o vis IH]; intros k; simpl.
  - split; [intros _; apply not_elem_of_nil|done].
  - rewrite not_elem_of_cons. case_bool_decide as Ho.
    + split; [done|]. by intros [Hne _].
    + rewrite IH. split; [done|]. by intros [_ Hnot].
Qed.

Lemma uid_from_bound k vis a x : uid_from k vis a = Some x → k < x ≤ k + length vis.
Proof.
  revert k. induction vis as [|o vis IH]; intros k; simpl; [done|].
  case_bool_decide.
  - intros [= <-]. lia.
  - intros Hx. apply IH in Hx. lia.
Qed.

Lemma uid_from_inj k vis a b x :
  uid_from k vis a = Some x → uid_from k vis b = Some x → a = b.
Proof.
  revert k. induction vis as [|o vis IH]; intros k; simpl; [done|].
  repeat case_bool_decide; subst.
  - done.
  - intros [= <-] Hx. apply uid_from_bound in Hx. lia.
  - intros Hx [= <-]. apply uid_from_bound in Hx. lia.
  - apply IH.
Qed.

Lemma uid_from_snoc vis a c b :
  uid_from 0 (vis ++ [(a, c)]) b =
  match uid_from 0 vis b with
  | Some x => Some x
  | None => if bool_decide (a = b) then Some (S (length vis)) else None
  end.
Proof. rewrite uid_from_app. simpl. done. Qed.

Lemma has_parent_true arena a :
  has_parent arena a = true ↔ ∃ n q, arena !! a = Some n ∧ parent n = Some q.
Proof.
  unfold has_parent. rewrite bool_decide_eq_true. split.
  - intros [q Hq]. destruct (arena !! a) as [n|]; [|done]. by exists n, q.
  - intros (n & q & -> & Hq). by exists q.
Qed.

Lemma set_UID_id (n : ProfileNode num) : set_UID (UID n) n = n.
Proof. by destruct n. Qed.

Lemma visitNode_spec (arena0 : list (ProfileNode num)) v vis anc pushed a n cs :
  visit_inv arena0 v vis →
  arena0 !! a = Some n → UID n = None → children n = Some cs →
  a ∉ vis.*1 →
  (∀ b, b ∈ anc → b ∈ vis.*1) →
  ∃ v',
    visitNode anc (v, pushed) a =
      Ok (v', if bool_decide (cs = []) then pushed else pushed ++ [(anc ++ [a], cs)]) ∧
    visit_inv arena0 v' (vis ++ [(a, anc)]).
Proof.
  intros [Hlen Har Hbd Huids Hseen Hinfos] Hn Hu Hcs Hfresh Hanc.
  assert (a < length arena0) as Ha by (by eapply lookup_lt_Some).
  assert (uid_from 0 vis a = None) as Hnone by (by apply uid_from_None).
  unfold visitNode. rewrite (Har _ _ Hn), Hnone, <- Hu, set_UID_id. simpl. rewrite Hu.
  rewrite Hcs. simpl.
  set (arena' := <[a := set_UID (Some (S (profileNodeUIDs v))) n]> (v_arena v)).
  assert (∀ b m, arena0 !! b = Some m →
            arena' !! b = Some (set_UID (uid_from 0 (vis ++ [(a, anc)]) b) m)) as Har'.
  { intros b m Hm. rewrite uid_from_snoc. unfold arena'.
    destruct (decide (a = b)) as [<-|Hne].
    - rewrite list_lookup_insert_eq by lia. rewrite Hnone, bool_decide_true by done.
      rewrite Huids. by simplify_eq.
    - rewrite list_lookup_insert_ne by done. rewrite (Har _ _ Hm).
      rewrite bool_decide_false by done. by destruct (uid_from 0 vis b). }
  assert (∀ o, o ∈ vis ++ [(a, anc)] → o.1 < length arena0) as Hbd'.
  { intros o [Ho|Ho%list_elem_of_singleton]%elem_of_app; [by apply Hbd|by subst]. }
  destruct (parent n) as [q|] eqn:Hq.
  - (* a node below the root *)
    assert (has_parent arena0 a = true) as Hpa by (apply has_parent_true; eauto).
    exists {| v_arena := arena'; profileNodeUIDs := S (profileNodeUIDs v);
              visitedProfileNodesForCallUID :=
                <[callUID n := default ∅ (visitedProfileNodesForCallUID v !! callUID n)
                                 ∪ {[S (profileNodeUIDs v)]}]>
                  (visitedProfileNodesForCallUID v);
              v_infos := v_infos v ++
                [{| ancestor := a; focusNode := a;
                    totalAccountedFor :=
                      match visitedProfileNodesForCallUID v !! callUID n with
                      | Some s => existsb (has_UID arena' s) anc
                      | None => false
                      end |}] |}.
    split; [by destruct (visitedProfileNodesForCallUID v !! callUID n)|].
    split; simpl.
    + unfold arena'. by rewrite length_insert.
    + done.
    + done.
    + rewrite length_app. simpl. lia.
    + intros u. specialize (Hseen u) as Hu'.
      destruct (decide (callUID n = u)) as [<-|Hne].
      * rewrite lookup_insert_eq. intros x.
        destruct (visitedProfileNodesForCallUID v !! callUID n) as [s|] eqn:Hs; simpl.
        -- rewrite elem_of_union, elem_of_singleton, Hu'. split.
           ++ intros [(b & Hb & Hpb & Hcb)| ->].
              ** exists b. rewrite uid_from_snoc, Hb. done.
              ** exists a. rewrite uid_from_snoc, Hnone, bool_decide_true, Huids by done.
                 split; [done|]. split; [done|]. unfold callUID_at. by rewrite Hn.
           ++ intros (b & Hb & Hpb & Hcb). rewrite uid_from_snoc in Hb.
              destruct (uid_from 0 vis b) eqn:Hvb.
              ** left. exists b. by simplify_eq.
              ** case_bool_decide; [|done]. right. simplify_eq. by rewrite Huids.
        -- rewrite elem_of_union, elem_of_singleton. split.
           ++ intros [Hx%elem_of_empty| ->]; [done|].
              exists a. rewrite uid_from_snoc, Hnone, bool_decide_true, Huids by done.
              split; [done|]. split; [done|]. unfold callUID_at. by rewrite Hn.
           ++ intros (b & Hb & Hpb & Hcb). rewrite uid_from_snoc in Hb.
              destruct (uid_from 0 vis b) eqn:Hvb.
              ** exfalso. assert (b ∈ vis.*1) as Hin.
                 { apply dec_stable. intros Hnin. apply (uid_from_None 0) in Hnin. congruence. }
                 apply list_elem_of_fmap in Hin as (o & -> & Ho).
                 by eapply Hu'.
              ** case_bool_decide; [|done]. right. simplify_eq. by rewrite Huids.
      * rewrite lookup_insert_ne by done.
        destruct (visitedProfileNodesForCallUID v !! u) as [s|] eqn:Hs.
        -- intros x. rewrite Hu'. split.
           ++ intros (b & Hb & Hpb & Hcb). exists b. rewrite uid_from_snoc, Hb. done.
           ++ intros (b & Hb & Hpb & Hcb). exists b. rewrite uid_from_snoc in Hb.
              destruct (uid_from 0 vis b) eqn:Hvb; [done|].
              case_bool_decide; [|done]. subst b. unfold callUID_at in Hcb.
              rewrite Hn in Hcb. simpl in Hcb. congruence.
        -- intros o [Ho|Ho%list_elem_of_singleton]%elem_of_app; [by apply Hu'|].
           subst o. simpl. unfold callUID_at. rewrite Hn. simpl. congruence.
    + rewrite filter_app, map_app, Hinfos. f_equal.
      rewrite filter_cons_True by done. rewrite filter_nil. simpl. f_equal.
      unfold info_of. simpl. f_equal.
      (* the flag *)
      unfold accounted. specialize (Hseen (callUID n)).
      assert (callUID_at arena0 a = Some (callUID n)) as Hca
        by (unfold callUID_at; by rewrite Hn).
      destruct (visitedProfileNodesForCallUID v !! callUID n) as [s|] eqn:Hs.
      * apply eq_true_iff_eq. rewrite !existsb_exists. split.
        -- intros (b & Hb & Hhas). exists b. split; [done|].
           unfold has_UID in Hhas. apply list_elem_of_In, Hanc in Hb.
           apply list_elem_of_fmap in Hb as (o & -> & Ho).
           destruct (arena0 !! o.1) as [m|] eqn:Hm;
             [|apply Hbd, lookup_lt_is_Some in Ho; rewrite Hm in Ho; by destruct Ho].
           rewrite (Har' _ _ Hm) in Hhas. simpl in Hhas.
           destruct (uid_from 0 (vis ++ [(a, anc)]) o.1) as [x|] eqn:Hx; [|done].
           apply bool_decide_eq_true, Hseen in Hhas as (b' & Hb' & Hpb' & Hcb').
           rewrite uid_from_snoc in Hx.
           destruct (uid_from 0 vis o.1) eqn:Hvo.
           ++ simplify_eq. assert (b' = o.1) as -> by (by eapply uid_from_inj).
              rewrite Hpb', Hcb', Hca. simpl. by apply bool_decide_eq_true.
           ++ apply uid_from_None in Hvo. exfalso. apply Hvo.
              apply list_elem_of_fmap. eauto.
        -- intros (b & Hb & Hhas). exists b. split; [done|].
           apply andb_true_iff in Hhas as [Hpb Hcb]. apply bool_decide_eq_true in Hcb.
           unfold has_UID. apply list_elem_of_In, Hanc in Hb as Hb'.
           apply list_elem_of_fmap in Hb' as (o & -> & Ho).
           destruct (arena0 !! o.1) as [m|] eqn:Hm;
             [|apply Hbd, lookup_lt_is_Some in Ho; rewrite Hm in Ho; by destruct Ho].
           rewrite (Har' _ _ Hm). simpl.
           destruct (uid_from 0 vis o.1) as [x|] eqn:Hvo.
           ++ rewrite uid_from_snoc, Hvo. apply bool_decide_eq_true, Hseen.
              exists o.1. rewrite Hcb, Hca. done.
           ++ apply uid_from_None in Hvo. exfalso. apply Hvo.
              apply list_elem_of_fmap. eauto.
      * symmetry. apply not_true_is_false. rewrite existsb_exists.
        intros (b & Hb & Hhas). apply andb_true_iff in Hhas as [Hpb Hcb].
        apply bool_decide_eq_true in Hcb.
        apply list_elem_of_In, Hanc, list_elem_of_fmap in Hb as (o & -> & Ho).
        eapply Hseen; eauto. by rewrite Hcb.
  - (* the root *)
    assert (has_parent arena0 a = false) as Hpa.
    { apply not_true_is_false. rewrite has_parent_true. intros (? & ? & ? & ?). congruence. }
    eexists. split; [reflexivity|].
    split; simpl.
    + unfold arena'. by rewrite length_insert.
    + done.
    + done.
    + rewrite length_app. simpl. lia.
    + intros u. specialize (Hseen u).
      destruct (visitedProfileNodesForCallUID v !! u) as [s|] eqn:Hs.
      * intros x. rewrite Hseen. split.
        -- intros (b & Hb & Hpb & Hcb). exists b. rewrite uid_from_snoc, Hb. done.
        -- intros (b & Hb & Hpb & Hcb). exists b. rewrite uid_from_snoc in Hb.
           destruct (uid_from 0 vis b) eqn:Hvb; [done|].
           case_bool_decide; [|done]. subst b. congruence.
      * intros o [Ho|Ho%list_elem_of_singleton]%elem_of_app; [by apply Hseen|].
        subst o. simpl. congruence.
    + rewrite filter_app, map_app, Hinfos.
      rewrite filter_cons_False by (simpl; congruence). by rewrite filter_nil, app_nil_r.
Qed.

End VisitNode.

(** ** Visiting the groups *)

Section VisitGroups.
Context {num : Type} `{JSNumber num}.
Implicit Types (t : tree num) (ts ks : list (tree num)) (arena : list (ProfileNode num)).
Implicit Types (anc : list nat) (vis : list (nat * list nat)) (q : list (list nat * nat * list (tree num))).

Lemma chains_fst anc b t : (chains anc b t).*1 = seq b (tree_size t).
Proof.
  revert anc b. induction t as [d ks IH] using tree_ind'. intros anc b.
  simpl. f_equal. fold (forest_size ks).
  generalize (anc ++ [b]) (S b). clear anc b.
  induction IH as [|k ks Hk _ IHks]; intros anc b; [done|].
  simpl. rewrite fmap_app, Hk, IHks, forest_size_cons, seq_app. done.
Qed.

Lemma pending_fst anc b ts : (pending (anc, b, ts)).*1 = seq b (forest_size ts).
Proof.
  unfold pending. simpl. revert b. induction ts as [|t ts IH]; intros b; [done|].
  simpl. rewrite fmap_app, chains_fst, IH, forest_size_cons, seq_app. done.
Qed.

Lemma pending_cons anc b t ts :
  pending (anc, b, t :: ts) =
  (b, anc) :: pending (anc ++ [b], S b, subtrees t) ++ pending (anc, b + tree_size t, ts).
Proof. by destruct t. Qed.

Lemma roots_entries (anc : list nat) b ts : (forest_with (λ a _, (a, anc)) b ts).*1 = roots b ts.
Proof. revert b. induction ts as [|t ts IH]; intros b; [done|]. simpl. by rewrite IH. Qed.

Lemma pending_split anc b ts :
  pending (anc, b, ts) ≡ₚ
  forest_with (λ a _, (a, anc)) b ts ++ concat (map pending (kid_groups anc b ts)).
Proof.
  revert b. induction ts as [|t ts IH]; intros b; [done|].
  rewrite pending_cons. simpl. constructor.
  rewrite map_app, concat_app, IH.
  assert (concat (map pending
            (if bool_decide (subtrees t = []) then []
             else [(anc ++ [b], S b, subtrees t)])) = pending (anc ++ [b], S b, subtrees t)) as ->.
  { case_bool_decide as E; simpl; [by rewrite E|by rewrite app_nil_r]. }
  by rewrite Permutation_app_swap_app.
Qed.

Lemma queue_cost_app q1 q2 : queue_cost (q1 ++ q2) = queue_cost q1 + queue_cost q2.
Proof. unfold queue_cost. by rewrite map_app, list_sum_app. Qed.

Lemma queue_cost_kid_groups anc b ts : queue_cost (kid_groups anc b ts) ≤ forest_size ts.
Proof.
  revert b. induction ts as [|[d ks] ts IH]; intros b; [done|].
  simpl. rewrite queue_cost_app, forest_size_cons. specialize (IH (b + S (forest_size ks))).
  simpl. fold (forest_size ks).
  case_bool_decide; unfold queue_cost at 1; simpl; lia.
Qed.

Lemma located_cons arena b t ts :
  located arena b (t :: ts) →
  arena !! b = Some (set_children (Some (roots (S b) (subtrees t))) (root_data t)) ∧
  located arena (S b) (subtrees t) ∧
  located arena (b + tree_size t) ts.
Proof.
  intros (pre & post & -> & Hpre). destruct t as [d ks].
  rewrite layouts_cons, layout_Node. simpl. split; [|split].
  - rewrite lookup_app_r by lia. by rewrite Hpre, Nat.sub_diag.
  - exists (pre ++ [set_children (Some (roots (S b) ks)) d]),
      (layouts (b + S (forest_size ks)) ts ++ post).
    rewrite <- !app_assoc. split; [done|]. rewrite length_app. simpl. lia.
  - exists (pre ++ set_children (Some (roots (S b) ks)) d :: layouts (S b) ks), post.
    rewrite <- !app_assoc. split; [done|].
    rewrite length_app. simpl. rewrite length_layouts. unfold forest_size. lia.
Qed.

Lemma visitNodes_spec (arena0 : list (ProfileNode num)) anc ts b v vis pushed :
  (∀ a n, arena0 !! a = Some n → UID n = None) →
  visit_inv arena0 v vis → located arena0 b ts →
  NoDup (vis.*1 ++ roots b ts) →
  (∀ x, x ∈ anc → x ∈ vis.*1) →
  ∃ v',
    foldl_result (visitNode anc) (v, pushed) (roots b ts) =
      Ok (v', pushed ++ map group_of (kid_groups anc b ts)) ∧
    visit_inv arena0 v' (vis ++ forest_with (λ a _, (a, anc)) b ts).
Proof.
  intros Hnone. revert b v vis pushed.
  induction ts as [|t ts IH]; intros b v vis pushed Hinv Hloc Hnd Hanc.
  { exists v. simpl. by rewrite !app_nil_r. }
  apply located_cons in Hloc as (Hb & Hkids & Hrest).
  simpl in Hnd.
  edestruct (visitNode_spec arena0 v vis anc pushed b) as (v1 & Hv1 & Hinv1); eauto.
  { apply NoDup_app in Hnd as (_ & Hnd & _). intros Hin. apply (Hnd _ Hin), list_elem_of_here. }
  edestruct (IH (b + tree_size t) v1 (vis ++ [(b, anc)])) as (v2 & Hv2 & Hinv2); eauto.
  { rewrite fmap_app. simpl. rewrite <- app_assoc. done. }
  { intros x Hx. rewrite fmap_app. apply elem_of_app. left. by apply Hanc. }
  exists v2. cbn [roots foldl_result]. rewrite Hv1. cbn [mbind Result_bind].
  split.
  - rewrite Hv2. f_equal. f_equal. simpl. rewrite map_app, app_assoc. f_equal.
    destruct t as [d ks]. simpl.
    destruct (decide (ks = [])) as [->|Hne].
    + by rewrite !bool_decide_true, app_nil_r.
    + rewrite !bool_decide_false; [done|done|by rewrite roots_nil_iff].
  - simpl. by rewrite <- app_assoc in Hinv2.
Qed.

Lemma chains_closed_app vis vis' :
  chains_closed vis →
  (∀ o, o ∈ vis' → ∀ b, b ∈ o.2 → b ∈ vis.*1) →
  chains_closed (vis ++ vis').
Proof.
  intros Hc Hnew i o Hi b Hb.
  destruct (decide (i < length vis)) as [Hlt|Hge].
  - rewrite lookup_app_l in Hi by done.
    destruct (Hc i o Hi b Hb) as (j & o' & Hj & Ho' & <-).
    exists j, o'. split; [done|]. split; [|done]. rewrite lookup_app_l by lia. done.
  - rewrite lookup_app_r in Hi by lia. apply list_elem_of_lookup_2 in Hi.
    specialize (Hnew o Hi b Hb). apply list_elem_of_fmap in Hnew as (o' & -> & Ho').
    apply list_elem_of_lookup_1 in Ho' as (j & Hj).
    exists j, o'. split; [apply lookup_lt_Some in Hj; lia|]. split; [|done].
    by apply lookup_app_l_Some.
Qed.

Lemma kid_groups_anc anc b ts g :
  g ∈ kid_groups anc b ts → ∃ a, a ∈ roots b ts ∧ g.1.1 = anc ++ [a].
Proof.
  revert b. induction ts as [|t ts IH]; intros b Hg; [by apply not_elem_of_nil in Hg|].
  simpl in Hg. apply elem_of_app in Hg as [Hg|Hg].
  - case_bool_decide; [by apply not_elem_of_nil in Hg|].
    apply list_elem_of_singleton in Hg as ->. exists b. split; [apply list_elem_of_here|done].
  - destruct (IH _ Hg) as (a & Ha & Hga). exists a. split; [|done].
    simpl. by apply list_elem_of_further.
Qed.

Lemma kid_groups_located arena anc b ts :
  located arena b ts → Forall (λ g, located arena g.1.2 g.2) (kid_groups anc b ts).
Proof.
  revert b. induction ts as [|t ts IH]; intros b Hloc; [constructor|].
  apply located_cons in Hloc as (_ & Hk & Hr). simpl.
  apply Forall_app. split; [|by apply IH].
  case_bool_decide; constructor; [done|constructor].
Qed.

Lemma visitGroups_spec (arena0 : list (ProfileNode num)) fuel q v vis :
  (∀ a n, arena0 !! a = Some n → UID n = None) →
  visit_inv arena0 v vis →
  Forall (λ g, located arena0 g.1.2 g.2) q →
  Forall (λ g, ∀ x, x ∈ g.1.1 → x ∈ vis.*1) q →
  NoDup ((vis ++ concat (map pending q)).*1) →
  chains_closed vis →
  queue_cost q < fuel →
  ∃ v' vis',
    visitGroups fuel v (map group_of q) = Ok v' ∧
    visit_inv arena0 v' (vis ++ vis') ∧
    vis' ≡ₚ concat (map pending q) ∧
    chains_closed (vis ++ vis').
Proof.
  intros Hnone. revert q v vis.
  induction fuel as [|fuel IH]; intros q v vis Hinv Hloc Hanc Hnd Hcl Hfuel; [lia|].
  destruct q as [|[[anc b] ts] q].
  { exists v, []. rewrite app_nil_r. done. }
  apply Forall_cons in Hloc as [Hloc Hlocq]. apply Forall_cons in Hanc as [Hanc Hancq].
  simpl in Hloc, Hanc.
  pose proof (pending_split anc b ts) as Hsplit.
  set (R := forest_with (λ a _, (a, anc)) b ts) in *.
  assert ((vis ++ concat (map pending ((anc, b, ts) :: q))) ≡ₚ
          (vis ++ R) ++ concat (map pending (q ++ kid_groups anc b ts))) as Hperm.
  { simpl. rewrite map_app, concat_app, Hsplit, <- !app_assoc.
    apply Permutation_app_head, Permutation_app_head, Permutation_app_comm. }
  edestruct (visitNodes_spec arena0 anc ts b v vis []) as (v1 & Hv1 & Hinv1); eauto.
  { rewrite Hperm, !fmap_app, <- app_assoc in Hnd. apply NoDup_app in Hnd as (Hn1 & Hn2 & Hn3).
    apply NoDup_app in Hn3 as (Hn3 & _ & _). unfold R in *. rewrite roots_entries in *.
    apply NoDup_app. split; [done|]. split; [|done].
    intros x Hx Hx'. apply (Hn2 x Hx). apply elem_of_app. by left. }
  destruct (IH (q ++ kid_groups anc b ts) v1 (vis ++ R)) as (v2 & vis2 & Hv2 & Hinv2 & Hp2 & Hcl2).
  - done.
  - apply Forall_app. split; [done|]. by apply kid_groups_located.
  - apply Forall_app. split.
    + eapply Forall_impl; [apply Hancq|]. simpl. intros g Hg x Hx.
      rewrite fmap_app. apply elem_of_app. left. by apply Hg.
    + apply Forall_forall. intros g Hg x Hx.
      apply kid_groups_anc in Hg as (a & Ha & Hga). rewrite Hga in Hx.
      rewrite fmap_app. apply elem_of_app in Hx as [Hx|Hx%list_elem_of_singleton].
      * apply elem_of_app. left. by apply Hanc.
      * subst x. apply elem_of_app. right. unfold R. by rewrite roots_entries.
  - by rewrite <- Hperm.
  - apply chains_closed_app; [done|]. intros o Ho x Hx. apply Hanc.
    unfold R in Ho. clear -Ho Hx. revert b Ho. induction ts as [|t ts IHts]; intros b Ho.
    + by apply not_elem_of_nil in Ho.
    + simpl in Ho. apply elem_of_cons in Ho as [->|Ho]; [done|]. by eapply IHts.
  - rewrite queue_cost_app. pose proof (queue_cost_kid_groups anc b ts).
    unfold queue_cost in *. simpl in *. lia.
  - exists v2, (R ++ vis2). cbn [map visitGroups group_of fst snd].
    rewrite Hv1. cbn [mbind Result_bind app]. rewrite <- map_app, Hv2.
    rewrite app_assoc. split; [done|]. split; [done|]. split; [|done].
    rewrite Hp2. simpl. rewrite Hsplit, map_app, concat_app, <- !app_assoc.
    apply Permutation_app_head, Permutation_app_comm.
Qed.

End VisitGroups.

(** ** What holds of every node of the tree *)

Section TreeNodes.
Context {num : Type} `{JSNumber num}.
Implicit Types (t : tree num) (ts ks : list (tree num)) (P : ProfileNode num → Prop).

Lemma Forall_concat_map {A B} (Q : B → Prop) (f : A → list B) (l : list A) :
  Forall (λ x, Forall Q (f x)) l → Forall Q (concat (map f l)).
Proof. induction 1; simpl; [constructor|]. apply Forall_app. done. Qed.

Lemma layout_all P b t :
  (∀ c d, P d → P (set_children c d)) →
  Forall P (preorder t) → Forall P (layout b t).
Proof.
  intros HP. revert b. induction t as [d ks IH] using tree_ind'. intros b Ht.
  simpl in Ht. apply Forall_cons in Ht as [Hd Hks].
  rewrite layout_Node. constructor; [by apply HP|].
  generalize (S b). clear b.
  induction IH as [|k ks Hk _ IHks]; intros b; [constructor|].
  simpl in Hks. apply Forall_app in Hks as [Hk' Hks].
  rewrite layouts_cons. apply Forall_app. split; [by apply Hk|by apply IHks].
Qed.

Lemma layouts_all P b ts :
  (∀ c d, P d → P (set_children c d)) →
  Forall (λ t, Forall P (preorder t)) ts → Forall P (layouts b ts).
Proof.
  intros HP Hts. revert b. induction Hts as [|t ts Ht _ IH]; intros b; [constructor|].
  rewrite layouts_cons. apply Forall_app. split; [by apply layout_all|apply IH].
Qed.

Lemma with_totals_all P t :
  (∀ x d, P d → P (set_totalTime x d)) →
  Forall P (preorder t) → Forall P (preorder (with_totals t)).
Proof.
  intros HP. induction t as [d ks IH] using tree_ind'. intros Ht.
  simpl in Ht. apply Forall_cons in Ht as [Hd Hks].
  simpl. constructor; [by apply HP|].
  induction IH as [|k ks Hk _ IHks]; [constructor|].
  simpl in Hks. apply Forall_app in Hks as [Hk' Hks].
  simpl. apply Forall_app. split; [by apply Hk|by apply IHks].
Qed.

Lemma stamp_all P par dp b t :
  (∀ x y d, P d → P (set_depth_parent x y d)) →
  Forall P (preorder t) → Forall P (preorder (stamp par dp b t)).
Proof.
  intros HP. revert par dp b. induction t as [d ks IH] using tree_ind'. intros par dp b Ht.
  simpl in Ht. apply Forall_cons in Ht as [Hd Hks].
  simpl. constructor; [by apply HP|].
  generalize (S b) (dp + 1)%Z. generalize b. clear par dp b.
  induction IH as [|k ks Hk _ IHks]; intros par b dp; [constructor|].
  simpl in Hks. apply Forall_app in Hks as [Hk' Hks].
  simpl. apply Forall_app. split; [by apply Hk|by apply IHks].
Qed.

Lemma stamp_parents par dp b t :
  Forall (λ d, is_Some (parent d)) (preorder (stamp par dp b t)).
Proof.
  revert par dp b. induction t as [d ks IH] using tree_ind'. intros par dp b.
  simpl. constructor; [by eexists|].
  generalize (S b) (dp + 1)%Z. generalize b. clear par dp b.
  induction IH as [|k ks Hk _ IHks]; intros par b dp; [constructor|].
  simpl. apply Forall_app. split; [by apply Hk|by apply IHks].
Qed.

Lemma forest_stamp_all P par dp b ks :
  (∀ x y d, P d → P (set_depth_parent x y d)) →
  Forall P (concat (map preorder ks)) →
  Forall (λ t, Forall P (preorder t)) (forest_with (stamp par dp) b ks).
Proof.
  intros HP. revert b. induction ks as [|k ks IH]; intros b Hks; [constructor|].
  simpl in Hks. apply Forall_app in Hks as [Hk Hks].
  simpl. constructor; [by apply stamp_all|by apply IH].
Qed.

Lemma forest_stamp_parents par dp b ks :
  Forall (λ t, Forall (λ d, is_Some (parent d)) (preorder t)) (forest_with (stamp par dp) b ks).
Proof.
  revert b. induction ks as [|k ks IH]; intros b; [constructor|].
  simpl. constructor; [apply stamp_parents|apply IH].
Qed.

Lemma expand_all P d idmap flat src r :
  (∀ x node, P (set_selfTime x (cloneWithoutChildren node))) →
  expand d idmap flat src = Some r → Forall (λ t, Forall P (preorder t)) r.1.
Proof.
  intros HP. revert src r. induction d as [|d IH]; intros src r He; [done|].
  simpl in He. destruct src as [src|]; [|done]. simpl in He.
  destruct (flat !! src) as [node|]; [|done]. simpl in He.
  destruct (mapM _ _) as [rs|] eqn:Hrs; [|done]. simpl in He.
  assert (Forall (λ t, Forall P (preorder t)) (concat rs.*1)) as Hall.
  { apply mapM_Some_1 in Hrs. clear He.
    induction Hrs as [|c r' cs rs' Hc _ IHrs]; [constructor|].
    simpl. apply Forall_app. split; [by eapply IH|done]. }
  destruct (isNativeNode node); simpl in He; injection He as <-; simpl; [done|].
  constructor; [|constructor]. simpl. constructor; [apply HP|].
  by apply Forall_concat_map.
Qed.

Lemma built_tree_all P d p t :
  (∀ x node, P (set_selfTime x (cloneWithoutChildren node))) →
  built_tree d p = Some t → Forall P (preorder t).
Proof.
  intros HP Hb. unfold built_tree in Hb.
  destruct (nodes p !! 0) as [root|]; [|done]. simpl in Hb.
  destruct (children root) as [cs|]; [|done]. simpl in Hb.
  destruct (mapM _ _) as [rs|] eqn:Hrs; [|done]. simpl in Hb. injection Hb as <-.
  simpl. constructor; [apply HP|]. apply Forall_concat_map.
  apply mapM_Some_1 in Hrs.
  induction Hrs as [|c r' cs' rs' Hc _ IHrs]; [constructor|].
  simpl. apply Forall_app. split; [by eapply expand_all|done].
Qed.

Lemma spec_tree_UID d p t a n :
  spec_tree d p = Some t → layout 0 t !! a = Some n → UID n = None.
Proof.
  intros Hs Ha. unfold spec_tree in Hs.
  destruct (built_tree d p) as [t1|] eqn:Hb; [|done]. simpl in Hs. injection Hs as <-.
  apply (built_tree_all (λ d, UID d = None)) in Hb; [|done].
  apply (with_totals_all (λ d, UID d = None)) in Hb; [|done].
  destruct (with_totals t1) as [d1 ks1]. simpl in Hb. apply Forall_cons in Hb as [Hd Hks].
  unfold stamp_root in Ha. rewrite layout_Node in Ha.
  destruct a as [|a]; simpl in Ha; [by injection Ha as <-|].
  apply list_elem_of_lookup_2 in Ha. revert n Ha. apply Forall_forall.
  apply (layouts_all (λ d, UID d = None)); [done|].
  by apply (forest_stamp_all (λ d, UID d = None)).
Qed.

Lemma spec_tree_parent d p t a n :
  spec_tree d p = Some t → layout 0 t !! a = Some n → is_Some (parent n) ↔ a ≠ 0.
Proof.
  intros Hs Ha. unfold spec_tree in Hs.
  destruct (built_tree d p) as [t1|] eqn:Hb; [|done]. simpl in Hs. injection Hs as <-.
  destruct (with_totals t1) as [d1 ks1].
  unfold stamp_root in Ha. rewrite layout_Node in Ha.
  destruct a as [|a]; simpl in Ha.
  { injection Ha as <-. simpl. split; [by intros [? ?]|done]. }
  split; [done|intros _].
  apply list_elem_of_lookup_2 in Ha. revert n Ha. apply Forall_forall.
  apply (layouts_all (λ d, is_Some (parent d))); [done|].
  apply forest_stamp_parents.
Qed.

End TreeNodes.

(** ** [remainingNodeInfos] *)

Section RemainingNodeInfos.
Context {num : Type} `{JSNumber num}.
Implicit Types (t : tree num) (p : Profile num).

Lemma has_parent_spec_tree d p t a :
  spec_tree d p = Some t → a < tree_size t →
  has_parent (layout 0 t) a = bool_decide (a ≠ 0).
Proof.
  intros Hs Ha. rewrite <- (length_layout 0) in Ha.
  apply lookup_lt_is_Some in Ha as [n Hn].
  pose proof (spec_tree_parent d p t a n Hs Hn) as Hp.
  unfold has_parent. rewrite Hn. simpl. by apply bool_decide_ext.
Qed.

Lemma filter_all {A} (P : A → Prop) `{∀ x, Decision (P x)} (l : list A) :
  Forall P l → filter P l = l.
Proof. induction 1; [done|]. rewrite filter_cons_True by done. by f_equal. Qed.

(** The traversal ids are the positions in the order of the visits. *)
Lemma remainingNodeInfos_visit d p t :
  has_children (nodes p) → spec_tree d p = Some t →
  ∃ n, ∀ fuel, n ≤ fuel →
    ∃ arena order,
      remainingNodeInfos fuel p = Ok (p, arena, map (info_of (layout 0 t)) order) ∧
      (0, []) :: order ≡ₚ chains [] 0 t ∧
      chains_closed ((0, []) :: order) ∧
      length arena = tree_size t ∧
      (∀ a n, layout 0 t !! a = Some n →
         arena !! a = Some (set_UID (uid_from 0 ((0, []) :: order) a) n)).
Proof.
  intros Hflat Hs.
  destruct (translatedRoot_spec d p t Hflat Hs) as [n1 H1].
  exists (n1 + S (S (tree_size t))). intros fuel Hfuel.
  unfold remainingNodeInfos. rewrite H1 by lia. cbn [mbind Result_bind].
  set (arena0 := layout 0 t).
  set (v0 := {| v_arena := arena0; profileNodeUIDs := 0;
                visitedProfileNodesForCallUID := ∅; v_infos := [] |}).
  assert (∀ a n, arena0 !! a = Some n → UID n = None) as Hnone
    by (intros a n; by apply (spec_tree_UID d p t)).
  assert (visit_inv arena0 v0 []) as Hinv0.
  { split; simpl.
    - done.
    - intros a n Hn. rewrite Hn. f_equal. rewrite <- (Hnone a n Hn). by rewrite set_UID_id.
    - intros o Ho. by apply not_elem_of_nil in Ho.
    - done.
    - intros u. rewrite lookup_empty. intros o Ho. by apply not_elem_of_nil in Ho.
    - done. }
  assert (located arena0 0 [t]) as Hloc.
  { exists [], []. rewrite layouts_cons, layouts_nil, !app_nil_r. done. }
  destruct (visitNodes_spec arena0 [] [t] 0 v0 [] []) as (v1 & Hv1 & Hinv1); try done.
  { simpl. apply NoDup_singleton. }
  change (roots 0 [t]) with [0] in Hv1. rewrite app_nil_l in Hv1.
  change (visit_inv arena0 v1 [(0, [])]) in Hinv1.
  pose proof (pending_split [] 0 [t]) as Hsplit.
  unfold pending at 1 in Hsplit. simpl in Hsplit. rewrite app_nil_r in Hsplit.
  assert (NoDup ((chains [] 0 t).*1)) as Hnd by (rewrite chains_fst; apply NoDup_seq).
  destruct (visitGroups_spec arena0 (fuel - 1) (kid_groups [] 0 [t]) v1 [(0, [])])
    as (v2 & vis & Hv2 & Hinv2 & Hp2 & Hcl2); try done.
  - by apply kid_groups_located.
  - apply Forall_forall. intros g Hg x Hx.
    apply kid_groups_anc in Hg as (a & Ha & Hga). rewrite Hga in Hx.
    simpl in Ha. apply list_elem_of_singleton in Ha as ->.
    simpl in Hx. apply list_elem_of_singleton in Hx as ->. apply list_elem_of_here.
  - rewrite Hsplit in Hnd. done.
  - intros i o Hi b Hb. destruct i; simpl in Hi; [|done].
    injection Hi as <-. by apply not_elem_of_nil in Hb.
  - pose proof (queue_cost_kid_groups [] 0 [t]) as Hc. rewrite forest_size_cons in Hc.
    change (forest_size []) with 0 in Hc. lia.
  - exists (v_arena v2), vis.
    replace fuel with (S (fuel - 1)) at 1 by lia.
    cbn [visitGroups]. rewrite Hv1. cbn [mbind Result_bind app].
    rewrite Hv2. cbn [mbind Result_bind].
    assert ((0, []) :: vis ≡ₚ chains [] 0 t) as Hperm by (by rewrite Hsplit, Hp2).
    split; [|split; [done|split; [done|split]]].
    + f_equal. f_equal. rewrite (inv_infos _ _ _ Hinv2).
      f_equal. simpl.
      rewrite filter_cons_False; cycle 1.
      { rewrite (has_parent_spec_tree d p t) by (done || destruct t; simpl; lia).
        by rewrite bool_decide_false by (intros ?; done). }
      apply filter_all, Forall_forall. intros o Ho.
      assert (o.1 ∈ (chains [] 0 t).*1) as Hin.
      { rewrite <- Hperm. apply list_elem_of_fmap. exists o. split; [done|].
        by apply list_elem_of_further. }
      rewrite chains_fst, elem_of_seq in Hin.
      rewrite (has_parent_spec_tree d p t) by (done || lia).
      apply bool_decide_eq_true. intros Ho0.
      rewrite <- Hperm in Hnd. simpl in Hnd. apply NoDup_cons in Hnd as [Hnd _].
      apply Hnd. rewrite <- Ho0. apply list_elem_of_fmap. eauto.
    + rewrite (inv_length _ _ _ Hinv2). apply length_layout.
    + intros a n Hn. by rewrite (inv_arena _ _ _ Hinv2 a n Hn).
Qed.

Theorem remainingNodeInfos_spec d p t :
  has_children (nodes p) → spec_tree d p = Some t →
  ∃ n, ∀ fuel, n ≤ fuel →
    ∃ arena order,
      remainingNodeInfos fuel p = Ok (p, arena, map (info_of (layout 0 t)) order) ∧
      (0, []) :: order ≡ₚ chains [] 0 t ∧
      chains_closed ((0, []) :: order) ∧
      length arena = tree_size t ∧
      (∀ a n, layout 0 t !! a = Some n → ∃ u, arena !! a = Some (set_UID u n)).
Proof.
  intros Hflat Hs. destruct (remainingNodeInfos_visit d p t Hflat Hs) as [n Hn].
  exists n. intros fuel Hfuel.
  destruct (Hn fuel Hfuel) as (arena & order & Hr & Hperm & Hcl & Hlen & Har).
  exists arena, order. repeat split; try done. intros a node Ha. eauto.
Qed.

End RemainingNodeInfos.

(** ** [bottomUpNodes]: the merge *)

Section Merge.
Context {num : Type} `{JSNumber num}.
Implicit Types (records : list (ProfileNode num)) (occ : list (ProfileNode num * bool)).

Lemma first_seen_snoc l u :
  first_seen (l ++ [u]) =
  if bool_decide (u ∈ first_seen l) then first_seen l else first_seen l ++ [u].
Proof. unfold first_seen. by rewrite fold_left_app. Qed.

Lemma elem_of_first_seen l u : u ∈ first_seen l ↔ u ∈ l.
Proof.
  induction l as [|v l IH] using rev_ind.
  - done.
  - rewrite first_seen_snoc, elem_of_app, list_elem_of_singleton, <- IH.
    case_bool_decide; [|rewrite elem_of_app, list_elem_of_singleton; tauto].
    split; [tauto|]. intros [?| ->]; done.
Qed.

Lemma NoDup_first_seen l : NoDup (first_seen l).
Proof.
  induction l as [|v l IH] using rev_ind; [constructor|].
  rewrite first_seen_snoc. case_bool_decide; [done|].
  apply NoDup_app. split; [done|]. split; [|apply NoDup_singleton].
  intros x Hx ->%list_elem_of_singleton. done.
Qed.

Lemma foldl_result_snoc {A B} (f : A → B → Result A) a l x :
  foldl_result f a (l ++ [x]) = (foldl_result f a l ≫= λ a', f a' x).
Proof.
  revert a. induction l as [|y l IH]; intros a; simpl.
  - by destruct (f a x).
  - destruct (f a y); simpl; [apply IH|done|done].
Qed.

Lemma find_last_Some {A} (f : A → bool) (l : list A) i :
  find_last f l = Some i → ∃ x, l !! i = Some x ∧ f x = true.
Proof.
  revert i. induction l as [|y l IH]; intros i; simpl; [done|].
  destruct (find_last f l) as [j|].
  - intros [= <-]. by apply IH.
  - destruct (f y) eqn:Hy; [|done]. intros [= <-]. by exists y.
Qed.

Lemma find_last_None {A} (f : A → bool) (l : list A) :
  find_last f l = None → Forall (λ x, f x = false) l.
Proof.
  induction l as [|y l IH]; simpl; [constructor|].
  destruct (find_last f l) as [j|]; [done|].
  destruct (f y) eqn:Hy; [done|]. intros _. constructor; [done|by apply IH].
Qed.

Lemma group_record_snoc g r n f :
  group_record g = Some r →
  group_record (g ++ [(n, f)]) =
  Some (let r' := set_selfTime (num_add (selfTime r) (selfTime n)) r in
        if f then r' else set_totalTime (num_add (totalTime r') (totalTime n)) r').
Proof.
  destruct g as [|[n0 f0] rest]; [done|]. simpl. intros [= <-]. f_equal.
  rewrite filter_app, !fmap_app, !fold_left_app. simpl.
  destruct f; simpl; [reflexivity|].
  rewrite ?fmap_app, ?fold_left_app. reflexivity.
Qed.

Lemma occurrences_of_snoc u occ o :
  occurrences_of u (occ ++ [o]) =
  occurrences_of u occ ++ (if bool_decide (callUID o.1 = u) then [o] else []).
Proof.
  unfold occurrences_of. rewrite filter_app. f_equal.
  case_bool_decide; [by rewrite filter_cons_True|by rewrite filter_cons_False].
Qed.

Lemma occurrences_of_nil u occ : u ∉ callUID <$> occ.*1 → occurrences_of u occ = [].
Proof.
  intros Hu. induction occ as [|o occ IH]; [done|].
  simpl in Hu. apply not_elem_of_cons in Hu as [Hne Hu].
  unfold occurrences_of. rewrite filter_cons_False by done. by apply IH.
Qed.

Lemma merge_step arena records occ info n f :
  Forall (λ o, callUID o.1 = render_callUID (callFrame o.1)) (occ ++ [(n, f)]) →
  merged records occ →
  ancestor info = focusNode info → totalAccountedFor info = f →
  (∃ u, arena !! focusNode info = Some (set_UID u n)) →
  ∃ records', mergeInfo arena records info = Ok records' ∧ merged records' (occ ++ [(n, f)]).
Proof.
  intros Hrender [Hkeys Hrecs] Hanc Hflag [u Hn].
  unfold mergeInfo. rewrite Hanc, Hn. cbn [mbind Result_bind defined].
  change (callUID (set_UID u n)) with (callUID n).
  destruct (find_last _ records) as [i|] eqn:Hfind.
  - (* the call site has a record *)
    apply find_last_Some in Hfind as (r & Hi & Hr). apply String.eqb_eq in Hr.
    rewrite Hi, Hflag. cbn [mbind Result_bind defined].
    eexists. split; [reflexivity|].
    assert (callUID n ∈ first_seen (callUID <$> occ.*1)) as Hin.
    { rewrite <- Hkeys, <- Hr. apply list_elem_of_fmap. exists r. split; [done|].
      by eapply list_elem_of_lookup_2. }
    split.
    + rewrite list_fmap_insert, !fmap_app. simpl. rewrite first_seen_snoc.
      rewrite bool_decide_true by done. rewrite <- Hkeys.
      apply list_insert_id. rewrite list_lookup_fmap, Hi. simpl. by destruct f.
    + assert (NoDup (callUID <$> records)) as Hnd by (rewrite Hkeys; apply NoDup_first_seen).
      apply Forall_lookup_2. intros j r' Hj.
      destruct (decide (i = j)) as [<-|Hne].
      * rewrite list_lookup_insert_eq in Hj by (eapply lookup_lt_Some; eauto).
        injection Hj as <-.
        rewrite Forall_lookup in Hrecs. specialize (Hrecs _ _ Hi).
        replace (callUID (if f then _ else _)) with (callUID r) by (by destruct f).
        rewrite occurrences_of_snoc. simpl. rewrite bool_decide_true by done.
        rewrite Hr in Hrecs |- *. rewrite (group_record_snoc _ r) by done.
        by destruct f.
      * rewrite list_lookup_insert_ne in Hj by done.
        rewrite Forall_lookup in Hrecs. specialize (Hrecs _ _ Hj) as Hr'.
        rewrite occurrences_of_snoc. simpl. rewrite bool_decide_false, app_nil_r; [done|].
        intros Heq. apply Hne. eapply NoDup_lookup; [apply Hnd| |].
        -- rewrite list_lookup_fmap, Hi. simpl. reflexivity.
        -- rewrite list_lookup_fmap, Hj. simpl. congruence.
  - (* a new record *)
    apply find_last_None in Hfind.
    eexists. split; [reflexivity|].
    rewrite bool_decide_true by done.
    assert (callUID n ∉ first_seen (callUID <$> occ.*1)) as Hnin.
    { rewrite <- Hkeys. intros (r & Hr & Hin)%list_elem_of_fmap.
      rewrite Forall_forall in Hfind. specialize (Hfind r Hin).
      apply String.eqb_neq in Hfind. congruence. }
    assert (render_callUID (callFrame n) = callUID n) as Hclone.
    { apply Forall_app in Hrender as [_ Hn']. by apply Forall_cons in Hn' as [Hn' _]. }
    split.
    + rewrite !fmap_app. simpl. rewrite first_seen_snoc, bool_decide_false by done.
      by rewrite Hkeys, Hclone.
    + apply Forall_app. split.
      * apply Forall_forall. intros r Hin.
        rewrite Forall_forall in Hrecs. specialize (Hrecs r Hin).
        rewrite occurrences_of_snoc. simpl. rewrite bool_decide_false, app_nil_r; [done|].
        intros Heq. apply Hnin. rewrite <- Hkeys, Heq.
        apply list_elem_of_fmap. eauto.
      * constructor; [|constructor].
        change (callUID (clone (set_UID u n))) with (render_callUID (callFrame n)).
        rewrite Hclone, occurrences_of_snoc. simpl.
        rewrite bool_decide_true by done.
        rewrite occurrences_of_nil by (by rewrite <- elem_of_first_seen).
        reflexivity.
Qed.

Lemma merge_fold arena infos occ :
  Forall (λ o, callUID o.1 = render_callUID (callFrame o.1)) occ →
  visits arena infos occ →
  ∃ records, foldl_result (mergeInfo arena) [] infos = Ok records ∧ merged records occ.
Proof.
  revert infos. induction occ as [|[n f] occ IH] using rev_ind; intros infos Hrender Hv.
  { apply Forall2_nil_inv_r in Hv as ->. exists []. split; [done|]. split; [done|constructor]. }
  apply Forall2_app_inv_r in Hv as (infos' & last & Hv' & Hlast & ->).
  apply Forall2_cons_inv_r in Hlast as (info & ? & (Hanc & Hflag & Hn) & ->%Forall2_nil_inv_r & ->).
  destruct (IH infos') as (records & Hfold & Hm); [by apply Forall_app in Hrender as [? _]|done|].
  destruct (merge_step arena records occ info n f) as (records' & Hstep & Hm'); try done.
  exists records'. split; [|done].
  by rewrite foldl_result_snoc, Hfold.
Qed.

Lemma spec_tree_all (P : ProfileNode num → Prop) d p t a n :
  (∀ x node, P (set_selfTime x (cloneWithoutChildren node))) →
  (∀ c m, P m → P (set_children c m)) →
  (∀ x m, P m → P (set_totalTime x m)) →
  (∀ x y m, P m → P (set_depth_parent x y m)) →
  spec_tree d p = Some t → layout 0 t !! a = Some n → P n.
Proof.
  intros HP Hc Ht Hd Hs Ha. unfold spec_tree in Hs.
  destruct (built_tree d p) as [t1|] eqn:Hb; [|done]. simpl in Hs. injection Hs as <-.
  apply (built_tree_all P) in Hb; [|done].
  apply (with_totals_all P) in Hb; [|done].
  destruct (with_totals t1) as [d1 ks1]. simpl in Hb. apply Forall_cons in Hb as [Hd1 Hks].
  unfold stamp_root in Ha. rewrite layout_Node in Ha.
  destruct a as [|a]; simpl in Ha; [injection Ha as <-; by apply Hc, Hd|].
  apply list_elem_of_lookup_2 in Ha. revert n Ha. apply Forall_forall.
  apply (layouts_all P); [done|]. by apply (forest_stamp_all P).
Qed.

(** The occurrences the entries of [order] stand for. *)
Lemma occurrences_exist (arena0 : list (ProfileNode num)) (order : list (nat * list nat)) :
  Forall (λ o, o.1 < length arena0) order →
  ∃ occ, Forall2 (λ o oc, arena0 !! o.1 = Some oc.1 ∧ oc.2 = accounted arena0 o.1 o.2)
           order occ.
Proof.
  induction 1 as [|o order Ho _ [occ IH]]; [by exists []|].
  apply lookup_lt_is_Some in Ho as [n Hn].
  exists ((n, accounted arena0 o.1 o.2) :: occ). by constructor.
Qed.

Theorem bottomUpNodes_spec d p t :
  has_children (nodes p) → spec_tree d p = Some t →
  ∃ n, ∀ fuel, n ≤ fuel →
    ∃ arena order occ records,
      remainingNodeInfos fuel p = Ok (p, arena, map (info_of (layout 0 t)) order) ∧
      bottomUpNodes fuel p = Ok (p, records) ∧
      (0, []) :: order ≡ₚ chains [] 0 t ∧
      chains_closed ((0, []) :: order) ∧
      Forall2 (λ o oc, layout 0 t !! o.1 = Some oc.1 ∧
                       oc.2 = accounted (layout 0 t) o.1 o.2) order occ ∧
      merged records occ.
Proof.
  intros Hflat Hs.
  destruct (remainingNodeInfos_spec d p t Hflat Hs) as [n Hn].
  exists n. intros fuel Hfuel.
  destruct (Hn fuel Hfuel) as (arena & order & Hrem & Hperm & Hcl & Hlen & Har).
  destruct (occurrences_exist (layout 0 t) order) as [occ Hocc].
  { apply Forall_forall. intros o Ho.
    assert (o.1 ∈ (chains [] 0 t).*1) as Hin.
    { rewrite <- Hperm. apply list_elem_of_fmap. exists o. split; [done|].
      by apply list_elem_of_further. }
    rewrite chains_fst, elem_of_seq in Hin. rewrite length_layout. lia. }
  destruct (merge_fold arena (map (info_of (layout 0 t)) order) occ) as (records & Hfold & Hm).
  - apply Forall_forall. intros oc Hoc.
    apply list_elem_of_lookup_1 in Hoc as (i & Hi).
    destruct (Forall2_lookup_r _ _ _ _ _ Hocc Hi) as (o & _ & Ho & _).
    apply (spec_tree_all (λ m, callUID m = render_callUID (callFrame m)) d p t o.1); done.
  - unfold visits. apply Forall2_fmap_l.
    eapply Forall2_impl; [apply Hocc|]. simpl. intros o oc [Ho Hf].
    split; [done|]. split; [done|]. by apply Har.
  - exists arena, order, occ, records. split; [done|]. split; [|done].
    unfold bottomUpNodes. rewrite Hrem. cbn [mbind Result_bind]. by rewrite Hfold.
Qed.

End Merge.

(** ** More fuel changes no answer *)

Section Fuel.
Context {num : Type} `{JSNumber num}.

Lemma bind_Ok {A B} (r : Result A) (k : A → Result B) b :
  r ≫= k = Ok b → ∃ a, r = Ok a ∧ k a = Ok b.
Proof. destruct r; simpl; [eauto|done|done]. Qed.

Lemma defined_Ok {A} (o : option A) a : defined o = Ok a → o = Some a.
Proof. destruct o; simpl; congruence. Qed.

Lemma foldl_result_mono {A B} (f g : A → B → Result A) a l r :
  (∀ a x r, f a x = Ok r → g a x = Ok r) →
  foldl_result f a l = Ok r → foldl_result g a l = Ok r.
Proof.
  intros Hfg. revert a. induction l as [|x l IH]; intros a; simpl; [done|].
  intros (a' & Ha' & Hr)%bind_Ok. rewrite (Hfg _ _ _ Ha'). simpl. by apply IH.
Qed.

Lemma walkPairs_mono n m idmap (flat arena : list (ProfileNode num)) pairs r :
  walkPairs n idmap flat arena pairs = Ok r → n ≤ m →
  walkPairs m idmap flat arena pairs = Ok r.
Proof.
  revert m flat arena pairs. induction n as [|n IH]; intros m flat arena pairs Hr Hm; [done|].
  destruct m as [|m]; [lia|]. simpl in *.
  destruct pairs as [|[parentNode sourceNode] pairs]; [done|].
  destruct (defined sourceNode) as [src| |]; simpl in *; try done.
  destruct (defined (flat !! src)) as [node| |]; simpl in *; try done.
  destruct (children node); simpl in *.
  - destruct (isNativeNode node); simpl in *.
    + destruct (add_selfTime _ _ _); simpl in *; try done. apply IH; [done|lia].
    + destruct (push_child _ _ _); simpl in *; try done. apply IH; [done|lia].
  - destruct (isNativeNode _); simpl in *.
    + destruct (add_selfTime _ _ _); simpl in *; try done. apply IH; [done|lia].
    + destruct (push_child _ _ _); simpl in *; try done. apply IH; [done|lia].
Qed.

Lemma sumTotal_mono n m (arena : list (ProfileNode num)) node r :
  sumTotal n arena node = Ok r → n ≤ m → sumTotal m arena node = Ok r.
Proof.
  revert m arena node r. induction n as [|n IH]; intros m arena node r Hr Hm; [done|].
  destruct m as [|m]; [lia|]. cbn [sumTotal] in *.
  apply bind_Ok in Hr as (nd & -> & Hr). cbn [mbind Result_bind].
  apply bind_Ok in Hr as (cs & -> & Hr). cbn [mbind Result_bind].
  apply bind_Ok in Hr as ([acc arena'] & Hfold & Hr).
  rewrite (foldl_result_mono (sumChild (sumTotal n)) (sumChild (sumTotal m)) _ _ _
             ltac:(intros [acc0 ar0] c r0; unfold sumChild;
                   intros ([t ar1] & Hs & Hr0)%bind_Ok;
                   by rewrite (IH m ar0 c _ Hs) by lia) Hfold).
  exact Hr.
Qed.

Lemma assignDepths_mono n m (arena : list (ProfileNode num)) stack r :
  assignDepths n arena stack = Ok r → n ≤ m → assignDepths m arena stack = Ok r.
Proof.
  revert m arena stack. induction n as [|n IH]; intros m arena stack Hr Hm; [done|].
  destruct m as [|m]; [lia|]. cbn [assignDepths] in *.
  destruct stack as [|parentNode stack]; [done|].
  apply bind_Ok in Hr as (pn & -> & Hr). cbn [mbind Result_bind].
  apply bind_Ok in Hr as (cs & -> & Hr). cbn [mbind Result_bind].
  apply bind_Ok in Hr as ([arena' pushed] & -> & Hr). cbn [mbind Result_bind].
  apply IH; [done|lia].
Qed.

Lemma visitGroups_mono n m (v : Visit num) groups r :
  visitGroups n v groups = Ok r → n ≤ m → visitGroups m v groups = Ok r.
Proof.
  revert m v groups. induction n as [|n IH]; intros m v groups Hr Hm; [done|].
  destruct m as [|m]; [lia|]. cbn [visitGroups] in *.
  destruct groups as [|[parents nodes] groups]; [done|].
  apply bind_Ok in Hr as ([v' pushed] & -> & Hr). cbn [mbind Result_bind].
  apply IH; [done|lia].
Qed.

Lemma translatedRoot_mono n m (p : Profile num) r :
  translatedRoot n p = Ok r → n ≤ m → translatedRoot m p = Ok r.
Proof.
  unfold translatedRoot. intros Hr Hm.
  apply bind_Ok in Hr as (root & -> & Hr). cbn [mbind Result_bind].
  apply bind_Ok in Hr as (cs & -> & Hr). cbn [mbind Result_bind].
  apply bind_Ok in Hr as ([flat arena] & Hw & Hr).
  rewrite (walkPairs_mono _ m _ _ _ _ _ Hw Hm). cbn [mbind Result_bind].
  apply bind_Ok in Hr as ([tot arena1] & Hs & Hr).
  rewrite (sumTotal_mono _ m _ _ _ Hs Hm). cbn [mbind Result_bind].
  apply bind_Ok in Hr as (r0 & -> & Hr). cbn [mbind Result_bind].
  apply bind_Ok in Hr as (arena2 & Hd & Hr).
  rewrite (assignDepths_mono _ m _ _ _ Hd Hm). done.
Qed.

Lemma remainingNodeInfos_mono n m (p : Profile num) r :
  remainingNodeInfos n p = Ok r → n ≤ m → remainingNodeInfos m p = Ok r.
Proof.
  unfold remainingNodeInfos. intros Hr Hm.
  apply bind_Ok in Hr as ([p' arena] & Ht & Hr).
  rewrite (translatedRoot_mono _ m _ _ Ht Hm). cbn [mbind Result_bind].
  apply bind_Ok in Hr as (v & Hv & Hr).
  rewrite (visitGroups_mono _ m _ _ _ Hv Hm). done.
Qed.

Lemma bottomUpNodes_mono n m (p : Profile num) r :
  bottomUpNodes n p = Ok r → n ≤ m → bottomUpNodes m p = Ok r.
Proof.
  unfold bottomUpNodes. intros Hr Hm.
  apply bind_Ok in Hr as ([[p' arena] infos] & Ht & Hr).
  rewrite (remainingNodeInfos_mono _ m _ _ Ht Hm). done.
Qed.

Lemma formattedBottomUpProfile_mono n m (p : Profile num) r :
  formattedBottomUpProfile n p = Ok r → n ≤ m → formattedBottomUpProfile m p = Ok r.
Proof.
  unfold formattedBottomUpProfile. intros Hr Hm.
  apply bind_Ok in Hr as ([p' records] & Ht & Hr).
  rewrite (bottomUpNodes_mono _ m _ _ Ht Hm). done.
Qed.

End Fuel.

(** ** The flat nodes are left as they are *)

Section Frame.
Context {num : Type} `{JSNumber num}.

Lemma walkPairs_flat n idmap (flat arena : list (ProfileNode num)) pairs flat' arena' :
  has_children flat →
  walkPairs n idmap flat arena pairs = Ok (flat', arena') → flat' = flat.
Proof.
  intros Hflat. revert arena pairs.
  induction n as [|n IH]; intros arena pairs Hr; [done|].
  simpl in Hr. destruct pairs as [|[parentNode sourceNode] pairs]; [by injection Hr as <- _|].
  apply bind_Ok in Hr as (src & Hsrc & Hr).
  apply bind_Ok in Hr as (node & Hnode%defined_Ok & Hr).
  assert (is_Some (children node)) as [cs Hcs].
  { eapply Forall_lookup_1 in Hflat; eauto. }
  rewrite Hcs in Hr. simpl in Hr.
  destruct (isNativeNode node); simpl in Hr.
  - apply bind_Ok in Hr as (arena1 & _ & Hr). by eapply IH.
  - apply bind_Ok in Hr as (arena1 & _ & Hr). by eapply IH.
Qed.

Lemma translatedRoot_profile n (p p' : Profile num) arena :
  has_children (nodes p) → translatedRoot n p = Ok (p', arena) → p' = p.
Proof.
  intros Hflat Hr. unfold translatedRoot in Hr.
  apply bind_Ok in Hr as (root & _ & Hr).
  apply bind_Ok in Hr as (cs & _ & Hr).
  apply bind_Ok in Hr as ([flat arena0] & Hw & Hr).
  apply walkPairs_flat in Hw as ->; [|done].
  apply bind_Ok in Hr as ([tot arena1] & _ & Hr).
  apply bind_Ok in Hr as (r0 & _ & Hr).
  apply bind_Ok in Hr as (arena2 & _ & Hr).
  injection Hr as <- _. apply set_nodes_id.
Qed.

Lemma has_children_createFromObject (obj : RawProfile num) :
  has_children (nodes (createFromObject obj)).
Proof.
  unfold createFromObject. rewrite nodes_new_Profile.
  apply Forall_forall. intros n (n0 & -> & Hn0)%list_elem_of_fmap.
  apply list_elem_of_fmap in Hn0 as (raw & -> & _).
  simpl. destruct (String.eqb _ _); simpl; eauto.
Qed.

End Frame.

(** ** The cells of the arena *)

Section CellFacts.
Context {num : Type} `{JSNumber num}.
Implicit Types (t s : tree num) (ts ks : list (tree num)) (Q : tree num → Prop).

Lemma all_sub_Node Q d ks : all_sub Q (Node d ks) ↔ Q (Node d ks) ∧ Forall (all_sub Q) ks.
Proof.
  simpl. apply and_iff_compat_l.
  induction ks as [|k ks IH]; simpl.
  - split; [constructor|done].
  - rewrite Forall_cons, IH. done.
Qed.

Lemma nodes_at_Node b d ks :
  nodes_at b (Node d ks) = (b, Node d ks) :: concat (forest_with nodes_at (S b) ks).
Proof. reflexivity. Qed.

Lemma nodes_at_fst b t : (nodes_at b t).*1 = seq b (tree_size t).
Proof.
  revert b. induction t as [d ks IH] using tree_ind'. intros b.
  rewrite nodes_at_Node. simpl. f_equal. fold (forest_size ks).
  generalize (S b). clear b.
  induction IH as [|k ks Hk _ IHks]; intros b; [done|].
  simpl. rewrite fmap_app, Hk, IHks, forest_size_cons, seq_app. done.
Qed.

Lemma forest_nodes_fst b ts :
  (concat (forest_with nodes_at b ts)).*1 = seq b (forest_size ts).
Proof.
  revert b. induction ts as [|t ts IH]; intros b; [done|].
  simpl. rewrite fmap_app, nodes_at_fst, IH, forest_size_cons, seq_app. done.
Qed.

Lemma layout_cells b t : layout b t = cell <$> nodes_at b t.
Proof.
  revert b. induction t as [d ks IH] using tree_ind'. intros b.
  rewrite layout_Node, nodes_at_Node. simpl. f_equal.
  generalize (S b). clear b.
  induction IH as [|k ks Hk _ IHks]; intros b; [done|].
  rewrite layouts_cons. simpl. rewrite fmap_app, Hk. f_equal. apply IHks.
Qed.

Lemma nodes_at_lookup b t a s :
  (a, s) ∈ nodes_at b t → nodes_at b t !! (a - b) = Some (a, s).
Proof.
  intros Hin. apply list_elem_of_lookup_1 in Hin as (i & Hi).
  assert ((nodes_at b t).*1 !! i = Some a) as Hfst by (by rewrite list_lookup_fmap, Hi).
  rewrite nodes_at_fst in Hfst. apply lookup_seq in Hfst as [-> _].
  by replace (b + i - b) with i by lia.
Qed.

Lemma forest_roots_nodes b ts :
  Forall2 (λ c k, (c, k) ∈ concat (forest_with nodes_at b ts)) (roots b ts) ts.
Proof.
  revert b. induction ts as [|t ts IH]; intros b; [constructor|].
  simpl. constructor.
  - apply elem_of_app. left. destruct t. apply list_elem_of_here.
  - eapply Forall2_impl; [apply IH|]. simpl. intros c k Hck. apply elem_of_app. by right.
Qed.

(** A subtree of a subtree is a subtree. *)
Lemma nodes_at_trans b t a s c k :
  (a, s) ∈ nodes_at b t → (c, k) ∈ nodes_at a s → (c, k) ∈ nodes_at b t.
Proof.
  revert b. induction t as [d ks IH] using tree_ind'. intros b Has Hck.
  rewrite nodes_at_Node in Has. apply elem_of_cons in Has as [[= -> ->]|Has]; [exact Hck|].
  rewrite nodes_at_Node. apply list_elem_of_further.
  revert Has. generalize (S b). clear b.
  induction IH as [|k' ks Hk' _ IHks]; intros b Has; [by apply not_elem_of_nil in Has|].
  simpl in *. apply elem_of_app in Has as [Has|Has]; apply elem_of_app.
  - left. by apply Hk'.
  - right. by apply IHks.
Qed.

Lemma nodes_at_kids b t a d ks :
  (a, Node d ks) ∈ nodes_at b t →
  Forall2 (λ c k, (c, k) ∈ nodes_at b t) (roots (S a) ks) ks.
Proof.
  intros Hin. eapply Forall2_impl; [apply forest_roots_nodes|].
  simpl. intros c k Hck. eapply nodes_at_trans; [exact Hin|].
  rewrite nodes_at_Node. by apply list_elem_of_further.
Qed.

Lemma all_sub_nodes_at Q b t a s : all_sub Q t → (a, s) ∈ nodes_at b t → Q s.
Proof.
  revert b. induction t as [d ks IH] using tree_ind'. intros b Hall Has.
  apply all_sub_Node in Hall as [HQ Hks].
  rewrite nodes_at_Node in Has. apply elem_of_cons in Has as [[= -> ->]|Has]; [done|].
  clear HQ. revert Has. generalize (S b). clear b.
  induction IH as [|k' ks' Hk' _ IHks]; intros b Has; [by apply not_elem_of_nil in Has|].
  apply Forall_cons in Hks as [Hk Hks].
  simpl in Has. apply elem_of_app in Has as [Has|Has]; [eapply Hk'; eauto|eapply IHks; eauto].
Qed.

(** Reading a cell of the arena of a tree. *)
Lemma layout_lookup t a node :
  layout 0 t !! a = Some node →
  ∃ s, (a, s) ∈ nodes_at 0 t ∧ node = cell (a, s) ∧
       Forall2 (λ c k, layout 0 t !! c = Some (cell (c, k))) (roots (S a) (subtrees s))
         (subtrees s).
Proof.
  rewrite layout_cells, list_lookup_fmap. intros Hn.
  destruct (nodes_at 0 t !! a) as [[a' s]|] eqn:Ha; [|done]. simpl in Hn. injection Hn as <-.
  assert (a' = a) as ->.
  { assert ((nodes_at 0 t).*1 !! a = Some a') as Hfst by (by rewrite list_lookup_fmap, Ha).
    rewrite nodes_at_fst in Hfst. by apply lookup_seq in Hfst as [-> _]. }
  apply list_elem_of_lookup_2 in Ha. exists s. split; [done|]. split; [done|].
  destruct s as [d ks]. eapply Forall2_impl; [by apply (nodes_at_kids 0 t a d ks)|].
  simpl. intros c k Hck. apply nodes_at_lookup in Hck.
  rewrite Nat.sub_0_r in Hck. by rewrite list_lookup_fmap, Hck.
Qed.

Lemma with_totals_sum t : all_sub total_is_sum (with_totals t).
Proof.
  induction t as [d ks IH] using tree_ind'. simpl with_totals.
  apply all_sub_Node. split; [reflexivity|].
  apply Forall_fmap. eapply Forall_impl; [apply IH|]. done.
Qed.

Lemma root_data_stamp par dp b t :
  root_data (stamp par dp b t) = set_depth_parent (Some dp) (Some par) (root_data t).
Proof. by destruct t. Qed.

Lemma forest_with_root_times (f : nat → tree num → tree num) b ts :
  (∀ a t, totalTime (root_data (f a t)) = totalTime (root_data t)) →
  map (λ k, totalTime (root_data k)) (forest_with f b ts) =
  map (λ k, totalTime (root_data k)) ts.
Proof.
  intros Hf. revert b. induction ts as [|t ts IH]; intros b; [done|].
  simpl. by rewrite Hf, IH.
Qed.

Lemma stamp_sum par dp b t : all_sub total_is_sum t → all_sub total_is_sum (stamp par dp b t).
Proof.
  revert par dp b. induction t as [d ks IH] using tree_ind'. intros par dp b Hall.
  apply all_sub_Node in Hall as [Hsum Hks]. simpl stamp. apply all_sub_Node. split.
  - unfold total_is_sum in *. simpl in *.
    rewrite forest_with_root_times; [done|]. intros a t. by rewrite root_data_stamp.
  - generalize (S b) (dp + 1)%Z. generalize b. clear par dp b Hsum.
    induction IH as [|k ks Hk _ IHks]; intros par b dp; [constructor|].
    apply Forall_cons in Hks as [Hk' Hks]. simpl.
    constructor; [by apply Hk|by apply IHks].
Qed.

Lemma forest_stamp_sum par dp b ks :
  Forall (all_sub total_is_sum) ks →
  Forall (all_sub total_is_sum) (forest_with (stamp par dp) b ks).
Proof.
  intros Hks. revert b. induction Hks as [|k ks Hk _ IH]; intros b; [constructor|].
  simpl. constructor; [by apply stamp_sum|apply IH].
Qed.

Lemma stamp_root_sum t : all_sub total_is_sum t → all_sub total_is_sum (stamp_root t).
Proof.
  destruct t as [d ks]. intros Hall.
  apply all_sub_Node in Hall as [Hsum Hks]. simpl stamp_root. apply all_sub_Node. split.
  - unfold total_is_sum in *. simpl in *.
    rewrite forest_with_root_times; [done|]. intros a t. by rewrite root_data_stamp.
  - by apply forest_stamp_sum.
Qed.

End CellFacts.

(** ** Native frames *)

Section Native.
Context {num : Type} `{JSNumber num}.
Implicit Types (t : tree num) (p : Profile num).

Lemma expand_nonnative d idmap (flat : list (ProfileNode num)) src r :
  expand d idmap flat src = Some r →
  Forall (λ t, Forall (λ n, isNativeNode n = false) (preorder t)) r.1.
Proof.
  revert src r. induction d as [|d IH]; intros src r He; [done|].
  simpl in He. destruct src as [src|]; [|done]. simpl in He.
  destruct (flat !! src) as [node|]; [|done]. simpl in He.
  destruct (mapM _ _) as [rs|] eqn:Hrs; [|done]. simpl in He.
  assert (Forall (λ t, Forall (λ n, isNativeNode n = false) (preorder t)) (concat rs.*1))
    as Hall.
  { apply mapM_Some_1 in Hrs. clear He.
    induction Hrs as [|c r' cs rs' Hc _ IHrs]; [constructor|].
    simpl. apply Forall_app. split; [by eapply IH|done]. }
  destruct (isNativeNode node) eqn:Hnat; simpl in He; injection He as <-; simpl; [done|].
  constructor; [|constructor]. simpl. constructor; [exact Hnat|].
  by apply Forall_concat_map.
Qed.

Lemma built_tree_nonnative d p t root :
  built_tree d p = Some t → nodes p !! 0 = Some root → isNativeNode root = false →
  Forall (λ n, isNativeNode n = false) (preorder t).
Proof.
  intros Hb Hroot Hnat. unfold built_tree in Hb. rewrite Hroot in Hb. simpl in Hb.
  destruct (children root) as [cs|]; [|done]. simpl in Hb.
  destruct (mapM _ _) as [rs|] eqn:Hrs; [|done]. simpl in Hb. injection Hb as <-.
  simpl. constructor; [exact Hnat|]. apply Forall_concat_map.
  apply mapM_Some_1 in Hrs.
  induction Hrs as [|c r' cs' rs' Hc _ IHrs]; [constructor|].
  simpl. apply Forall_app. split; [by eapply expand_nonnative|done].
Qed.

Lemma spec_tree_nonnative d p t root :
  spec_tree d p = Some t → nodes p !! 0 = Some root → isNativeNode root = false →
  Forall (λ n, isNativeNode n = false) (layout 0 t).
Proof.
  intros Hs Hroot Hnat. unfold spec_tree in Hs.
  destruct (built_tree d p) as [t1|] eqn:Hb; [|done]. simpl in Hs. injection Hs as <-.
  apply (built_tree_nonnative d p t1 root) in Hb; [|done..].
  apply (with_totals_all (λ n, isNativeNode n = false)) in Hb; [|done].
  destruct (with_totals t1) as [d1 ks1]. simpl in Hb. apply Forall_cons in Hb as [Hd1 Hks].
  unfold stamp_root. rewrite layout_Node. constructor; [done|].
  apply (layouts_all (λ n, isNativeNode n = false)); [done|].
  by apply (forest_stamp_all (λ n, isNativeNode n = false)).
Qed.

(** A record is made of the first occurrence of its call site. *)
Lemma merged_record (records : list (ProfileNode num)) occ r :
  merged records occ → r ∈ records →
  ∃ n0 f0 rest,
    occurrences_of (callUID r) occ = (n0, f0) :: rest ∧ (n0, f0) ∈ occ ∧
    group_record ((n0, f0) :: rest) = Some r.
Proof.
  intros [_ Hrecs] Hr. rewrite Forall_forall in Hrecs. specialize (Hrecs r Hr).
  destruct (occurrences_of (callUID r) occ) as [|[n0 f0] rest] eqn:Ho; [done|].
  exists n0, f0, rest. split; [done|]. split; [|done].
  assert ((n0, f0) ∈ occurrences_of (callUID r) occ) as Hin
    by (rewrite Ho; apply list_elem_of_here).
  unfold occurrences_of in Hin. by apply list_elem_of_filter in Hin as [_ ?].
Qed.

Lemma group_record_callFrame (g : list (ProfileNode num * bool)) n0 f0 rest r :
  group_record ((n0, f0) :: rest) = Some r → callFrame r = callFrame n0.
Proof. simpl. by intros [= <-]. Qed.

End Native.

(** ** The outer occurrence of a recursive call site *)

Section Outer.
Context {num : Type} `{JSNumber num}.
Implicit Types (t : tree num) (p : Profile num).




End Outer.

(** ** Sums of self times *)

Section Sums.
Context {num : Type} `{JSNumber num}.
Implicit Types (l : list num) (t : tree num) (p : Profile num).

Hypothesis add_assoc : ∀ a b c : num, num_add a (num_add b c) = num_add (num_add a b) c.
Hypothesis add_comm : ∀ a b : num, num_add a b = num_add b a.

Lemma same_sum_refl l : same_sum l l.
Proof. done. Qed.

Lemma same_sum_sym l1 l2 : same_sum l1 l2 → same_sum l2 l1.
Proof. intros Hs acc. by rewrite Hs. Qed.

Lemma same_sum_trans l1 l2 l3 : same_sum l1 l2 → same_sum l2 l3 → same_sum l1 l3.
Proof. intros H1 H2 acc. by rewrite H1, H2. Qed.

Lemma same_sum_app l1 l1' l2 l2' :
  same_sum l1 l1' → same_sum l2 l2' → same_sum (l1 ++ l2) (l1' ++ l2').
Proof. intros H1 H2 acc. by rewrite !fold_left_app, H1, H2. Qed.

Lemma same_sum_Permutation l1 l2 : l1 ≡ₚ l2 → same_sum l1 l2.
Proof using add_assoc add_comm.
  induction 1 as [|x l1 l2 _ IH|x y l|l1 l2 l3 _ IH1 _ IH2]; intros acc; simpl.
  - done.
  - apply IH.
  - f_equal. by rewrite <- !add_assoc, (add_comm y x).
  - by rewrite IH1, IH2.
Qed.

Lemma same_sum_fold s incs : same_sum [fold_left num_add incs s] (s :: incs).
Proof using add_assoc.
  intros acc. simpl. revert s. induction incs as [|i incs IH]; intros s; simpl; [done|].
  by rewrite IH, add_assoc.
Qed.

Lemma same_sum_insert l i x y :
  l !! i = Some x → same_sum (<[i := num_add x y]> l) (l ++ [y]).
Proof using add_assoc add_comm.
  intros Hi. rewrite <- (take_drop_middle l i x Hi) at 2.
  rewrite <- (take_drop_middle l i x Hi) at 1.
  assert (length (take i l) = i) as Hlen.
  { rewrite length_take. apply lookup_lt_Some in Hi. lia. }
  rewrite insert_app_r_alt by lia. rewrite Hlen, Nat.sub_diag. simpl.
  rewrite <- app_assoc. apply same_sum_app; [done|].
  apply (same_sum_trans _ ([x; y] ++ drop (S i) l)).
  - apply (same_sum_app [num_add x y] [x; y]); [|done].
    intros acc. simpl. by rewrite add_assoc.
  - apply same_sum_Permutation. simpl. constructor.
    rewrite <- Permutation_cons_append. done.
Qed.

(** *** The merge *)

Lemma mergeInfo_sum (arena : list (ProfileNode num)) records info records' :
  mergeInfo arena records info = Ok records' → ancestor info = focusNode info →
  ∃ n, arena !! focusNode info = Some n ∧
       same_sum (selfTime <$> records') ((selfTime <$> records) ++ [selfTime n]).
Proof using add_assoc add_comm.
  intros Hm Hanc. unfold mergeInfo in Hm. rewrite Hanc in Hm.
  apply bind_Ok in Hm as (n & Hn%defined_Ok & Hm). rewrite Hn in Hm. simpl in Hm.
  exists n. split; [done|].
  destruct (find_last _ records) as [i|] eqn:Hfind.
  - apply bind_Ok in Hm as (r & Hr%defined_Ok & Hm). injection Hm as <-.
    rewrite list_fmap_insert.
    replace (selfTime (if totalAccountedFor info then _ else _))
      with (num_add (selfTime r) (selfTime n)) by (by destruct (totalAccountedFor info)).
    apply same_sum_insert. by rewrite list_lookup_fmap, Hr.
  - rewrite bool_decide_true in Hm by done. injection Hm as <-.
    by rewrite fmap_app.
Qed.

Lemma merge_sum (arena : list (ProfileNode num)) infos records records' :
  foldl_result (mergeInfo arena) records infos = Ok records' →
  Forall (λ i, ancestor i = focusNode i) infos →
  ∃ visited,
    Forall2 (λ i n, arena !! focusNode i = Some n) infos visited ∧
    same_sum (selfTime <$> records') ((selfTime <$> records) ++ (selfTime <$> visited)).
Proof using add_assoc add_comm.
  revert records. induction infos as [|info infos IH]; intros records Hf Hanc.
  { injection Hf as <-. exists []. split; [constructor|]. by rewrite app_nil_r. }
  apply Forall_cons in Hanc as [Hanc Hancs]. simpl in Hf.
  apply bind_Ok in Hf as (records1 & H1 & Hf).
  destruct (mergeInfo_sum _ _ _ _ H1 Hanc) as (n & Hn & Hs1).
  destruct (IH _ Hf Hancs) as (visited & Hv & Hs).
  exists (n :: visited). split; [by constructor|].
  eapply same_sum_trans; [exact Hs|]. simpl.
  rewrite (cons_middle (selfTime n)), app_assoc. by apply same_sum_app.
Qed.

(** *** The tree and the flat nodes *)

Lemma same_sum_concat (ls ls' : list (list num)) :
  Forall2 same_sum ls ls' → same_sum (concat ls) (concat ls').
Proof. induction 1; simpl; [done|]. by apply same_sum_app. Qed.

Lemma expand_walked d idmap (flat : list (ProfileNode num)) src r :
  expand d idmap flat src = Some r →
  ∃ w, walked d idmap flat src = Some w ∧
       same_sum ((selfTime <$> concat (map preorder r.1)) ++ r.2) (selfTime <$> w).
Proof using add_assoc add_comm.
  revert src r. induction d as [|d IH]; intros src r He; [done|].
  simpl in He. destruct src as [src|]; [|done]. simpl in He.
  destruct (flat !! src) as [node|] eqn:Hnode; [|done]. simpl in He.
  destruct (mapM _ _) as [rs|] eqn:Hrs; [|done]. simpl in He.
  assert (∃ ws, mapM (λ c, walked d idmap flat (idmap !! c))
                  (rev (default [] (children node))) = Some ws ∧
                same_sum ((selfTime <$> concat (map preorder (concat rs.*1))) ++ concat rs.*2)
                  (selfTime <$> concat ws)) as (ws & Hws & Hsum).
  { apply mapM_Some_1 in Hrs. clear He.
    induction Hrs as [|c r' cs rs' Hc _ (ws & Hws & Hsum)].
    - exists []. done.
    - destruct (IH _ _ Hc) as (w & Hw & Hsw).
      exists (w :: ws). split.
      + apply mapM_Some_2. constructor; [done|]. by apply mapM_Some_1.
      + simpl. rewrite map_app, concat_app, !fmap_app.
        eapply same_sum_trans; [|apply same_sum_app; [exact Hsw|exact Hsum]].
        apply same_sum_Permutation. rewrite <- !app_assoc.
        apply Permutation_app_head. rewrite !app_assoc.
        apply Permutation_app_tail, Permutation_app_comm. }
  exists (node :: concat ws). split.
  { simpl. rewrite Hnode. simpl. by rewrite Hws. }
  destruct (isNativeNode node); simpl in He; injection He as <-; simpl.
  - eapply same_sum_trans;
      [|apply (same_sum_app [selfTime node] [selfTime node]); [done|exact Hsum]].
    apply same_sum_Permutation. simpl.
    by rewrite <- Permutation_middle.
  - rewrite !app_nil_r.
    eapply same_sum_trans;
      [|apply (same_sum_app [selfTime node] [selfTime node]); [done|exact Hsum]].
    change (?x :: ?l) with ([x] ++ l) at 1.
    eapply same_sum_trans.
    { apply same_sum_app; [apply same_sum_fold|done]. }
    apply same_sum_Permutation. simpl. constructor. apply Permutation_app_comm.
Qed.

Lemma built_tree_walked d p t :
  built_tree d p = Some t →
  ∃ w, walked_nodes d p = Some w ∧ same_sum (selfTime <$> preorder t) (selfTime <$> w).
Proof using add_assoc add_comm.
  unfold built_tree, walked_nodes. intros Hb.
  destruct (nodes p !! 0) as [root|]; [|done]. simpl in *.
  destruct (children root) as [cs|]; [|done]. simpl in *.
  destruct (mapM _ _) as [rs|] eqn:Hrs; [|done]. simpl in Hb. injection Hb as <-.
  assert (∃ ws, mapM (λ c, walked d (idToNodeMap p) (nodes p) (idToNodeMap p !! c)) (rev cs)
                  = Some ws ∧
                same_sum ((selfTime <$> concat (map preorder (concat rs.*1))) ++ concat rs.*2)
                  (selfTime <$> concat ws)) as (ws & Hws & Hsum).
  { apply mapM_Some_1 in Hrs.
    induction Hrs as [|c r' cs' rs' Hc _ (ws & Hws & Hsum)].
    - exists []. done.
    - destruct (expand_walked _ _ _ _ _ Hc) as (w & Hw & Hsw).
      exists (w :: ws). split.
      + apply mapM_Some_2. constructor; [done|]. by apply mapM_Some_1.
      + simpl. rewrite map_app, concat_app, !fmap_app.
        eapply same_sum_trans; [|apply same_sum_app; [exact Hsw|exact Hsum]].
        apply same_sum_Permutation. rewrite <- !app_assoc.
        apply Permutation_app_head. rewrite !app_assoc.
        apply Permutation_app_tail, Permutation_app_comm. }
  exists (root :: concat ws). rewrite Hws. split; [done|]. simpl.
  eapply same_sum_trans;
    [|apply (same_sum_app [selfTime root] [selfTime root]); [done|exact Hsum]].
  change (?x :: ?l) with ([x] ++ l) at 1.
  eapply same_sum_trans.
  { apply same_sum_app; [apply same_sum_fold|done]. }
  apply same_sum_Permutation. simpl. constructor. apply Permutation_app_comm.
Qed.

End Sums.

(** ** Self times of the tree *)

Section SelfTimes.
Context {num : Type} `{JSNumber num}.
Implicit Types (t : tree num) (ts : list (tree num)) (p : Profile num).

Lemma preorder_self_ext (f : tree num → tree num) ts :
  Forall (λ t, selfTime <$> preorder (f t) = selfTime <$> preorder t) ts →
  selfTime <$> concat (map preorder (map f ts)) = selfTime <$> concat (map preorder ts).
Proof. induction 1 as [|t ts Ht _ IH]; [done|]. simpl. by rewrite !fmap_app, Ht, IH. Qed.

Lemma with_totals_self t : selfTime <$> preorder (with_totals t) = selfTime <$> preorder t.
Proof.
  induction t as [d ks IH] using tree_ind'. simpl. f_equal. by apply preorder_self_ext.
Qed.

Lemma stamp_self par dp b t :
  selfTime <$> preorder (stamp par dp b t) = selfTime <$> preorder t.
Proof.
  revert par dp b. induction t as [d ks IH] using tree_ind'. intros par dp b.
  simpl. f_equal. generalize (S b) (dp + 1)%Z. generalize b. clear par dp b.
  induction IH as [|k ks Hk _ IHks]; intros par b dp; [done|].
  simpl. by rewrite !fmap_app, Hk, IHks.
Qed.

Lemma stamp_root_self t : selfTime <$> preorder (stamp_root t) = selfTime <$> preorder t.
Proof.
  destruct t as [d ks]. simpl. f_equal. generalize 1.
  induction ks as [|k ks IH]; intros b; [done|].
  simpl. by rewrite !fmap_app, stamp_self, IH.
Qed.

Lemma layout_self b t : selfTime <$> layout b t = selfTime <$> preorder t.
Proof.
  revert b. induction t as [d ks IH] using tree_ind'. intros b.
  rewrite layout_Node. simpl. f_equal. generalize (S b). clear b.
  induction IH as [|k ks Hk _ IHks]; intros b; [done|].
  rewrite layouts_cons. simpl. by rewrite !fmap_app, Hk, IHks.
Qed.

Lemma lookups_seq {A B} (f : A → B) (z : B) (l : list A) b k :
  b + k ≤ length l →
  (λ a, default z (f <$> l !! a)) <$> seq b k = f <$> take k (drop b l).
Proof.
  revert b. induction k as [|k IH]; intros b Hb; [done|].
  simpl. destruct (lookup_lt_is_Some_2 l b) as [x Hx]; [lia|].
  rewrite Hx. simpl. rewrite (drop_S _ _ _ Hx). simpl. f_equal.
  apply IH. lia.
Qed.

End SelfTimes.

(** ** The key of a call site as a string *)

Section Keys.

Lemma has_char_app c s1 s2 : has_char c (s1 +:+ s2) = has_char c s1 || has_char c s2.
Proof. induction s1 as [|a s1 IH]; simpl; [done|]. by rewrite IH, orb_assoc. Qed.

Lemma has_at_uint d : has_char "@"%char (NilEmpty.string_of_uint d) = false.
Proof. induction d; simpl; by rewrite ?IHd. Qed.

Lemma has_at_int i : has_char "@"%char (NilZero.string_of_int i) = false.
Proof.
  assert (∀ d, has_char "@"%char (NilZero.string_of_uint d) = false) as Hu.
  { intros d. destruct d; try done; apply has_at_uint. }
  destruct i as [d|d]; simpl; [apply Hu|]. by rewrite Hu.
Qed.

(** A string with one [c] is cut at it in one way only. *)
Lemma cut_unique c f r f' r' :
  has_char c f' = false → has_char c r' = false →
  f +:+ String c r = f' +:+ String c r' → f = f'.
Proof.
  revert f. induction f' as [|x f' IH]; intros f Hf' Hr' Heq.
  - destruct f as [|a f]; [done|]. simpl in Heq. injection Heq as -> <-.
    rewrite has_char_app in Hr'. simpl in Hr'.
    by rewrite Ascii.eqb_refl, orb_true_r in Hr'.
  - simpl in Hf'. apply orb_false_elim in Hf' as [Hx Hf'].
    destruct f as [|a f]; simpl in Heq.
    + injection Heq as -> _. by rewrite Ascii.eqb_refl in Hx.
    + injection Heq as -> Heq. f_equal. by apply IH.
Qed.

(** The key of an anonymous call site whose script id is free of [@] is the
    key of no call site of another name. *)
Lemma render_callUID_anonymous c c' :
  functionName c = anonymous_name → has_char "@"%char (scriptId c) = false →
  render_callUID c' = render_callUID c → functionName c' = anonymous_name.
Proof.
  intros Hname Hscript Heq. rewrite <- Hname. unfold render_callUID in Heq.
  eapply (cut_unique "@"%char); [| |exact Heq].
  - by rewrite Hname.
  - rewrite !has_char_app, Hscript, has_at_int. done.
Qed.

Lemma NoDup_fmap_eq {A B} (f : A → B) (l : list A) x y :
  NoDup (f <$> l) → x ∈ l → y ∈ l → f x = f y → x = y.
Proof.
  induction l as [|a l IH]; intros Hnd Hx Hy Hxy; [by apply not_elem_of_nil in Hx|].
  simpl in Hnd. apply NoDup_cons in Hnd as [Ha Hnd].
  apply elem_of_cons in Hx as [->|Hx]; apply elem_of_cons in Hy as [->|Hy]; [done|..|eauto].
  - exfalso. apply Ha. rewrite Hxy. by apply list_elem_of_fmap_2.
  - exfalso. apply Ha. rewrite <- Hxy. by apply list_elem_of_fmap_2.
Qed.

End Keys.

(** ** Anonymous functions *)

Section Anonymous.
Context {num : Type} `{JSNumber num}.
Implicit Types (obj : RawProfile num) (t : tree num) (p : Profile num).

Lemma createFromObject_frames obj :
  Forall2 (λ raw n, callFrame n = named (raw_callFrame raw) ∧
                    callUID n = render_callUID (raw_callFrame raw))
    (raw_nodes obj) (nodes (createFromObject obj)).
Proof.
  unfold createFromObject. rewrite nodes_new_Profile.
  apply Forall2_fmap_r, Forall2_fmap_r, Forall_Forall2_diag, Forall_forall. intros raw _.
  simpl. unfold named. by destruct (String.eqb _ _).
Qed.

Lemma expand_from (P : ProfileNode num → Prop) d idmap flat src r :
  (∀ x node, node ∈ flat → P (set_selfTime x (cloneWithoutChildren node))) →
  expand d idmap flat src = Some r → Forall (λ t, Forall P (preorder t)) r.1.
Proof.
  intros HP. revert src r. induction d as [|d IH]; intros src r He; [done|].
  simpl in He. destruct src as [src|]; [|done]. simpl in He.
  destruct (flat !! src) as [node|] eqn:Hnode; [|done]. simpl in He.
  apply list_elem_of_lookup_2 in Hnode.
  destruct (mapM _ _) as [rs|] eqn:Hrs; [|done]. simpl in He.
  assert (Forall (λ t, Forall P (preorder t)) (concat rs.*1)) as Hall.
  { apply mapM_Some_1 in Hrs. clear He.
    induction Hrs as [|c r' cs rs' Hc _ IHrs]; [constructor|].
    simpl. apply Forall_app. split; [by eapply IH|done]. }
  destruct (isNativeNode node); simpl in He; injection He as <-; simpl; [done|].
  constructor; [|constructor]. simpl. constructor; [by apply HP|].
  by apply Forall_concat_map.
Qed.

Lemma built_tree_from (P : ProfileNode num → Prop) d p t :
  (∀ x node, node ∈ nodes p → P (set_selfTime x (cloneWithoutChildren node))) →
  built_tree d p = Some t → Forall P (preorder t).
Proof.
  intros HP Hb. unfold built_tree in Hb.
  destruct (nodes p !! 0) as [root|] eqn:Hroot; [|done]. simpl in Hb.
  apply list_elem_of_lookup_2 in Hroot.
  destruct (children root) as [cs|]; [|done]. simpl in Hb.
  destruct (mapM _ _) as [rs|] eqn:Hrs; [|done]. simpl in Hb. injection Hb as <-.
  simpl. constructor; [by apply HP|]. apply Forall_concat_map.
  apply mapM_Some_1 in Hrs.
  induction Hrs as [|c r' cs' rs' Hc _ IHrs]; [constructor|].
  simpl. apply Forall_app. split; [by eapply expand_from|done].
Qed.

(** Every node of the tree is made from a flat node. *)
Lemma spec_tree_from (P : ProfileNode num → Prop) d p t a n :
  (∀ x node, node ∈ nodes p → P (set_selfTime x (cloneWithoutChildren node))) →
  (∀ c m, P m → P (set_children c m)) →
  (∀ x m, P m → P (set_totalTime x m)) →
  (∀ x y m, P m → P (set_depth_parent x y m)) →
  spec_tree d p = Some t → layout 0 t !! a = Some n → P n.
Proof.
  intros HP Hc Ht Hd Hs Ha. unfold spec_tree in Hs.
  destruct (built_tree d p) as [t1|] eqn:Hb; [|done]. simpl in Hs. injection Hs as <-.
  apply (built_tree_from P) in Hb; [|done].
  apply (with_totals_all P) in Hb; [|done].
  destruct (with_totals t1) as [d1 ks1]. simpl in Hb. apply Forall_cons in Hb as [Hd1 Hks].
  unfold stamp_root in Ha. rewrite layout_Node in Ha.
  destruct a as [|a]; simpl in Ha; [injection Ha as <-; by apply Hc, Hd|].
  apply list_elem_of_lookup_2 in Ha. revert n Ha. apply Forall_forall.
  apply (layouts_all P); [done|]. by apply (forest_stamp_all P).
Qed.

Lemma tree_node_frame obj d t a node :
  spec_tree d (createFromObject obj) = Some t → layout 0 t !! a = Some node →
  callUID node = render_callUID (callFrame node) ∧
  ∃ raw, raw ∈ raw_nodes obj ∧ callFrame node = named (raw_callFrame raw).
Proof.
  intros Hs Ha.
  apply (spec_tree_from
           (λ n, callUID n = render_callUID (callFrame n) ∧
                 ∃ raw, raw ∈ raw_nodes obj ∧ callFrame n = named (raw_callFrame raw))
           d (createFromObject obj) t a node); try done.
  intros x flat_node Hin. split; [done|]. simpl.
  apply list_elem_of_lookup_1 in Hin as (i & Hi).
  destruct (Forall2_lookup_r _ _ _ _ _ (createFromObject_frames obj) Hi) as (raw & Hraw & Hf & _).
  exists raw. split; [by eapply list_elem_of_lookup_2|done].
Qed.

End Anonymous.

(** * The properties of the specification *)

Section TreeProperties.
Context {num : Type} `{JSNumber num}.
Implicit Types (obj : RawProfile num) (t : tree num).

Lemma spec_tree_sum d (p : Profile num) t : spec_tree d p = Some t → all_sub total_is_sum t.
Proof.
  unfold spec_tree. destruct (built_tree d p) as [t1|]; [|done]. simpl. intros [= <-].
  apply stamp_root_sum, with_totals_sum.
Qed.

Lemma Forall2_cells (arena : list (ProfileNode num)) cs ks :
  Forall2 (λ c k, arena !! c = Some (cell (c, k))) cs ks →
  ∃ kids, Forall2 (λ c k, arena !! c = Some k) cs kids ∧
          totalTime <$> kids = map (λ k, totalTime (root_data k)) ks.
Proof.
  induction 1 as [|c k cs ks Hc _ (kids & Hk & Ht)]; [by exists []|].
  exists (cell (c, k) :: kids). split; [by constructor|]. simpl. by f_equal.
Qed.

(** C6: in the tree that [translatedRoot] answers, the total time of every
    node, the root included, is its self time plus the total times of its
    children, added in the order of the children. *)
Theorem C6_total_time_is_self_plus_children obj d t :
  spec_tree d (createFromObject obj) = Some t →
  ∃ n, ∀ fuel, n ≤ fuel →
    ∃ arena,
      translatedRoot fuel (createFromObject obj) = Ok (createFromObject obj, arena) ∧
      length arena = tree_size t ∧
      ∀ a node, arena !! a = Some node →
        ∃ cs kids,
          children node = Some cs ∧
          Forall2 (λ c k, arena !! c = Some k) cs kids ∧
          totalTime node = fold_left num_add (totalTime <$> kids) (selfTime node).
Proof.
  intros Hs.
  destruct (translatedRoot_spec d _ t (has_children_createFromObject obj) Hs) as [n Hn].
  exists n. intros fuel Hfuel. exists (layout 0 t).
  split; [by apply Hn|]. split; [apply length_layout|].
  intros a node Ha.
  apply layout_lookup in Ha as (s & Hin & -> & Hkids).
  pose proof (all_sub_nodes_at _ 0 t a s (spec_tree_sum d _ t Hs) Hin) as Hsum.
  apply Forall2_cells in Hkids as (kids & Hkids & Ht).
  exists (roots (S a) (subtrees s)), kids. split; [done|]. split; [done|].
  rewrite Ht. exact Hsum.
Qed.

(** C10: whatever [translatedRoot], [remainingNodeInfos], [bottomUpNodes] and
    [formattedBottomUpProfile] answer for a constructed profile, they hand the
    profile back as it was: every flat node keeps its id, call frame, hit
    count, children and self time. *)
Theorem C10_flat_nodes_unchanged obj fuel :
  let p := createFromObject obj in
  (∀ p' arena, translatedRoot fuel p = Ok (p', arena) → p' = p) ∧
  (∀ p' arena infos, remainingNodeInfos fuel p = Ok (p', arena, infos) → p' = p) ∧
  (∀ p' records, bottomUpNodes fuel p = Ok (p', records) → p' = p) ∧
  (∀ p' out, formattedBottomUpProfile fuel p = Ok (p', out) → p' = p).
Proof.
  intros p.
  assert (∀ p' arena, translatedRoot fuel p = Ok (p', arena) → p' = p) as Ht.
  { intros p' arena. apply translatedRoot_profile, has_children_createFromObject. }
  assert (∀ p' arena infos, remainingNodeInfos fuel p = Ok (p', arena, infos) → p' = p) as Hr.
  { intros p' arena infos Hr. unfold remainingNodeInfos in Hr.
    apply bind_Ok in Hr as ([p1 arena1] & Hp1 & Hr). apply Ht in Hp1 as ->.
    apply bind_Ok in Hr as (v & _ & Hr). by injection Hr as <- _ _. }
  assert (∀ p' records, bottomUpNodes fuel p = Ok (p', records) → p' = p) as Hb.
  { intros p' records Hb. unfold bottomUpNodes in Hb.
    apply bind_Ok in Hb as ([[p1 arena1] infos] & Hp1 & Hb). apply Hr in Hp1 as ->.
    apply bind_Ok in Hb as (rs & _ & Hb). by injection Hb as <- _. }
  split; [done|]. split; [done|]. split; [done|].
  intros p' out Hf. unfold formattedBottomUpProfile in Hf.
  apply bind_Ok in Hf as ([p1 records] & Hp1 & Hf). apply Hb in Hp1 as ->.
  by injection Hf as <- _.
Qed.

(** C9: for a profile whose walk ends, [formattedBottomUpProfile] answers,
    and asked again of the profile it handed back it answers the same
    records. *)
Theorem C9_aggregation_twice obj d t :
  spec_tree d (createFromObject obj) = Some t →
  ∃ n, ∀ fuel, n ≤ fuel →
    ∃ p' out,
      formattedBottomUpProfile fuel (createFromObject obj) = Ok (p', out) ∧
      ∀ fuel', n ≤ fuel' → formattedBottomUpProfile fuel' p' = Ok (p', out).
Proof.
  intros Hs.
  destruct (bottomUpNodes_spec d _ t (has_children_createFromObject obj) Hs) as [n Hn].
  exists n. intros fuel Hfuel.
  destruct (Hn fuel Hfuel) as (arena & order & occ & records & _ & Hb & _).
  exists (createFromObject obj), (map format_node records).
  assert (∀ f, n ≤ f →
            formattedBottomUpProfile f (createFromObject obj) =
            Ok (createFromObject obj, map format_node records)) as Hall.
  { intros f Hf. destruct (Hn f Hf) as (arena' & order' & occ' & records' & _ & Hb' & _).
    assert (bottomUpNodes (Nat.max f fuel) (createFromObject obj) =
            Ok (createFromObject obj, records)) as H1
      by (eapply bottomUpNodes_mono; [exact Hb|lia]).
    assert (bottomUpNodes (Nat.max f fuel) (createFromObject obj) =
            Ok (createFromObject obj, records')) as H2
      by (eapply bottomUpNodes_mono; [exact Hb'|lia]).
    rewrite H1 in H2. injection H2 as <-.
    unfold formattedBottomUpProfile. by rewrite Hb'. }
  split; [by apply Hall|]. exact Hall.
Qed.

End TreeProperties.

Lemma C6_witness :
  ∃ t, spec_tree 5 (createFromObject example_profile) = Some t ∧
  ∃ n, ∀ fuel, n ≤ fuel →
    ∃ arena,
      translatedRoot fuel (createFromObject example_profile) =
        Ok (createFromObject example_profile, arena) ∧
      length arena = tree_size t ∧
      ∀ a node, arena !! a = Some node →
        ∃ cs kids,
          children node = Some cs ∧
          Forall2 (λ c k, arena !! c = Some k) cs kids ∧
          totalTime node = fold_left num_add (totalTime <$> kids) (selfTime node).
Proof.
  eexists. split; [vm_compute; reflexivity|].
  apply (C6_total_time_is_self_plus_children example_profile 5).
  vm_compute. reflexivity.
Defined.

Lemma C9_witness :
  ∃ n, ∀ fuel, n ≤ fuel →
    ∃ p' out,
      formattedBottomUpProfile fuel (createFromObject example_profile) = Ok (p', out) ∧
      ∀ fuel', n ≤ fuel' → formattedBottomUpProfile fuel' p' = Ok (p', out).
Proof.
  eapply (C9_aggregation_twice example_profile 5). vm_compute. reflexivity.
Defined.

Lemma C10_witness :
  ∃ p' out,
    formattedBottomUpProfile 20 (createFromObject example_profile) = Ok (p', out) ∧
    p' = createFromObject example_profile.
Proof.
  eexists _, _. split; [vm_compute; reflexivity|].
  eapply (C10_flat_nodes_unchanged example_profile 20). vm_compute. reflexivity.
Defined.

Section AggregationProperties.
Context {num : Type} `{JSNumber num}.
Implicit Types (obj : RawProfile num) (t : tree num).

(** C7: with a root that is not native, no node of the tree that
    [translatedRoot] answers and no record of [bottomUpNodes] is native.  The
    tree is the one [expand] describes: a native node makes no tree node, it
    hands the subtrees of its children and, after its own self time, the self
    times folded below it to the parent of its pair; any other node becomes a
    tree node that takes them itself. *)
Theorem C7_native_frames_are_folded obj d t root :
  spec_tree d (createFromObject obj) = Some t →
  nodes (createFromObject obj) !! 0 = Some root → isNativeNode root = false →
  (∃ n, ∀ fuel, n ≤ fuel →
     ∃ records,
       translatedRoot fuel (createFromObject obj) = Ok (createFromObject obj, layout 0 t) ∧
       bottomUpNodes fuel (createFromObject obj) = Ok (createFromObject obj, records) ∧
       Forall (λ node, isNativeNode node = false) (layout 0 t) ∧
       Forall (λ r, isNativeNode r = false) records) ∧
  (∀ fuel idmap flat src node rs,
     flat !! src = Some node →
     mapM (λ c, expand fuel idmap flat (idmap !! c)) (rev (default [] (children node)))
       = Some rs →
     expand (S fuel) idmap flat (Some src) =
     if isNativeNode node
     then Some (concat rs.*1, selfTime node :: concat rs.*2)
     else Some ([Node (set_selfTime (fold_left num_add (concat rs.*2) (selfTime node))
                         (cloneWithoutChildren node)) (concat rs.*1)], [])).
Proof.
  intros Hs Hroot Hnat. split.
  - pose proof (has_children_createFromObject obj) as Hflat.
    destruct (translatedRoot_spec d _ t Hflat Hs) as [n1 H1].
    destruct (bottomUpNodes_spec d _ t Hflat Hs) as [n2 H2].
    exists (n1 + n2). intros fuel Hfuel.
    destruct (H2 fuel) as (arena & order & occ & records & _ & Hb & _ & _ & Hocc & Hm); [lia|].
    pose proof (spec_tree_nonnative d _ t root Hs Hroot Hnat) as Hall.
    exists records. split; [apply H1; lia|]. split; [done|]. split; [done|].
    apply Forall_forall. intros r Hr.
    destruct (merged_record records occ r Hm Hr) as (n0 & f0 & rest & _ & Hin & Hg).
    apply (group_record_callFrame occ) in Hg.
    apply list_elem_of_lookup_1 in Hin as (j & Hj).
    destruct (Forall2_lookup_r _ _ _ _ _ Hocc Hj) as (o & _ & Ho & _). simpl in Ho.
    apply list_elem_of_lookup_2 in Ho. rewrite Forall_forall in Hall.
    specialize (Hall _ Ho). unfold isNativeNode in *. by rewrite Hg.
  - intros fuel idmap flat src node rs Hnode Hrs. simpl. rewrite Hnode. simpl.
    rewrite Hrs. simpl. by destruct (isNativeNode node).
Qed.

(** C2: the traversal visits every node of the tree but the root, each once;
    [bottomUpNodes] answers one record for every call site among the visited
    nodes, and the records stand in the order in which the traversal first
    sees their call sites. *)
Theorem C2_one_record_per_call_site obj d t :
  spec_tree d (createFromObject obj) = Some t →
  ∃ n, ∀ fuel, n ≤ fuel →
    ∃ arena infos visited records,
      remainingNodeInfos fuel (createFromObject obj) = Ok (createFromObject obj, arena, infos) ∧
      bottomUpNodes fuel (createFromObject obj) = Ok (createFromObject obj, records) ∧
      focusNode <$> infos ≡ₚ seq 1 (tree_size t - 1) ∧
      Forall2 (λ i node, layout 0 t !! focusNode i = Some node) infos visited ∧
      callUID <$> records = first_seen (callUID <$> visited) ∧
      NoDup (callUID <$> records) ∧
      (∀ u, u ∈ callUID <$> records ↔ u ∈ callUID <$> visited).
Proof.
  intros Hs. pose proof (has_children_createFromObject obj) as Hflat.
  destruct (bottomUpNodes_spec d _ t Hflat Hs) as [n Hn].
  exists n. intros fuel Hfuel.
  destruct (Hn fuel Hfuel) as (arena & order & occ & records & Hr & Hb & Hperm & _ & Hocc & Hm).
  destruct Hm as [Hkeys _].
  exists arena, (map (info_of (layout 0 t)) order), occ.*1, records.
  split; [done|]. split; [done|]. split; [|split; [|split; [done|split]]].
  - rewrite <- list_fmap_compose.
    change (focusNode ∘ info_of (layout 0 t)) with (λ o : nat * list nat, o.1).
    apply (Permutation_cons_inv (a := 0)).
    transitivity (((0, @nil nat) :: order).*1); [done|].
    rewrite Hperm, chains_fst. destruct t as [d0 ks]. simpl.
    by rewrite Nat.sub_0_r.
  - apply Forall2_fmap_l, Forall2_fmap_r. eapply Forall2_impl; [apply Hocc|].
    simpl. by intros o oc [? _].
  - rewrite Hkeys. apply NoDup_first_seen.
  - intros u. by rewrite Hkeys, elem_of_first_seen.
Qed.


End AggregationProperties.

Lemma C7_witness :
  ∃ t, spec_tree 5 (createFromObject example_profile) = Some t ∧
  ∃ n, ∀ fuel, n ≤ fuel →
     ∃ records,
       translatedRoot fuel (createFromObject example_profile) =
         Ok (createFromObject example_profile, layout 0 t) ∧
       bottomUpNodes fuel (createFromObject example_profile) =
         Ok (createFromObject example_profile, records) ∧
       Forall (λ node, isNativeNode node = false) (layout 0 t) ∧
       Forall (λ r, isNativeNode r = false) records.
Proof.
  eexists. split; [vm_compute; reflexivity|].
  eapply (C7_native_frames_are_folded example_profile 5); vm_compute; reflexivity.
Defined.

Lemma C2_witness :
  ∃ t, spec_tree 5 (createFromObject example_profile) = Some t ∧
  ∃ n, ∀ fuel, n ≤ fuel →
    ∃ arena infos visited records,
      remainingNodeInfos fuel (createFromObject example_profile) =
        Ok (createFromObject example_profile, arena, infos) ∧
      bottomUpNodes fuel (createFromObject example_profile) =
        Ok (createFromObject example_profile, records) ∧
      focusNode <$> infos ≡ₚ seq 1 (tree_size t - 1) ∧
      Forall2 (λ i node, layout 0 t !! focusNode i = Some node) infos visited ∧
      callUID <$> records = first_seen (callUID <$> visited) ∧
      NoDup (callUID <$> records) ∧
      (∀ u, u ∈ callUID <$> records ↔ u ∈ callUID <$> visited).
Proof.
  eexists. split; [vm_compute; reflexivity|].
  apply (C2_one_record_per_call_site example_profile 5). vm_compute. reflexivity.
Defined.


Section SelfTimeProperty.
Context {num : Type} `{JSNumber num}.
Implicit Types (obj : RawProfile num) (t : tree num).

Lemma visited_self_times (arena arena0 : list (ProfileNode num)) order visited z :
  (∀ a n, arena0 !! a = Some n → ∃ u, arena !! a = Some (set_UID u n)) →
  Forall (λ o : nat * list nat, o.1 < length arena0) order →
  Forall2 (λ i n, arena !! focusNode i = Some n) (map (info_of arena0) order) visited →
  selfTime <$> visited = (λ a, default z (selfTime <$> arena0 !! a)) <$> order.*1.
Proof.
  intros Har Hlt. revert visited. induction Hlt as [|o order Ho _ IH]; intros visited Hv.
  { by apply Forall2_nil_inv_l in Hv as ->. }
  simpl in Hv. apply Forall2_cons_inv_l in Hv as (n & visited' & Hn & Hv' & ->).
  simpl in Hn. apply lookup_lt_is_Some in Ho as [n0 Hn0].
  destruct (Har _ _ Hn0) as [u Hu]. rewrite Hu in Hn. injection Hn as <-.
  simpl. rewrite Hn0. simpl. f_equal. by apply IH.
Qed.

(** C3, as the code has it: the self times of the records, together with the
    self time left on the root of the tree, add up to the self times of all
    the flat nodes the walk takes, native ones included; when the walk takes
    every flat node once, to the self times of all flat nodes.  Addition is
    taken to be associative and commutative. *)
Theorem C3_self_time_is_conserved obj d t :
  (∀ a b c : num, num_add a (num_add b c) = num_add (num_add a b) c) →
  (∀ a b : num, num_add a b = num_add b a) →
  spec_tree d (createFromObject obj) = Some t →
  ∃ n, ∀ fuel, n ≤ fuel →
    ∃ records taken,
      bottomUpNodes fuel (createFromObject obj) = Ok (createFromObject obj, records) ∧
      walked_nodes d (createFromObject obj) = Some taken ∧
      fold_left num_add (selfTime (root_data t) :: (selfTime <$> records)) num_zero =
        fold_left num_add (selfTime <$> taken) num_zero ∧
      (taken ≡ₚ nodes (createFromObject obj) →
       fold_left num_add (selfTime (root_data t) :: (selfTime <$> records)) num_zero =
         fold_left num_add (selfTime <$> nodes (createFromObject obj)) num_zero).
Proof.
  intros Hassoc Hcomm Hs. pose proof (has_children_createFromObject obj) as Hflat.
  set (p := createFromObject obj) in *.
  destruct (remainingNodeInfos_spec d p t Hflat Hs) as [n1 H1].
  destruct (bottomUpNodes_spec d p t Hflat Hs) as [n2 H2].
  assert (∃ t1, built_tree d p = Some t1 ∧ t = stamp_root (with_totals t1)) as (t1 & Hb & Ht).
  { unfold spec_tree in Hs. destruct (built_tree d p) as [t1|]; [|done].
    simpl in Hs. injection Hs as <-. eauto. }
  destruct (built_tree_walked Hassoc Hcomm d p t1 Hb) as (taken & Htaken & Hsum).
  exists (n1 + n2). intros fuel Hfuel.
  destruct (H1 fuel) as (arena & order & Hrem & Hperm & _ & Hlen & Har); [lia|].
  destruct (H2 fuel) as (_ & _ & _ & records & _ & Hbu & _); [lia|].
  exists records, taken. split; [done|]. split; [done|].
  (* the records add up to the nodes below the root *)
  unfold bottomUpNodes in Hbu. rewrite Hrem in Hbu. cbn [mbind Result_bind] in Hbu.
  apply bind_Ok in Hbu as (records' & Hfold & [= <-]).
  destruct (merge_sum Hassoc Hcomm _ _ _ _ Hfold) as (visited & Hv & Hrecs).
  { apply Forall_forall. by intros i (o & -> & _)%list_elem_of_fmap. }
  assert (order.*1 ≡ₚ seq 1 (tree_size t - 1)) as Hord.
  { apply (Permutation_cons_inv (a := 0)).
    transitivity (((0, @nil nat) :: order).*1); [done|].
    rewrite Hperm, chains_fst. destruct t. simpl. by rewrite Nat.sub_0_r. }
  assert (Forall (λ o : nat * list nat, o.1 < length (layout 0 t)) order) as Hlt.
  { apply Forall_forall. intros o Ho.
    assert (o.1 ∈ seq 1 (tree_size t - 1)) as Hin
      by (rewrite <- Hord; apply list_elem_of_fmap; eauto).
    rewrite elem_of_seq in Hin. rewrite length_layout. lia. }
  rewrite (visited_self_times arena (layout 0 t) order visited num_zero Har Hlt Hv) in Hrecs.
  assert (same_sum (selfTime (root_data t) :: (selfTime <$> records'))
            (selfTime <$> preorder t)) as Htree.
  { rewrite <- (layout_self 0 t).
    assert (1 + (tree_size t - 1) ≤ length (layout 0 t)) as Hle
      by (rewrite length_layout; destruct t; simpl; lia).
    pose proof (lookups_seq selfTime num_zero (layout 0 t) 1 (tree_size t - 1) Hle) as Hseq.
    assert (selfTime <$> layout 0 t =
            selfTime (root_data t) :: (selfTime <$> take (tree_size t - 1) (drop 1 (layout 0 t))))
      as ->.
    { destruct t as [d0 ks]. rewrite layout_Node.
      change (drop 1 (?x :: ?l)) with l. rewrite take_ge; [done|].
      rewrite length_layouts. simpl. unfold forest_size. lia. }
    rewrite <- Hseq.
    apply (same_sum_app [selfTime (root_data t)] [selfTime (root_data t)]); [done|].
    eapply same_sum_trans; [exact Hrecs|].
    apply same_sum_Permutation; [done|done|]. by rewrite Hord. }
  assert (same_sum (selfTime (root_data t) :: (selfTime <$> records')) (selfTime <$> taken))
    as Hall.
  { eapply same_sum_trans; [exact Htree|].
    rewrite Ht, stamp_root_self, with_totals_self. exact Hsum. }
  split; [apply Hall|].
  intros Hevery. rewrite Hall. apply same_sum_Permutation; [done|done|]. by rewrite Hevery.
Qed.

End SelfTimeProperty.

Lemma C3_witness :
  ∃ t, spec_tree 5 (createFromObject example_exact) = Some t ∧
  ∃ n, ∀ fuel, n ≤ fuel →
    ∃ records taken,
      bottomUpNodes fuel (createFromObject example_exact) =
        Ok (createFromObject example_exact, records) ∧
      walked_nodes 5 (createFromObject example_exact) = Some taken ∧
      fold_left num_add (selfTime (root_data t) :: (selfTime <$> records)) num_zero =
        fold_left num_add (selfTime <$> taken) num_zero ∧
      (taken ≡ₚ nodes (createFromObject example_exact) →
       fold_left num_add (selfTime (root_data t) :: (selfTime <$> records)) num_zero =
         fold_left num_add (selfTime <$> nodes (createFromObject example_exact)) num_zero).
Proof.
  eexists. split; [vm_compute; reflexivity|].
  apply (C3_self_time_is_conserved example_exact 5).
  - intros a b c. apply Qcplus_assoc.
  - intros a b. apply Qcplus_comm.
  - vm_compute. reflexivity.
Defined.

(** C3 as it is stated fails in two ways.  With hits in native frames, one
    below the root and one below A: the record of A holds 2 ms, the flat nodes
    that are not native hold 1 ms, all flat nodes hold 3 ms and the root of
    the tree keeps 1 ms.  With binary64 numbers and no native frame at all: the
    records are added in another order than the flat nodes, and the two sums
    differ in the last place. *)
Lemma C3_counterexample :
  (∃ p' arena root records,
     translatedRoot 10 (createFromObject native_profile) = Ok (p', arena) ∧
     arena !! 0 = Some root ∧ selfTime root = 1%float ∧
     bottomUpNodes 10 (createFromObject native_profile) = Ok (p', records) ∧
     fold_left num_add (selfTime <$> records) num_zero = 2%float ∧
     fold_left num_add
       (selfTime <$> filter (λ n, isNativeNode n = false)
                       (nodes (createFromObject native_profile))) num_zero = 1%float ∧
     fold_left num_add (selfTime <$> nodes (createFromObject native_profile)) num_zero
       = 3%float ∧
     fold_left num_add (selfTime <$> records) num_zero ≠
     fold_left num_add
       (selfTime <$> filter (λ n, isNativeNode n = false)
                       (nodes (createFromObject native_profile))) num_zero) ∧
  (∃ p' records,
     bottomUpNodes 10 (createFromObject rounding_profile) = Ok (p', records) ∧
     filter (λ n, isNativeNode n = false) (nodes (createFromObject rounding_profile)) =
       nodes (createFromObject rounding_profile) ∧
     fold_left num_add (selfTime <$> nodes (createFromObject rounding_profile)) num_zero
       = 1%float ∧
     PrimFloat.ltb (fold_left num_add (selfTime <$> records) num_zero) 1%float = true ∧
     fold_left num_add (selfTime <$> records) num_zero ≠
     fold_left num_add
       (selfTime <$> filter (λ n, isNativeNode n = false)
                       (nodes (createFromObject rounding_profile))) num_zero).
Proof.
  split.
  - eexists _, _, _, _. split; [vm_compute; reflexivity|].
    split; [vm_compute; reflexivity|]. split; [vm_compute; reflexivity|].
    split; [vm_compute; reflexivity|]. split; [vm_compute; reflexivity|].
    split; [vm_compute; reflexivity|]. split; [vm_compute; reflexivity|].
    intros Heq. apply (f_equal (λ x, PrimFloat.eqb x 1%float)) in Heq.
    vm_compute in Heq. discriminate.
  - eexists _, _. split; [vm_compute; reflexivity|].
    split; [vm_compute; reflexivity|]. split; [vm_compute; reflexivity|].
    split; [vm_compute; reflexivity|].
    intros Heq. apply (f_equal (λ x, PrimFloat.eqb x 1%float)) in Heq.
    vm_compute in Heq. discriminate.
Qed.

Section Errors.
Context {num : Type} `{JSNumber num}.
Implicit Types (flat arena : list (ProfileNode num)) (p : Profile num).

Lemma failed_bind {A B} (r : Result A) (k : A → Result B) :
  failed r → failed (r ≫= k).
Proof. by intros [-> | ->]; [left|right]. Qed.

Lemma failed_bind_r {A B} (r : Result A) (k : A → Result B) :
  (∀ a, r = Ok a → failed (k a)) → failed (r ≫= k).
Proof. destruct r; simpl; [eauto|by left|by right]. Qed.

Lemma walkPairs_dangling fuel idmap flat arena pairs :
  has_children flat →
  Exists (λ pr : nat * option nat, ∃ k, reaches_dangling k idmap flat pr.2 = true) pairs →
  failed (walkPairs fuel idmap flat arena pairs).
Proof.
  intros Hflat. revert arena pairs.
  induction fuel as [|fuel IH]; intros arena pairs Hex; [by right|].
  simpl. destruct pairs as [|[parentNode sourceNode] pairs]; [by apply Exists_nil in Hex|].
  destruct sourceNode as [src|]; [|by left]. simpl.
  destruct (flat !! src) as [node|] eqn:Hnode; [|by left]. simpl.
  assert (is_Some (children node)) as [cs Hcs].
  { unfold has_children in Hflat. rewrite Forall_forall in Hflat.
    apply Hflat. by eapply list_elem_of_lookup_2. }
  assert (∀ target,
    Exists (λ pr : nat * option nat, ∃ k, reaches_dangling k idmap flat pr.2 = true)
      (rev (map (λ c, (target, idmap !! c)) (default [] (children node))) ++ pairs)) as Hnext.
  { intros target. apply Exists_cons in Hex as [[k Hk]|Hrest].
    - apply Exists_app. left. destruct k as [|k]; [done|].
      simpl in Hk. rewrite Hnode in Hk.
      apply existsb_exists in Hk as (c & Hc & Hk).
      apply Exists_exists. exists (target, idmap !! c). split; [|by exists k].
      apply list_elem_of_In. rewrite <- in_rev. apply in_map_iff. eauto.
    - apply Exists_app. by right. }
  rewrite Hcs in Hnext |- *. simpl in Hnext |- *. rewrite ?Hcs.
  destruct (isNativeNode node); simpl; apply failed_bind_r; intros arena' _; apply IH, Hnext.
Qed.

Lemma translatedRoot_dangling k fuel p :
  has_children (nodes p) →
  reaches_dangling k (idToNodeMap p) (nodes p) (Some 0) = true →
  failed (translatedRoot fuel p).
Proof.
  intros Hflat Hk. unfold translatedRoot.
  destruct (nodes p !! 0) as [root|] eqn:Hroot; [|by left]. simpl.
  destruct (children root) as [cs|] eqn:Hcs; [|by left]. simpl.
  apply failed_bind. apply walkPairs_dangling; [done|].
  destruct k as [|k]; [done|]. simpl in Hk. rewrite Hroot, Hcs in Hk. simpl in Hk.
  apply existsb_exists in Hk as (c & Hc & Hk).
  apply Exists_exists. exists (0, idToNodeMap p !! c). split; [|by exists k].
  apply list_elem_of_In. rewrite <- in_rev. apply in_map_iff. eauto.
Qed.

Lemma sources_pushed (target : nat) (idmap : gmap nat nat) (cs : list nat)
    (pairs : list (nat * option nat)) :
  (rev (map (λ c, (target, idmap !! c)) cs) ++ pairs).*2 =
  rev (map (λ c, idmap !! c) cs) ++ pairs.*2.
Proof.
  rewrite fmap_app. f_equal.
  change (map snd (rev (map (λ c, (target, idmap !! c)) cs)) = rev (map (λ c, idmap !! c) cs)).
  by rewrite map_rev, map_map.
Qed.

(** When the loop pops an [undefined] source within [k] turns, it throws. *)
Lemma walkPairs_throws k fuel idmap flat arena pairs :
  has_children flat →
  Forall (λ n, is_Some (children n)) arena →
  Forall (λ pr : nat * option nat, pr.1 < length arena) pairs →
  pops_undefined k idmap flat pairs.*2 = true →
  k ≤ fuel →
  walkPairs fuel idmap flat arena pairs = TypeError.
Proof.
  intros Hflat. revert fuel arena pairs.
  induction k as [|k IH]; intros fuel arena pairs Harena Hpairs Hpop Hfuel; [done|].
  destruct fuel as [|fuel]; [lia|].
  destruct pairs as [|[parentNode sourceNode] pairs]; [done|].
  apply Forall_cons in Hpairs as [Hpar Hrest]. simpl in Hpar.
  destruct sourceNode as [src|]; [|done].
  cbn [pops_undefined fmap list_fmap snd] in Hpop.
  cbn [walkPairs defined mbind Result_bind].
  destruct (flat !! src) as [node|] eqn:Hnode; [|done].
  cbn [defined mbind Result_bind].
  assert (is_Some (children node)) as [cs Hcs] by (by eapply Forall_lookup_1 in Hflat).
  rewrite Hcs in Hpop. cbn [default] in Hpop.
  rewrite Hcs. cbn [default]. rewrite ?Hcs. cbn [default].
  apply lookup_lt_is_Some in Hpar as [pn Hpn].
  destruct (isNativeNode node); cbn [negb].
  - unfold add_selfTime. rewrite Hpn. cbn [defined mbind Result_bind].
    apply (IH fuel).
    + apply Forall_insert; [done|]. exact (Forall_lookup_1 _ _ _ _ Harena Hpn).
    + apply Forall_app. split.
      * apply Forall_rev, Forall_forall. intros pr Hpr.
        apply list_elem_of_In, in_map_iff in Hpr as (c & <- & _). simpl.
        rewrite length_insert. by eapply lookup_lt_Some.
      * eapply Forall_impl; [exact Hrest|]. intros pr Hp. simpl in *.
        by rewrite length_insert.
    + by rewrite sources_pushed.
    + lia.
  - unfold push_child. rewrite lookup_app_l by (by eapply lookup_lt_Some).
    rewrite Hpn. cbn [defined mbind Result_bind].
    destruct (Forall_lookup_1 _ _ _ _ Harena Hpn) as [pcs Hpcs].
    rewrite Hpcs. cbn [defined mbind Result_bind].
    apply (IH fuel).
    + apply Forall_insert; [|by eexists]. apply Forall_app. split; [done|].
      constructor; [by eexists|constructor].
    + apply Forall_app. split.
      * apply Forall_rev, Forall_forall. intros pr Hpr.
        apply list_elem_of_In, in_map_iff in Hpr as (c & <- & _). simpl.
        rewrite length_insert, length_app. simpl. lia.
      * eapply Forall_impl; [exact Hrest|]. intros pr Hp. simpl in *.
        rewrite length_insert, length_app. simpl. lia.
    + by rewrite sources_pushed.
    + lia.
Qed.

Lemma translatedRoot_throws k fuel p :
  has_children (nodes p) → walk_throws k p = true → k ≤ fuel →
  translatedRoot fuel p = TypeError.
Proof.
  intros Hflat Hk Hfuel. unfold walk_throws in Hk. unfold translatedRoot.
  destruct (nodes p !! 0) as [root|] eqn:Hroot; [|done]. cbn [defined mbind Result_bind].
  destruct (children root) as [cs|] eqn:Hcs; [|done]. cbn [defined mbind Result_bind].
  rewrite (walkPairs_throws k fuel); [done|done| | | |done].
  - constructor; [by eexists|constructor].
  - apply Forall_rev, Forall_forall. intros pr Hpr.
    apply list_elem_of_In, in_map_iff in Hpr as (c & <- & _). simpl. lia.
  - rewrite <- (app_nil_r (rev _)), sources_pushed. simpl. by rewrite app_nil_r.
Qed.

(** C4, as the code has it: no input is checked and no [InvalidProfile] is
    signalled.  When the loop of [translatedRoot], taking the pairs in its own
    order, pops a child id that has no node (or the profile has no root), the
    read of a property of [undefined] throws a [TypeError] and no getter
    answers.  When a child id that has no node can be reached from the root
    at all, [formattedBottomUpProfile] never has an output: the loop throws or
    does not end.  A profile on which the walk goes through has its output,
    whatever its hit counts and its times are. *)
Theorem C4_errors_of_the_walk obj :
  (∀ k, walk_throws k (createFromObject obj) = true →
        ∀ fuel, k ≤ fuel →
          translatedRoot fuel (createFromObject obj) = TypeError ∧
          remainingNodeInfos fuel (createFromObject obj) = TypeError ∧
          bottomUpNodes fuel (createFromObject obj) = TypeError ∧
          formattedBottomUpProfile fuel (createFromObject obj) = TypeError) ∧
  (∀ k, reaches_dangling k (idToNodeMap (createFromObject obj))
          (nodes (createFromObject obj)) (Some 0) = true →
        ∀ fuel, formattedBottomUpProfile fuel (createFromObject obj) = TypeError ∨
                formattedBottomUpProfile fuel (createFromObject obj) = OutOfFuel) ∧
  (∀ d t, spec_tree d (createFromObject obj) = Some t →
        ∃ n, ∀ fuel, n ≤ fuel →
          ∃ records,
            bottomUpNodes fuel (createFromObject obj) = Ok (createFromObject obj, records) ∧
            formattedBottomUpProfile fuel (createFromObject obj) =
              Ok (createFromObject obj, map format_node records)).
Proof.
  pose proof (has_children_createFromObject obj) as Hflat. split; [|split].
  - intros k Hk fuel Hfuel.
    pose proof (translatedRoot_throws k fuel _ Hflat Hk Hfuel) as Ht.
    assert (remainingNodeInfos fuel (createFromObject obj) = TypeError) as Hr
      by (unfold remainingNodeInfos; by rewrite Ht).
    assert (bottomUpNodes fuel (createFromObject obj) = TypeError) as Hb
      by (unfold bottomUpNodes; by rewrite Hr).
    repeat split; try done. unfold formattedBottomUpProfile. by rewrite Hb.
  - intros k Hk fuel.
    change (failed (formattedBottomUpProfile fuel (createFromObject obj))).
    unfold formattedBottomUpProfile, bottomUpNodes, remainingNodeInfos.
    do 3 apply failed_bind. by eapply translatedRoot_dangling.
  - intros d t Hs. destruct (bottomUpNodes_spec d _ t Hflat Hs) as [n Hn].
    exists n. intros fuel Hfuel.
    destruct (Hn fuel Hfuel) as (_ & _ & _ & records & _ & Hb & _).
    exists records. split; [done|]. unfold formattedBottomUpProfile. by rewrite Hb.
Qed.

End Errors.

Lemma C4_witness :
  (translatedRoot 10 (createFromObject dangling_profile) = TypeError ∧
   remainingNodeInfos 10 (createFromObject dangling_profile) = TypeError ∧
   bottomUpNodes 10 (createFromObject dangling_profile) = TypeError ∧
   formattedBottomUpProfile 10 (createFromObject dangling_profile) = TypeError) ∧
  (formattedBottomUpProfile 10 (createFromObject hanging_profile) = TypeError ∨
   formattedBottomUpProfile 10 (createFromObject hanging_profile) = OutOfFuel) ∧
  ∃ n, ∀ fuel, n ≤ fuel →
    ∃ records,
      bottomUpNodes fuel (createFromObject idle_profile) =
        Ok (createFromObject idle_profile, records) ∧
      formattedBottomUpProfile fuel (createFromObject idle_profile) =
        Ok (createFromObject idle_profile, map format_node records).
Proof.
  split; [|split].
  - apply (proj1 (C4_errors_of_the_walk dangling_profile) 5); [vm_compute; reflexivity|lia].
  - apply (proj1 (proj2 (C4_errors_of_the_walk hanging_profile)) 5). vm_compute. reflexivity.
  - eapply (proj2 (proj2 (C4_errors_of_the_walk idle_profile)) 5). vm_compute. reflexivity.
Defined.

(** C4 as it is stated fails: a profile without a hit has an infinite
    sampling interval and an output whose times are not numbers, and a profile
    that ends before it starts has an output with negative times. *)
Lemma C4_counterexample :
  (totalHitCount (nodes (createFromObject idle_profile)) = 0%float ∧
   samplingInterval (createFromObject idle_profile) = Some infinity ∧
   ∃ p', formattedBottomUpProfile 10 (createFromObject idle_profile) =
     Ok (p', [ {| out_functionName := "A"; out_selfTime := nan; out_totalTime := nan |} ])) ∧
  (PrimFloat.ltb (raw_endTime backwards_profile) (raw_startTime backwards_profile) = true ∧
   samplingInterval (createFromObject backwards_profile) = Some (-500)%float ∧
   ∃ p', formattedBottomUpProfile 10 (createFromObject backwards_profile) =
     Ok (p', [ {| out_functionName := "A"; out_selfTime := (-2)%float;
                  out_totalTime := (-2)%float |} ])).
Proof.
  split; (split; [vm_compute; reflexivity|]); (split; [vm_compute; reflexivity|]);
    eexists; vm_compute; reflexivity.
Qed.

Section AnonymousProperty.
Context {num : Type} `{JSNumber num}.
Implicit Types (obj : RawProfile num) (t : tree num) (p : Profile num).

(** C8, as the code has it: the constructor renders the [callUID] of a flat
    node from the frame as it is given, and puts the placeholder in the place
    of an empty name after that; the nodes of the tree are made from the flat
    nodes as named, and their [callUID] is rendered from the name they then
    have.  Every node of the tree below the root that has the placeholder name
    is in the one record whose key is the placeholder name with the script id
    and the line of the node; when the script id is free of [@], that record
    is reported under the placeholder name. *)
Theorem C8_anonymous_call_sites obj d t :
  spec_tree d (createFromObject obj) = Some t →
  Forall2 (λ raw n, callFrame n = named (raw_callFrame raw) ∧
                    callUID n = render_callUID (raw_callFrame raw))
    (raw_nodes obj) (nodes (createFromObject obj)) ∧
  (∀ a node, layout 0 t !! a = Some node →
     callUID node = render_callUID (callFrame node) ∧
     ∃ raw, raw ∈ raw_nodes obj ∧ callFrame node = named (raw_callFrame raw)) ∧
  ∃ n, ∀ fuel, n ≤ fuel →
    ∃ records,
      bottomUpNodes fuel (createFromObject obj) = Ok (createFromObject obj, records) ∧
      ∀ a node,
        0 < a → layout 0 t !! a = Some node →
        functionName (callFrame node) = anonymous_name →
        ∃ r, r ∈ records ∧
          callUID r = anonymous_name +:+ "@" +:+ scriptId (callFrame node) +:+ ":" +:+
                        NilZero.string_of_int (Z.to_int (lineNumber (callFrame node))) ∧
          (∀ r', r' ∈ records → callUID r' = callUID r → r' = r) ∧
          (has_char "@" (scriptId (callFrame node)) = false →
           out_functionName (format_node r) = anonymous_name).
Proof.
  intros Hs. split; [apply createFromObject_frames|].
  split; [intros a node; by apply (tree_node_frame obj d)|].
  pose proof (has_children_createFromObject obj) as Hflat.
  destruct (bottomUpNodes_spec d _ t Hflat Hs) as [n Hn].
  exists n. intros fuel Hfuel.
  destruct (Hn fuel Hfuel) as (arena & order & occ & records & _ & Hb & Hperm & _ & Hocc & Hm).
  exists records. split; [done|]. intros a node Ha Hnode Hname.
  destruct (tree_node_frame obj d t a node Hs Hnode) as [Hkey _].
  (* the node is an occurrence *)
  assert (∃ f, (node, f) ∈ occ) as [f Hin].
  { assert (a ∈ ((0, @nil nat) :: order).*1) as Hmem.
    { rewrite Hperm, chains_fst, elem_of_seq. apply lookup_lt_Some in Hnode.
      rewrite length_layout in Hnode. lia. }
    simpl in Hmem. apply elem_of_cons in Hmem as [->|Hmem]; [lia|].
    apply list_elem_of_fmap in Hmem as (o & -> & Ho).
    apply list_elem_of_lookup_1 in Ho as (j & Hj).
    destruct (Forall2_lookup_l _ _ _ _ _ Hocc Hj) as ([n' f] & Hoc & Hn' & _).
    simpl in Hn'. rewrite Hnode in Hn'. injection Hn' as <-.
    exists f. by eapply list_elem_of_lookup_2. }
  destruct Hm as [Hkeys Hrecs].
  assert (callUID node ∈ callUID <$> records) as Hrec.
  { rewrite Hkeys, elem_of_first_seen. apply list_elem_of_fmap. exists node.
    split; [done|]. apply list_elem_of_fmap. by exists (node, f). }
  apply list_elem_of_fmap in Hrec as (r & Hr & Hrin).
  exists r. split; [done|]. split; [|split].
  - rewrite <- Hr, Hkey. unfold render_callUID. by rewrite Hname.
  - intros r' Hr' Hsame. symmetry. eapply (NoDup_fmap_eq callUID); [|done..].
    rewrite Hkeys. apply NoDup_first_seen.
  - intros Hscript.
    destruct (merged_record records occ r (conj Hkeys Hrecs) Hrin)
      as (n0 & f0 & rest & Hocc0 & Hin0 & Hg).
    apply (group_record_callFrame occ) in Hg.
    assert (callUID n0 = callUID r) as Hn0.
    { assert ((n0, f0) ∈ occurrences_of (callUID r) occ) as Hin'
        by (rewrite Hocc0; apply list_elem_of_here).
      unfold occurrences_of in Hin'. by apply list_elem_of_filter in Hin' as [? _]. }
    apply list_elem_of_lookup_1 in Hin0 as (j & Hj).
    destruct (Forall2_lookup_r _ _ _ _ _ Hocc Hj) as (o & _ & Ho & _). simpl in Ho.
    destruct (tree_node_frame obj d t _ n0 Hs Ho) as [Hkey0 _].
    unfold format_node. simpl. rewrite Hg.
    apply (render_callUID_anonymous (callFrame node)); [done|done|].
    by rewrite <- Hkey0, <- Hkey, Hn0.
Qed.

End AnonymousProperty.

Lemma C8_witness :
  ∃ t, spec_tree 5 (createFromObject example_profile) = Some t ∧
  Forall2 (λ raw n, callFrame n = named (raw_callFrame raw) ∧
                    callUID n = render_callUID (raw_callFrame raw))
    (raw_nodes example_profile) (nodes (createFromObject example_profile)) ∧
  (∀ a node, layout 0 t !! a = Some node →
     callUID node = render_callUID (callFrame node) ∧
     ∃ raw, raw ∈ raw_nodes example_profile ∧ callFrame node = named (raw_callFrame raw)) ∧
  ∃ n, ∀ fuel, n ≤ fuel →
    ∃ records,
      bottomUpNodes fuel (createFromObject example_profile) =
        Ok (createFromObject example_profile, records) ∧
      ∀ a node,
        0 < a → layout 0 t !! a = Some node →
        functionName (callFrame node) = anonymous_name →
        ∃ r, r ∈ records ∧
          callUID r = anonymous_name +:+ "@" +:+ scriptId (callFrame node) +:+ ":" +:+
                        NilZero.string_of_int (Z.to_int (lineNumber (callFrame node))) ∧
          (∀ r', r' ∈ records → callUID r' = callUID r → r' = r) ∧
          (has_char "@" (scriptId (callFrame node)) = false →
           out_functionName (format_node r) = anonymous_name).
Proof.
  eexists. split; [vm_compute; reflexivity|].
  apply (C8_anonymous_call_sites example_profile 5). vm_compute. reflexivity.
Defined.

(** C8 as it is stated fails in two places.  The [callUID] of a flat node is
    rendered by the constructor of [ProfileNode], before the constructor of
    [Profile] puts the placeholder in: the flat node of the anonymous function
    keeps the key of the empty name, and only the nodes of the tree have the
    key of the placeholder.  And the key of an anonymous call site can be the
    key of a named one: the anonymous function of script [1@2] at line 3 and
    the function [(anonymous function)@1] of script [2] at line 3 have one
    record, the named one is visited first, and the record is reported under
    its name. *)
Lemma C8_counterexample :
  functionName <$> (raw_callFrame <$> raw_nodes collision_profile) =
    ["(root)"; ""; "(anonymous function)@1"] ∧
  callUID <$> nodes (createFromObject collision_profile) =
    ["(root)@0:-1"; "@1@2:3"; "(anonymous function)@1@2:3"] ∧
  (∃ p' arena,
     translatedRoot 10 (createFromObject collision_profile) = Ok (p', arena) ∧
     (λ n, (functionName (callFrame n), callUID n)) <$> arena =
       [ ("(root)", "(root)@0:-1");
         ("(anonymous function)@1", "(anonymous function)@1@2:3");
         ("(anonymous function)", "(anonymous function)@1@2:3") ]) ∧
  ∃ p', formattedBottomUpProfile 10 (createFromObject collision_profile) =
    Ok (p', [ {| out_functionName := "(anonymous function)@1";
                 out_selfTime := 2%float; out_totalTime := 2%float |} ]).
Proof.
  split; [reflexivity|]. split; [vm_compute; reflexivity|].
  split; [eexists _, _; split; vm_compute; reflexivity|].
  eexists. vm_compute. reflexivity.
Qed.

(** * Further properties of the code *)

(** ** The map from ids to nodes *)

Section IdMap.
Context {num : Type} `{JSNumber num}.
Implicit Types (ns : list (ProfileNode num)) (obj : RawProfile num).

Lemma fold_idmap_snoc ns (x : ProfileNode num) (m : gmap nat nat) :
  fold_left (λ m '(i, node), <[id node := i]> m) (imap pair (ns ++ [x])) m =
  <[id x := length ns]> (fold_left (λ m '(i, node), <[id node := i]> m) (imap pair ns) m).
Proof. rewrite imap_app, fold_left_app. simpl. by rewrite Nat.add_0_r. Qed.

(** The map built by [_createIdToNodeMap] from the empty map: an id is sent
    to the last position that holds it. *)
Lemma fold_idmap_lookup ns i :
  match fold_left (λ m '(i, node), <[id node := i]> m) (imap pair ns) (∅ : gmap nat nat) !! i with
  | Some k => (id <$> ns) !! k = Some i ∧ ∀ k', k < k' → (id <$> ns) !! k' ≠ Some i
  | None => i ∉ id <$> ns
  end.
Proof.
  induction ns as [|x ns IH] using rev_ind.
  - simpl. rewrite lookup_empty. apply not_elem_of_nil.
  - rewrite fold_idmap_snoc, fmap_app. simpl.
    destruct (decide (id x = i)) as [<-|Hne].
    + rewrite lookup_insert_eq. split.
      * rewrite lookup_app_r by (by rewrite length_fmap).
        by rewrite length_fmap, Nat.sub_diag.
      * intros k' Hk'. rewrite lookup_ge_None_2; [done|].
        rewrite length_app, length_fmap. simpl. lia.
    + rewrite lookup_insert_ne by done.
      destruct (fold_left _ _ _ !! i) as [k|].
      * destruct IH as [Hk Hlast]. pose proof (lookup_lt_Some _ _ _ Hk) as Hlt.
        split; [by rewrite lookup_app_l|].
        intros k' Hk'. destruct (decide (k' < length (id <$> ns))) as [Hin|Hout].
        -- rewrite lookup_app_l by done. by apply Hlast.
        -- rewrite lookup_app_r by lia.
           destruct (k' - length (id <$> ns)) as [|j]; simpl; [congruence|done].
      * rewrite not_elem_of_app. split; [done|]. rewrite list_elem_of_singleton. congruence.
Qed.

Lemma ids_createFromObject obj :
  id <$> nodes (createFromObject obj) = raw_id <$> raw_nodes obj.
Proof.
  unfold createFromObject. rewrite nodes_new_Profile.
  rewrite <- !list_fmap_compose. apply list_fmap_ext. intros _ raw _. simpl.
  by destruct (String.eqb _ _).
Qed.

Lemma idToNodeMap_createFromObject obj :
  idToNodeMap (createFromObject obj) =
  fold_left (λ m '(i, node), <[id node := i]> m)
    (imap pair (ProfileNode_createFromObject <$> raw_nodes obj)) ∅.
Proof. reflexivity. Qed.

(** X1: [_idToNodeMap.get(i)] of a constructed profile is the last flat node
    whose id is [i], and nothing when no flat node has the id; when the ids
    are all different, the flat node at every position is the one the map
    answers for its id. *)
Theorem X1_idToNodeMap_is_last_node_of_id obj :
  (∀ i, match idToNodeMap (createFromObject obj) !! i with
        | Some k =>
            (∃ node, nodes (createFromObject obj) !! k = Some node ∧ id node = i) ∧
            (∀ k' node', k < k' → nodes (createFromObject obj) !! k' = Some node' →
                         id node' ≠ i)
        | None => ∀ node, node ∈ nodes (createFromObject obj) → id node ≠ i
        end) ∧
  (NoDup (raw_id <$> raw_nodes obj) →
   ∀ k node, nodes (createFromObject obj) !! k = Some node →
             idToNodeMap (createFromObject obj) !! id node = Some k).
Proof.
  assert (∀ i, match idToNodeMap (createFromObject obj) !! i with
               | Some k => (id <$> nodes (createFromObject obj)) !! k = Some i ∧
                           ∀ k', k < k' → (id <$> nodes (createFromObject obj)) !! k' ≠ Some i
               | None => i ∉ id <$> nodes (createFromObject obj)
               end) as Hall.
  { intros i. rewrite ids_createFromObject, idToNodeMap_createFromObject.
    pose proof (fold_idmap_lookup (ProfileNode_createFromObject <$> raw_nodes obj) i) as Hl.
    rewrite <- list_fmap_compose in Hl. exact Hl. }
  split.
  - intros i. specialize (Hall i).
    destruct (idToNodeMap (createFromObject obj) !! i) as [k|].
    + destruct Hall as [Hk Hlast]. split.
      * rewrite list_lookup_fmap in Hk.
        destruct (nodes (createFromObject obj) !! k) as [node|]; [|done].
        exists node. split; [done|]. by injection Hk.
      * intros k' node' Hk' Hnode' Hid. apply (Hlast k' Hk').
        by rewrite list_lookup_fmap, Hnode', <- Hid.
    + intros node Hin Hid. apply Hall. rewrite <- Hid. by apply list_elem_of_fmap_2.
  - intros Hnd k node Hnode. specialize (Hall (id node)).
    rewrite <- ids_createFromObject in Hnd.
    assert ((id <$> nodes (createFromObject obj)) !! k = Some (id node)) as Hk
      by (by rewrite list_lookup_fmap, Hnode).
    destruct (idToNodeMap (createFromObject obj) !! id node) as [k0|].
    + destruct Hall as [Hk0 _]. f_equal. by eapply NoDup_lookup.
    + exfalso. apply Hall. by eapply list_elem_of_lookup_2.
Qed.

End IdMap.

Lemma X1_witness :
  ∃ node, nodes (createFromObject example_profile) !! 3 = Some node ∧
          idToNodeMap (createFromObject example_profile) !! id node = Some 3.
Proof.
  eexists. split; [vm_compute; reflexivity|].
  apply (proj2 (X1_idToNodeMap_is_last_node_of_id example_profile)).
  - apply (bool_decide_unpack _). vm_compute. exact I.
  - vm_compute. reflexivity.
Defined.

(** ** The mark of a native frame *)

Section NativeMarker.
Context {num : Type} `{JSNumber num}.

Lemma prefix_app (s1 s2 : string) : String.prefix s1 s2 = true ↔ ∃ rest, s2 = s1 +:+ rest.
Proof.
  revert s2. induction s1 as [|a s1 IH]; intros s2.
  - split; [intros _; by exists s2|by destruct s2].
  - destruct s2 as [|b s2].
    + split; [done|intros [rest Hrest]; done].
    + cbn [String.prefix]. destruct (Ascii.ascii_dec a b) as [->|Hne].
      * rewrite IH. split; intros [rest Hrest]; exists rest.
        -- rewrite Hrest. reflexivity.
        -- change (String b s1 +:+ rest) with (String b (s1 +:+ rest)) in Hrest.
           by injection Hrest.
      * split; [done|]. intros [rest Hrest].
        change (String a s1 +:+ rest) with (String a (s1 +:+ rest)) in Hrest.
        injection Hrest as <- _. done.
Qed.

(** X2: a node is native exactly when the [url] of its call frame begins
    with [native ] (with the blank); the test for an empty [url] that comes
    first changes nothing. *)
Theorem X2_native_is_url_prefix (node : ProfileNode num) :
  (isNativeNode node = true ↔ ∃ rest, url (callFrame node) = "native " +:+ rest) ∧
  isNativeNode node = String.prefix "native " (url (callFrame node)).
Proof.
  assert (isNativeNode node = String.prefix "native " (url (callFrame node))) as Heq.
  { unfold isNativeNode. destruct (url (callFrame node)) as [|a u]; [done|].
    by destruct (String.prefix "native " (String a u)). }
  split; [|done]. rewrite Heq. apply prefix_app.
Qed.

End NativeMarker.

(** ** A profile without nodes, a root without children *)

Section Edges.
Context {num : Type} `{JSNumber num}.
Implicit Types (obj : RawProfile num) (t : tree num).

(** X3: a profile without nodes is constructed, with the elapsed time
    divided by the empty sum as its sampling interval, and every getter
    throws when it reads [nodes[0]], whatever the bound on the steps. *)
Theorem X3_empty_profile_throws obj fuel :
  raw_nodes obj = [] →
  samplingInterval (createFromObject obj) =
    Some (num_div (num_sub (raw_endTime obj) (raw_startTime obj)) num_zero) ∧
  translatedRoot fuel (createFromObject obj) = TypeError ∧
  remainingNodeInfos fuel (createFromObject obj) = TypeError ∧
  bottomUpNodes fuel (createFromObject obj) = TypeError ∧
  formattedBottomUpProfile fuel (createFromObject obj) = TypeError.
Proof.
  intros Hnil.
  assert (nodes (createFromObject obj) = []) as Hnodes.
  { unfold createFromObject. rewrite nodes_new_Profile. by rewrite Hnil. }
  assert (translatedRoot fuel (createFromObject obj) = TypeError) as Ht.
  { unfold translatedRoot. by rewrite Hnodes. }
  assert (remainingNodeInfos fuel (createFromObject obj) = TypeError) as Hr.
  { unfold remainingNodeInfos. by rewrite Ht. }
  assert (bottomUpNodes fuel (createFromObject obj) = TypeError) as Hb.
  { unfold bottomUpNodes. by rewrite Hr. }
  split; [|split; [done|split; [done|split; [done|]]]].
  - unfold createFromObject. rewrite Hnil. reflexivity.
  - unfold formattedBottomUpProfile. by rewrite Hb.
Qed.

(** X4: when the root of a constructed profile has no children, the tree
    is the root alone, with its self time for its total time, depth -1 and
    no parent; [remainingNodeInfos] has no entry and the bottom-up profile is
    empty. *)
Theorem X4_root_without_children obj root :
  nodes (createFromObject obj) !! 0 = Some root →
  children root = Some [] →
  ∃ n, ∀ fuel, n ≤ fuel →
    ∃ node arena,
      translatedRoot fuel (createFromObject obj) = Ok (createFromObject obj, [node]) ∧
      id node = id root ∧ callFrame node = callFrame root ∧
      selfTime node = selfTime root ∧ totalTime node = selfTime root ∧
      children node = Some [] ∧ depth node = Some (-1)%Z ∧ parent node = None ∧
      remainingNodeInfos fuel (createFromObject obj) = Ok (createFromObject obj, arena, []) ∧
      bottomUpNodes fuel (createFromObject obj) = Ok (createFromObject obj, []) ∧
      formattedBottomUpProfile fuel (createFromObject obj) = Ok (createFromObject obj, []).
Proof.
  intros Hroot Hcs. pose proof (has_children_createFromObject obj) as Hflat.
  set (p := createFromObject obj) in *.
  set (t := Node (set_depth_parent (Some (-1)%Z) None
                    (set_totalTime (selfTime root)
                       (set_selfTime (selfTime root) (cloneWithoutChildren root)))) []).
  assert (spec_tree 0 p = Some t) as Hs.
  { unfold spec_tree, built_tree. rewrite Hroot. simpl. rewrite Hcs. reflexivity. }
  destruct (translatedRoot_spec 0 p t Hflat Hs) as [n1 H1].
  destruct (bottomUpNodes_spec 0 p t Hflat Hs) as [n2 H2].
  exists (n1 + n2). intros fuel Hfuel.
  destruct (H2 fuel) as (arena & order & occ & records & Hr & Hb & Hperm & _ & Hocc & Hm); [lia|].
  assert (order = []) as ->.
  { apply Permutation_length in Hperm. simpl in Hperm. by destruct order. }
  apply Forall2_nil_inv_l in Hocc as ->.
  destruct Hm as [Hkeys _]. simpl in Hkeys. apply fmap_nil_inv in Hkeys as ->.
  eexists _, arena. split; [apply H1; lia|].
  repeat split; try done. unfold formattedBottomUpProfile. by rewrite Hb.
Qed.

End Edges.

Lemma X3_witness :
  samplingInterval (createFromObject empty_profile) = Some infinity ∧
  translatedRoot 10 (createFromObject empty_profile) = TypeError ∧
  formattedBottomUpProfile 10 (createFromObject empty_profile) = TypeError.
Proof.
  pose proof (X3_empty_profile_throws empty_profile 10 eq_refl) as (Hs & Ht & _ & _ & Hf).
  split; [exact Hs|]. split; [exact Ht|exact Hf].
Defined.

Lemma X4_witness :
  ∃ root,
    nodes (createFromObject lone_root_profile) !! 0 = Some root ∧
    ∃ n, ∀ fuel, n ≤ fuel →
      ∃ node arena,
        translatedRoot fuel (createFromObject lone_root_profile) =
          Ok (createFromObject lone_root_profile, [node]) ∧
        id node = id root ∧ callFrame node = callFrame root ∧
        selfTime node = selfTime root ∧ totalTime node = selfTime root ∧
        children node = Some [] ∧ depth node = Some (-1)%Z ∧ parent node = None ∧
        remainingNodeInfos fuel (createFromObject lone_root_profile) =
          Ok (createFromObject lone_root_profile, arena, []) ∧
        bottomUpNodes fuel (createFromObject lone_root_profile) =
          Ok (createFromObject lone_root_profile, []) ∧
        formattedBottomUpProfile fuel (createFromObject lone_root_profile) =
          Ok (createFromObject lone_root_profile, []).
Proof.
  eexists. split; [vm_compute; reflexivity|].
  apply X4_root_without_children; vm_compute; reflexivity.
Defined.

(** ** Children that lead back *)

Section Cycles.
Context {num : Type} `{JSNumber num}.
Implicit Types (obj : RawProfile num) (flat arena : list (ProfileNode num)).

Lemma idToNodeMap_bound obj c j :
  idToNodeMap (createFromObject obj) !! c = Some j → j < length (nodes (createFromObject obj)).
Proof.
  intros Hj. rewrite <- (length_fmap id), ids_createFromObject.
  rewrite idToNodeMap_createFromObject in Hj.
  pose proof (fold_idmap_lookup (ProfileNode_createFromObject <$> raw_nodes obj) c) as Hl.
  rewrite Hj in Hl. destruct Hl as [Hl _]. apply lookup_lt_Some in Hl.
  by rewrite <- list_fmap_compose in Hl.
Qed.

(** The walk from a pair whose source lies in a set [s] that is closed under
    children does not end, when every child id resolves. *)
Lemma walkPairs_cycle fuel idmap flat s arena pairs :
  has_children flat →
  Forall (λ node, Forall (λ c, ∃ j, idmap !! c = Some j ∧ j < length flat)
                    (default [] (children node))) flat →
  closed_under_children idmap flat s = true →
  Forall (λ n, is_Some (children n)) arena →
  Forall (λ pr : nat * option nat,
            pr.1 < length arena ∧ ∃ j, pr.2 = Some j ∧ j < length flat) pairs →
  Exists (λ pr : nat * option nat, ∃ j, pr.2 = Some j ∧ j ∈ s) pairs →
  walkPairs fuel idmap flat arena pairs = OutOfFuel.
Proof.
  intros Hflat Hres Hclosed. revert arena pairs.
  induction fuel as [|fuel IH]; intros arena pairs Harena Hpairs Hbad; [done|].
  destruct pairs as [|[parentNode sourceNode] pairs]; [by apply Exists_nil in Hbad|].
  apply Forall_cons in Hpairs as [[Hpar (src & Heq & Hsrc)] Hrest].
  simpl in Hpar, Heq. subst sourceNode.
  apply lookup_lt_is_Some in Hsrc as [node Hnode].
  assert (is_Some (children node)) as [cs Hcs] by (by eapply Forall_lookup_1 in Hflat).
  pose proof (Forall_lookup_1 _ _ _ _ Hres Hnode) as Hkids.
  cbv beta in Hkids. rewrite Hcs in Hkids. simpl in Hkids.
  (* the pairs of the children *)
  assert (∀ target arena',
    target < length arena' → length arena ≤ length arena' →
    Forall (λ pr : nat * option nat,
              pr.1 < length arena' ∧ ∃ j, pr.2 = Some j ∧ j < length flat)
      (rev (map (λ c, (target, idmap !! c)) cs) ++ pairs)) as Hnext.
  { intros target arena' Htarget Hlen. apply Forall_app. split.
    - apply Forall_rev, Forall_forall. intros pr Hpr.
      apply list_elem_of_In, in_map_iff in Hpr as (c & <- & Hc). apply list_elem_of_In in Hc.
      rewrite Forall_forall in Hkids. destruct (Hkids c Hc) as (j & Hj & Hlt).
      simpl. split; [done|]. by exists j.
    - eapply Forall_impl; [exact Hrest|]. simpl. intros pr [Hp Hs]. split; [lia|done]. }
  assert (∀ target,
    Exists (λ pr : nat * option nat, ∃ j, pr.2 = Some j ∧ j ∈ s)
      (rev (map (λ c, (target, idmap !! c)) cs) ++ pairs)) as Hbad'.
  { intros target. apply Exists_cons in Hbad as [(j & [= <-] & Hj)|Hbad].
    - apply Exists_app. left.
      unfold closed_under_children in Hclosed. rewrite forallb_forall in Hclosed.
      apply list_elem_of_In in Hj. specialize (Hclosed _ Hj).
      rewrite Hnode, Hcs in Hclosed. simpl in Hclosed.
      apply existsb_exists in Hclosed as (c & Hc & Hin).
      destruct (idmap !! c) as [j'|] eqn:Hj'; [|done]. apply bool_decide_eq_true in Hin.
      apply Exists_exists. exists (target, idmap !! c). split.
      + apply list_elem_of_In. rewrite <- in_rev. apply in_map_iff. eauto.
      + exists j'. by rewrite Hj'.
    - apply Exists_app. by right. }
  apply lookup_lt_is_Some in Hpar as [pn Hpn].
  cbn [walkPairs]. cbn [defined mbind Result_bind]. rewrite Hnode. cbn [defined mbind Result_bind].
  rewrite Hcs. cbn [default]. rewrite ?Hcs. cbn [default].
  destruct (isNativeNode node); cbn [negb].
  - unfold add_selfTime. rewrite Hpn. cbn [defined mbind Result_bind].
    apply IH.
    + apply Forall_insert; [done|]. exact (Forall_lookup_1 _ _ _ _ Harena Hpn).
    + apply Hnext; rewrite length_insert; [by eapply lookup_lt_Some|done].
    + apply Hbad'.
  - unfold push_child. rewrite lookup_app_l by (by eapply lookup_lt_Some).
    rewrite Hpn. cbn [defined mbind Result_bind].
    destruct (Forall_lookup_1 _ _ _ _ Harena Hpn) as [pcs Hpcs].
    rewrite Hpcs. cbn [defined mbind Result_bind].
    apply IH.
    + apply Forall_insert; [|by eexists]. apply Forall_app. split; [done|].
      constructor; [by eexists|constructor].
    + apply Hnext; rewrite length_insert, length_app; simpl; lia.
    + apply Hbad'.
Qed.

(** X5: when every child id of a constructed profile resolves and there is
    a set of flat nodes that holds the root and, for each of its nodes, one
    of the children of that node, the loop of [translatedRoot] does not end:
    whatever the bound on its steps, no getter answers and nothing is
    thrown. *)
Theorem X5_cyclic_children_never_end obj s :
  Forall (λ node, Forall (λ c, is_Some (idToNodeMap (createFromObject obj) !! c))
                    (default [] (children node))) (nodes (createFromObject obj)) →
  closed_under_children (idToNodeMap (createFromObject obj))
    (nodes (createFromObject obj)) s = true →
  0 ∈ s →
  ∀ fuel,
    translatedRoot fuel (createFromObject obj) = OutOfFuel ∧
    remainingNodeInfos fuel (createFromObject obj) = OutOfFuel ∧
    bottomUpNodes fuel (createFromObject obj) = OutOfFuel ∧
    formattedBottomUpProfile fuel (createFromObject obj) = OutOfFuel.
Proof.
  intros Hres Hclosed H0 fuel. pose proof (has_children_createFromObject obj) as Hflat.
  set (p := createFromObject obj) in *.
  assert (translatedRoot fuel p = OutOfFuel) as Ht.
  { pose proof Hclosed as Hc0. unfold closed_under_children in Hc0.
    rewrite forallb_forall in Hc0. apply list_elem_of_In in H0. specialize (Hc0 0 H0).
    unfold translatedRoot. destruct (nodes p !! 0) as [root|] eqn:Hroot; [|done].
    cbn [defined mbind Result_bind].
    assert (is_Some (children root)) as [cs Hcs] by (by eapply Forall_lookup_1 in Hflat).
    rewrite Hcs in Hc0 |- *. cbn [defined mbind Result_bind default] in *.
    rewrite (walkPairs_cycle fuel (idToNodeMap p) (nodes p) s); [done|done| |done| | |].
    - eapply Forall_impl; [exact Hres|]. intros node Hnode. simpl in Hnode.
      eapply Forall_impl; [exact Hnode|]. intros c [j Hj]. simpl in Hj.
      exists j. split; [done|]. by eapply idToNodeMap_bound.
    - constructor; [by eexists|constructor].
    - apply Forall_rev, Forall_forall. intros pr Hpr.
      apply list_elem_of_In, in_map_iff in Hpr as (c & <- & Hc). apply list_elem_of_In in Hc.
      pose proof (Forall_lookup_1 _ _ _ _ Hres Hroot) as Hkids.
      cbv beta in Hkids. rewrite Hcs in Hkids.
      simpl in Hkids. rewrite Forall_forall in Hkids. destruct (Hkids c Hc) as [j Hj].
      simpl. split; [lia|]. exists j. split; [done|]. by eapply idToNodeMap_bound.
    - apply existsb_exists in Hc0 as (c & Hc & Hin).
      destruct (idToNodeMap p !! c) as [j|] eqn:Hj; [|done]. apply bool_decide_eq_true in Hin.
      apply Exists_exists. exists (0, idToNodeMap p !! c). split.
      + apply list_elem_of_In. rewrite <- in_rev. apply in_map_iff. eauto.
      + exists j. by rewrite Hj. }
  assert (remainingNodeInfos fuel p = OutOfFuel) as Hr
    by (unfold remainingNodeInfos; by rewrite Ht).
  assert (bottomUpNodes fuel p = OutOfFuel) as Hb by (unfold bottomUpNodes; by rewrite Hr).
  repeat split; try done. unfold formattedBottomUpProfile. by rewrite Hb.
Qed.

End Cycles.

Lemma X5_witness :
  translatedRoot 50 (createFromObject cyclic_profile) = OutOfFuel ∧
  remainingNodeInfos 50 (createFromObject cyclic_profile) = OutOfFuel ∧
  bottomUpNodes 50 (createFromObject cyclic_profile) = OutOfFuel ∧
  formattedBottomUpProfile 50 (createFromObject cyclic_profile) = OutOfFuel.
Proof.
  apply (X5_cyclic_children_never_end cyclic_profile [0; 1; 2]).
  - apply (bool_decide_unpack _). vm_compute. exact I.
  - vm_compute. reflexivity.
  - apply (bool_decide_unpack _). vm_compute. exact I.
Defined.

(** ** Depths and parents *)

Section Links.
Context {num : Type} `{JSNumber num}.
Implicit Types (obj : RawProfile num) (t : tree num) (ks ts : list (tree num)) (p : Profile num).

Lemma forest_stamp_roots par dp b ks :
  Forall (λ k, parent (root_data k) = Some par ∧ depth (root_data k) = Some dp)
    (forest_with (stamp par dp) b ks).
Proof.
  revert b. induction ks as [|k ks IH]; intros b; [constructor|].
  simpl. constructor; [by rewrite root_data_stamp|apply IH].
Qed.

Lemma forest_stamp_linked par dp b ks :
  Forall (λ k, ∀ par dp b, Forall linked (nodes_at b (stamp par dp b k))) ks →
  Forall linked (concat (forest_with nodes_at b (forest_with (stamp par dp) b ks))).
Proof.
  intros IH. revert b. induction IH as [|k ks Hk _ IHks]; intros b; [constructor|].
  simpl. rewrite tree_size_stamp. apply Forall_app. split; [apply Hk|apply IHks].
Qed.

Lemma stamp_linked par dp b t : Forall linked (nodes_at b (stamp par dp b t)).
Proof.
  revert par dp b. induction t as [d ks IH] using tree_ind'. intros par dp b.
  simpl stamp. rewrite nodes_at_Node. constructor.
  - exists dp. split; [done|]. simpl. apply forest_stamp_roots.
  - by apply forest_stamp_linked.
Qed.

Lemma stamp_root_linked t : Forall linked (nodes_at 0 (stamp_root t)).
Proof.
  destruct t as [d ks]. simpl stamp_root. rewrite nodes_at_Node. constructor.
  - exists (-1)%Z. split; [done|]. simpl. apply forest_stamp_roots.
  - apply forest_stamp_linked, Forall_forall. intros k _ par dp b. apply stamp_linked.
Qed.

Lemma roots_ge b ts c : c ∈ roots b ts → b ≤ c.
Proof.
  revert b. induction ts as [|t ts IH]; intros b Hc; [by apply not_elem_of_nil in Hc|].
  simpl in Hc. apply elem_of_cons in Hc as [->|Hc]; [done|]. apply IH in Hc. lia.
Qed.

(** Every node but the root of a stored tree is the root of a subtree of
    some node. *)
Lemma forest_nodes_parent b ts a s :
  Forall (λ k, ∀ b a s, (a, s) ∈ nodes_at b k → a ≠ b →
               ∃ pb ps, (pb, ps) ∈ nodes_at b k ∧ a ∈ roots (S pb) (subtrees ps)) ts →
  (a, s) ∈ concat (forest_with nodes_at b ts) →
  a ∈ roots b ts ∨
  ∃ pb ps, (pb, ps) ∈ concat (forest_with nodes_at b ts) ∧ a ∈ roots (S pb) (subtrees ps).
Proof.
  intros IH. revert b. induction IH as [|k ks Hk _ IHks]; intros b Has.
  { by apply not_elem_of_nil in Has. }
  simpl in Has. apply elem_of_app in Has as [Has|Has].
  - destruct (decide (a = b)) as [->|Hne]; [left; apply list_elem_of_here|].
    right. destruct (Hk b a s Has Hne) as (pb & ps & Hp & Ha).
    exists pb, ps. split; [|done]. simpl. apply elem_of_app. by left.
  - destruct (IHks _ Has) as [Ha|(pb & ps & Hp & Ha)].
    + left. simpl. by apply list_elem_of_further.
    + right. exists pb, ps. split; [|done]. simpl. apply elem_of_app. by right.
Qed.

Lemma nodes_at_parent b t a s :
  (a, s) ∈ nodes_at b t → a ≠ b →
  ∃ pb ps, (pb, ps) ∈ nodes_at b t ∧ a ∈ roots (S pb) (subtrees ps).
Proof.
  revert b a s. induction t as [d ks IH] using tree_ind'. intros b a s Has Hne.
  rewrite nodes_at_Node in Has. apply elem_of_cons in Has as [[= -> _]|Has]; [done|].
  destruct (forest_nodes_parent (S b) ks a s IH Has) as [Ha|(pb & ps & Hp & Ha)].
  - exists b, (Node d ks). split; [apply list_elem_of_here|done].
  - exists pb, ps. split; [|done]. rewrite nodes_at_Node. by apply list_elem_of_further.
Qed.

Lemma nodes_at_inj b t a s s' : (a, s) ∈ nodes_at b t → (a, s') ∈ nodes_at b t → s = s'.
Proof.
  intros H1 H2. apply nodes_at_lookup in H1, H2. rewrite H1 in H2. by injection H2.
Qed.

Lemma spec_tree_linked d p t : spec_tree d p = Some t → Forall linked (nodes_at 0 t).
Proof.
  unfold spec_tree. destruct (built_tree d p) as [t1|]; [|done]. simpl. intros [= <-].
  apply stamp_root_linked.
Qed.

Lemma spec_tree_root_stamp d p t :
  spec_tree d p = Some t →
  depth (root_data t) = Some (-1)%Z ∧ parent (root_data t) = None.
Proof.
  unfold spec_tree. destruct (built_tree d p) as [t1|]; [|done]. simpl. intros [= <-].
  by destruct (with_totals t1).
Qed.

Lemma linked_kid t a s c :
  Forall linked (nodes_at 0 t) →
  (a, s) ∈ nodes_at 0 t → c ∈ roots (S a) (subtrees s) →
  ∃ k dp, (c, k) ∈ nodes_at 0 t ∧ parent (root_data k) = Some a ∧
          depth (root_data s) = Some dp ∧ depth (root_data k) = Some (dp + 1)%Z.
Proof.
  intros Hlinked Has Hc. rewrite Forall_forall in Hlinked.
  destruct (Hlinked _ Has) as (dp & Hdp & Hkids). simpl in *.
  destruct s as [ds ks]. pose proof (nodes_at_kids 0 t a ds ks Has) as Hin. simpl in *.
  apply list_elem_of_lookup_1 in Hc as (i & Hi).
  destruct (Forall2_lookup_l _ _ _ _ _ Hin Hi) as (k & Hk & Hck).
  rewrite Forall_forall in Hkids. apply list_elem_of_lookup_2 in Hk.
  destruct (Hkids k Hk) as [Hpar Hdep]. by exists k, dp.
Qed.

(** X6: in the tree [translatedRoot] answers the root has depth -1 and no
    parent; every child in a [children] array comes later in the tree, has
    the holder of the array for its parent and stands one level below it; and
    every node but the root is in the [children] array of its parent. *)
Theorem X6_depths_and_parents obj d t :
  spec_tree d (createFromObject obj) = Some t →
  ∃ n, ∀ fuel, n ≤ fuel →
    ∃ arena,
      translatedRoot fuel (createFromObject obj) = Ok (createFromObject obj, arena) ∧
      (∃ root, arena !! 0 = Some root ∧ depth root = Some (-1)%Z ∧ parent root = None) ∧
      (∀ a node c,
         arena !! a = Some node → c ∈ default [] (children node) →
         a < c ∧
         ∃ k dp, arena !! c = Some k ∧ parent k = Some a ∧
                 depth node = Some dp ∧ depth k = Some (dp + 1)%Z) ∧
      (∀ c k,
         0 < c → arena !! c = Some k →
         ∃ a node, parent k = Some a ∧ arena !! a = Some node ∧
                   c ∈ default [] (children node)).
Proof.
  intros Hs.
  destruct (translatedRoot_spec d _ t (has_children_createFromObject obj) Hs) as [n Hn].
  exists n. intros fuel Hfuel. exists (layout 0 t). split; [by apply Hn|].
  pose proof (λ a s c, linked_kid t a s c (spec_tree_linked d _ t Hs)) as Hkid.
  split; [|split].
  - destruct t as [d0 ks0]. destruct (spec_tree_root_stamp d _ _ Hs) as [Hd Hp].
    rewrite layout_Node. eexists. split; [done|]. done.
  - intros a node c Ha Hc.
    apply layout_lookup in Ha as (s & Has & -> & _). simpl in Hc.
    split; [apply roots_ge in Hc; lia|].
    destruct (Hkid a s c Has Hc) as (k & dp & Hck & Hpar & Hdp & Hdk).
    exists (cell (c, k)), dp. split; [|done].
    rewrite layout_cells, list_lookup_fmap.
    apply nodes_at_lookup in Hck. rewrite Nat.sub_0_r in Hck. by rewrite Hck.
  - intros c k Hc Hk.
    apply layout_lookup in Hk as (s & Hcs & -> & _).
    destruct (nodes_at_parent 0 t c s Hcs) as (pb & ps & Hp & Hin); [lia|].
    destruct (Hkid pb ps c Hp Hin) as (k' & dp & Hck' & Hpar & _).
    pose proof (nodes_at_inj 0 t c s k' Hcs Hck') as <-.
    exists pb, (cell (pb, ps)). split; [done|]. split; [|done].
    rewrite layout_cells, list_lookup_fmap.
    apply nodes_at_lookup in Hp. rewrite Nat.sub_0_r in Hp. by rewrite Hp.
Qed.

End Links.

Lemma X6_witness :
  ∃ n, ∀ fuel, n ≤ fuel →
    ∃ arena,
      translatedRoot fuel (createFromObject example_profile) =
        Ok (createFromObject example_profile, arena) ∧
      (∃ root, arena !! 0 = Some root ∧ depth root = Some (-1)%Z ∧ parent root = None) ∧
      (∀ a node c,
         arena !! a = Some node → c ∈ default [] (children node) →
         a < c ∧
         ∃ k dp, arena !! c = Some k ∧ parent k = Some a ∧
                 depth node = Some dp ∧ depth k = Some (dp + 1)%Z) ∧
      (∀ c k,
         0 < c → arena !! c = Some k →
         ∃ a node, parent k = Some a ∧ arena !! a = Some node ∧
                   c ∈ default [] (children node)).
Proof.
  eapply (X6_depths_and_parents example_profile 5). vm_compute. reflexivity.
Defined.

(** ** What the passes over the tree leave alone *)

Section Projections.
Context {num : Type} `{JSNumber num} {B : Type}.
Variable f : ProfileNode num → B.
Hypothesis f_totalTime : ∀ x n, f (set_totalTime x n) = f n.
Hypothesis f_depth_parent : ∀ x y n, f (set_depth_parent x y n) = f n.
Hypothesis f_children : ∀ c n, f (set_children c n) = f n.

Lemma preorder_proj_ext (g : tree num → tree num) ts :
  Forall (λ t, f <$> preorder (g t) = f <$> preorder t) ts →
  f <$> concat (map preorder (map g ts)) = f <$> concat (map preorder ts).
Proof. induction 1 as [|t ts Ht _ IH]; [done|]. simpl. by rewrite !fmap_app, Ht, IH. Qed.

Lemma with_totals_proj (t : tree num) : f <$> preorder (with_totals t) = f <$> preorder t.
Proof using f_totalTime.
  induction t as [d ks IH] using tree_ind'. simpl. rewrite f_totalTime. f_equal.
  by apply preorder_proj_ext.
Qed.

Lemma stamp_proj par dp b (t : tree num) :
  f <$> preorder (stamp par dp b t) = f <$> preorder t.
Proof using f_depth_parent.
  revert par dp b. induction t as [d ks IH] using tree_ind'. intros par dp b.
  simpl. rewrite f_depth_parent. f_equal.
  generalize (S b) (dp + 1)%Z. generalize b. clear par dp b.
  induction IH as [|k ks Hk _ IHks]; intros par b dp; [done|].
  simpl. by rewrite !fmap_app, Hk, IHks.
Qed.

Lemma stamp_root_proj (t : tree num) : f <$> preorder (stamp_root t) = f <$> preorder t.
Proof using f_depth_parent.
  destruct t as [d ks]. simpl. rewrite f_depth_parent. f_equal. generalize 1.
  induction ks as [|k ks IH]; intros b; [done|].
  simpl. by rewrite !fmap_app, stamp_proj, IH.
Qed.

Lemma layout_proj b (t : tree num) : f <$> layout b t = f <$> preorder t.
Proof using f_children.
  revert b. induction t as [d ks IH] using tree_ind'. intros b.
  rewrite layout_Node. simpl. rewrite f_children. f_equal. generalize (S b). clear b.
  induction IH as [|k ks Hk _ IHks]; intros b; [done|].
  rewrite layouts_cons. simpl. by rewrite !fmap_app, Hk, IHks.
Qed.

Lemma spec_tree_proj d (p : Profile num) t t1 :
  built_tree d p = Some t1 → spec_tree d p = Some t →
  f <$> layout 0 t = f <$> preorder t1.
Proof using f_totalTime f_depth_parent f_children.
  intros Hb. unfold spec_tree. rewrite Hb. simpl. intros [= <-].
  by rewrite layout_proj, stamp_root_proj, with_totals_proj.
Qed.

End Projections.

(** ** The tree and the walk *)

Section WalkOrder.
Context {num : Type} `{JSNumber num}.
Implicit Types (obj : RawProfile num) (t : tree num) (p : Profile num).

Lemma filter_concat {A} (P : A → Prop) `{∀ x, Decision (P x)} (ls : list (list A)) :
  filter P (concat ls) = concat (filter P <$> ls).
Proof. induction ls as [|l ls IH]; [done|]. simpl. by rewrite filter_app, IH. Qed.

Lemma mapM_expand_origin d idmap (flat : list (ProfileNode num)) cs rs :
  (∀ src r, expand d idmap flat src = Some r →
     ∃ w, walked d idmap flat src = Some w ∧
          origin <$> concat (map preorder r.1) =
          origin <$> filter (λ n, isNativeNode n = false) w) →
  mapM (λ c, expand d idmap flat (idmap !! c)) cs = Some rs →
  ∃ ws, mapM (λ c, walked d idmap flat (idmap !! c)) cs = Some ws ∧
        origin <$> concat (map preorder (concat rs.*1)) =
        origin <$> filter (λ n, isNativeNode n = false) (concat ws).
Proof.
  intros IH Hrs. apply mapM_Some_1 in Hrs.
  induction Hrs as [|c r' cs rs' Hc _ (ws & Hws & Heq)]; [by exists []|].
  destruct (IH _ _ Hc) as (w & Hw & Hwe).
  exists (w :: ws). split.
  - apply mapM_Some_2. constructor; [done|]. by apply mapM_Some_1.
  - change (concat ((r' :: rs').*1)) with (r'.1 ++ concat rs'.*1).
    change (concat (w :: ws)) with (w ++ concat ws).
    by rewrite map_app, concat_app, filter_app, !fmap_app, Hwe, Heq.
Qed.

Lemma expand_origin d idmap (flat : list (ProfileNode num)) src r :
  expand d idmap flat src = Some r →
  ∃ w, walked d idmap flat src = Some w ∧
       origin <$> concat (map preorder r.1) =
       origin <$> filter (λ n, isNativeNode n = false) w.
Proof.
  revert src r. induction d as [|d IH]; intros src r He; [done|].
  simpl in He. destruct src as [src|]; [|done]. simpl in He.
  destruct (flat !! src) as [node|] eqn:Hnode; [|done]. simpl in He.
  destruct (mapM _ _) as [rs|] eqn:Hrs; [|done]. simpl in He.
  destruct (mapM_expand_origin d idmap flat _ rs IH Hrs) as (ws & Hws & Heq).
  exists (node :: concat ws). split.
  { simpl. rewrite Hnode. simpl. by rewrite Hws. }
  destruct (isNativeNode node) eqn:Hnat; simpl in He; injection He as <-; simpl.
  - by rewrite filter_cons_False by (by rewrite Hnat).
  - rewrite filter_cons_True by done. rewrite app_nil_r, !fmap_cons. by f_equal.
Qed.

Lemma built_tree_origin d p t :
  built_tree d p = Some t →
  ∃ root ws, nodes p !! 0 = Some root ∧ walked_nodes d p = Some (root :: ws) ∧
             origin <$> preorder t =
             origin <$> (root :: filter (λ n, isNativeNode n = false) ws).
Proof.
  unfold built_tree, walked_nodes. intros Hb.
  destruct (nodes p !! 0) as [root|]; [|done]. simpl in *.
  destruct (children root) as [cs|]; [|done]. simpl in *.
  destruct (mapM _ _) as [rs|] eqn:Hrs; [|done]. simpl in Hb. injection Hb as <-.
  destruct (mapM_expand_origin d (idToNodeMap p) (nodes p) _ rs
              (expand_origin d (idToNodeMap p) (nodes p)) Hrs) as (ws & Hws & Heq).
  exists root, (concat ws). rewrite Hws. split; [done|]. split; [done|].
  change (preorder (Node ?d ?ks)) with (d :: concat (map preorder ks)).
  rewrite !fmap_cons. f_equal. exact Heq.
Qed.

(** X7: the tree [translatedRoot] answers holds, in the order of its
    indices, a clone of the root and of every flat node the walk takes that is
    not native, in the order of the walk, with the id, the call frame, the hit
    count, the position ticks and the reason of the flat node. *)
Theorem X7_tree_is_the_walk_without_native obj d t :
  spec_tree d (createFromObject obj) = Some t →
  ∃ n, ∀ fuel, n ≤ fuel →
    ∃ arena root ws,
      translatedRoot fuel (createFromObject obj) = Ok (createFromObject obj, arena) ∧
      nodes (createFromObject obj) !! 0 = Some root ∧
      walked_nodes d (createFromObject obj) = Some (root :: ws) ∧
      origin <$> arena = origin <$> (root :: filter (λ n, isNativeNode n = false) ws).
Proof.
  intros Hs.
  destruct (translatedRoot_spec d _ t (has_children_createFromObject obj) Hs) as [n Hn].
  exists n. intros fuel Hfuel.
  destruct (built_tree d (createFromObject obj)) as [t1|] eqn:Hb;
    [|by unfold spec_tree in Hs; rewrite Hb in Hs].
  destruct (built_tree_origin d _ t1 Hb) as (root & ws & Hroot & Hw & Heq).
  exists (layout 0 t), root, ws. split; [by apply Hn|]. split; [done|]. split; [done|].
  by rewrite (spec_tree_proj origin) with (d := d) (p := createFromObject obj) (t1 := t1).
Qed.

End WalkOrder.

Lemma X7_witness :
  ∃ n, ∀ fuel, n ≤ fuel →
    ∃ arena root ws,
      translatedRoot fuel (createFromObject example_profile) =
        Ok (createFromObject example_profile, arena) ∧
      nodes (createFromObject example_profile) !! 0 = Some root ∧
      walked_nodes 5 (createFromObject example_profile) = Some (root :: ws) ∧
      origin <$> arena = origin <$> (root :: filter (λ n, isNativeNode n = false) ws).
Proof.
  eapply (X7_tree_is_the_walk_without_native example_profile 5). vm_compute. reflexivity.
Defined.

(** ** The total time of the root *)

Section RootTotal.
Context {num : Type} `{JSNumber num}.
Implicit Types (obj : RawProfile num) (t : tree num) (p : Profile num).

Hypothesis add_assoc : ∀ a b c : num, num_add a (num_add b c) = num_add (num_add a b) c.
Hypothesis add_comm : ∀ a b : num, num_add a b = num_add b a.

(** The total time of the root of [with_totals t] is the sum of all self times. *)
Lemma with_totals_root t :
  same_sum [totalTime (root_data (with_totals t))] (selfTime <$> preorder t).
Proof using add_assoc add_comm.
  induction t as [d ks IH] using tree_ind'. simpl.
  eapply same_sum_trans; [by apply same_sum_fold|].
  apply (same_sum_app [selfTime d] [selfTime d]); [done|].
  rewrite map_map. clear d.
  induction IH as [|k ks Hk _ IHks]; [done|].
  simpl. rewrite fmap_app.
  apply (same_sum_app [totalTime (root_data (with_totals k))]); [exact Hk|exact IHks].
Qed.

Lemma spec_tree_root_total d p t :
  spec_tree d p = Some t →
  ∃ taken, walked_nodes d p = Some taken ∧
           same_sum [totalTime (root_data t)] (selfTime <$> taken).
Proof using add_assoc add_comm.
  unfold spec_tree. destruct (built_tree d p) as [t1|] eqn:Hb; [|done]. simpl. intros [= <-].
  destruct (built_tree_walked add_assoc add_comm d p t1 Hb) as (taken & Ht & Hsum).
  exists taken. split; [done|].
  eapply same_sum_trans; [|exact Hsum].
  pose proof (with_totals_root t1) as Hroot.
  destruct (with_totals t1) as [d1 ks1]. exact Hroot.
Qed.

End RootTotal.

Section RootTotalProperty.
Context {num : Type} `{JSNumber num}.
Implicit Types (obj : RawProfile num) (t : tree num).

(** X8: with an addition that is associative and commutative, the total
    time of the root of the tree [translatedRoot] answers is the sum of the
    self times of the flat nodes the walk takes, native ones included; when
    the walk takes every flat node once, the sum of the self times of all
    flat nodes. *)
Theorem X8_root_total_is_all_self_time obj d t :
  (∀ a b c : num, num_add a (num_add b c) = num_add (num_add a b) c) →
  (∀ a b : num, num_add a b = num_add b a) →
  spec_tree d (createFromObject obj) = Some t →
  ∃ n, ∀ fuel, n ≤ fuel →
    ∃ arena root taken,
      translatedRoot fuel (createFromObject obj) = Ok (createFromObject obj, arena) ∧
      arena !! 0 = Some root ∧
      walked_nodes d (createFromObject obj) = Some taken ∧
      (∀ acc, num_add acc (totalTime root) = fold_left num_add (selfTime <$> taken) acc) ∧
      (taken ≡ₚ nodes (createFromObject obj) →
       ∀ acc, num_add acc (totalTime root) =
              fold_left num_add (selfTime <$> nodes (createFromObject obj)) acc).
Proof.
  intros Hassoc Hcomm Hs.
  destruct (translatedRoot_spec d _ t (has_children_createFromObject obj) Hs) as [n Hn].
  destruct (spec_tree_root_total Hassoc Hcomm d _ t Hs) as (taken & Htaken & Hsum).
  exists n. intros fuel Hfuel.
  exists (layout 0 t), (cell (0, t)), taken.
  split; [by apply Hn|]. split; [by destruct t|]. split; [done|].
  split; [intros acc; apply (Hsum acc)|].
  intros Hevery acc. rewrite <- (same_sum_Permutation Hassoc Hcomm _ _ (fmap_Permutation selfTime _ _ Hevery)).
  apply (Hsum acc).
Qed.

End RootTotalProperty.

Lemma X8_witness :
  ∃ n, ∀ fuel, n ≤ fuel →
    ∃ arena root taken,
      translatedRoot fuel (createFromObject example_exact) =
        Ok (createFromObject example_exact, arena) ∧
      arena !! 0 = Some root ∧
      walked_nodes 5 (createFromObject example_exact) = Some taken ∧
      (∀ acc, num_add acc (totalTime root) = fold_left num_add (selfTime <$> taken) acc) ∧
      (taken ≡ₚ nodes (createFromObject example_exact) →
       ∀ acc, num_add acc (totalTime root) =
              fold_left num_add (selfTime <$> nodes (createFromObject example_exact)) acc).
Proof.
  eapply (X8_root_total_is_all_self_time example_exact 5).
  - intros a b c. apply Qcplus_assoc.
  - intros a b. apply Qcplus_comm.
  - vm_compute. reflexivity.
Defined.

(** ** Exact arithmetic: the elapsed time *)

Section Elapsed.
Implicit Types (obj : RawProfile Qc) (t : tree Qc).

Lemma exact_sum_scaled (hs : list Qc) (c acc : Qc) :
  fold_left Qcplus ((λ h, h * c / Q2Qc 1000)%Qc <$> hs) acc =
  (acc + fold_left Qcplus hs 0 * c / Q2Qc 1000)%Qc.
Proof.
  assert (Q2Qc 1000 ≠ 0%Qc) as H1000 by done.
  revert acc. induction hs as [|h hs IH] using rev_ind; intros acc.
  - simpl. field. done.
  - rewrite fmap_app, !fold_left_app. simpl. rewrite IH. field. done.
Qed.

Lemma exact_self_times obj :
  selfTime <$> nodes (createFromObject obj) =
  (λ h, h * ((raw_endTime obj - raw_startTime obj) /
               fold_left Qcplus (raw_hitCount <$> raw_nodes obj) 0) / Q2Qc 1000)%Qc
    <$> (raw_hitCount <$> raw_nodes obj).
Proof.
  unfold createFromObject. rewrite nodes_new_Profile, totalHitCount_sum.
  rewrite map_map. rewrite <- !list_fmap_compose.
  apply list_fmap_ext. intros _ raw _. simpl. by destruct (String.eqb _ _).
Qed.

(** X9: in exact arithmetic, when the hit counts of a constructed profile
    do not add up to zero, the self times of its flat nodes add up to the
    time between [startTime] and [endTime], in milliseconds. *)
Theorem X9_self_times_add_up_to_elapsed_time obj :
  fold_left Qcplus (raw_hitCount <$> raw_nodes obj) 0%Qc ≠ 0%Qc →
  fold_left Qcplus (selfTime <$> nodes (createFromObject obj)) 0%Qc =
    ((raw_endTime obj - raw_startTime obj) / Q2Qc 1000)%Qc.
Proof.
  intros Hhits. assert (Q2Qc 1000 ≠ 0%Qc) as H1000 by done.
  rewrite exact_self_times, exact_sum_scaled. field. done.
Qed.

(** X10: in exact arithmetic, for a profile whose hit counts do not add up to
    zero and whose walk takes every flat node once, the total time of the
    root of the tree is the time between [startTime] and [endTime], in
    milliseconds. *)
Theorem X10_root_total_is_elapsed_time obj d t taken :
  spec_tree d (createFromObject obj) = Some t →
  walked_nodes d (createFromObject obj) = Some taken →
  taken ≡ₚ nodes (createFromObject obj) →
  fold_left Qcplus (raw_hitCount <$> raw_nodes obj) 0%Qc ≠ 0%Qc →
  ∃ n, ∀ fuel, n ≤ fuel →
    ∃ arena root,
      translatedRoot fuel (createFromObject obj) = Ok (createFromObject obj, arena) ∧
      arena !! 0 = Some root ∧
      totalTime root = ((raw_endTime obj - raw_startTime obj) / Q2Qc 1000)%Qc.
Proof.
  intros Hs Htaken Hevery Hhits.
  destruct (translatedRoot_spec d _ t (has_children_createFromObject obj) Hs) as [n Hn].
  destruct (@spec_tree_root_total Qc exact_number Qcplus_assoc Qcplus_comm d _ t Hs)
    as (taken' & Htaken' & Hsum).
  rewrite Htaken in Htaken'. injection Htaken' as <-.
  exists n. intros fuel Hfuel. exists (layout 0 t), (cell (0, t)).
  split; [by apply Hn|]. split; [by destruct t|].
  assert (Q2Qc 1000 ≠ 0%Qc) as H1000 by done.
  pose proof (Hsum 0%Qc) as H0.
  change (fold_left num_add [totalTime (root_data t)] 0%Qc)
    with (0 + totalTime (root_data t))%Qc in H0.
  rewrite Qcplus_0_l in H0.
  change (totalTime (cell (0, t))) with (totalTime (root_data t)). rewrite H0.
  rewrite (@same_sum_Permutation Qc exact_number Qcplus_assoc Qcplus_comm _ _
             (fmap_Permutation selfTime _ _ Hevery) 0%Qc).
  change (@num_add Qc exact_number) with Qcplus.
  rewrite exact_self_times, exact_sum_scaled. field. done.
Qed.

End Elapsed.

Lemma X9_witness :
  fold_left Qcplus (selfTime <$> nodes (createFromObject example_exact)) 0%Qc =
    ((raw_endTime example_exact - raw_startTime example_exact) / Q2Qc 1000)%Qc.
Proof. apply (X9_self_times_add_up_to_elapsed_time example_exact). vm_compute. discriminate. Defined.

Lemma X10_witness :
  ∃ n, ∀ fuel, n ≤ fuel →
    ∃ arena root,
      translatedRoot fuel (createFromObject example_exact) =
        Ok (createFromObject example_exact, arena) ∧
      arena !! 0 = Some root ∧
      totalTime root =
        ((raw_endTime example_exact - raw_startTime example_exact) / Q2Qc 1000)%Qc.
Proof.
  eapply (X10_root_total_is_elapsed_time example_exact 5).
  - vm_compute. reflexivity.
  - vm_compute. reflexivity.
  - vm_compute. apply perm_skip.
    apply (Permutation_cons_app [_; _; _] [_]). reflexivity.
  - vm_compute. discriminate.
Defined.

(** ** Traversal ids *)

Section TraversalIds.
Context {num : Type} `{JSNumber num}.
Implicit Types (obj : RawProfile num) (t : tree num) (p : Profile num).

Lemma uid_from_lookup k (vis : list (nat * list nat)) j o :
  NoDup vis.*1 → vis !! j = Some o → uid_from k vis o.1 = Some (k + j + 1).
Proof.
  revert k j. induction vis as [|o' vis IH]; intros k j Hnd Hj; [done|].
  simpl in Hnd. apply NoDup_cons in Hnd as [Hnot Hnd]. simpl.
  destruct j as [|j]; simpl in Hj.
  - injection Hj as ->. rewrite bool_decide_true by done. f_equal. lia.
  - rewrite bool_decide_false.
    + rewrite (IH (S k) j Hnd Hj). f_equal. lia.
    + intros Heq. apply Hnot. rewrite Heq. apply list_elem_of_fmap.
      exists o. split; [done|]. by eapply list_elem_of_lookup_2.
Qed.

(** X11: [remainingNodeInfos] numbers the nodes of the tree in the order it
    visits them: the root gets 1, the node of the entry at position [i] gets
    [i + 2], every node of the tree gets a number from 1 to the size of the
    tree, and no two nodes get the same.  Every entry has its node both as
    [ancestor] and as [focusNode], and there is an entry for every node but
    the root. *)
Theorem X11_traversal_ids obj d t :
  spec_tree d (createFromObject obj) = Some t →
  ∃ n, ∀ fuel, n ≤ fuel →
    ∃ arena infos,
      remainingNodeInfos fuel (createFromObject obj) = Ok (createFromObject obj, arena, infos) ∧
      length arena = tree_size t ∧
      length infos = tree_size t - 1 ∧
      (∃ root, arena !! 0 = Some root ∧ UID root = Some 1) ∧
      (∀ i info, infos !! i = Some info →
         ancestor info = focusNode info ∧ 0 < focusNode info ∧
         ∃ node, arena !! focusNode info = Some node ∧ UID node = Some (i + 2)) ∧
      (∀ a node, arena !! a = Some node → ∃ u, UID node = Some u ∧ 1 ≤ u ≤ tree_size t) ∧
      (∀ a b na nb, arena !! a = Some na → arena !! b = Some nb → UID na = UID nb → a = b).
Proof.
  intros Hs. pose proof (has_children_createFromObject obj) as Hflat.
  destruct (remainingNodeInfos_visit d _ t Hflat Hs) as [n Hn].
  exists n. intros fuel Hfuel.
  destruct (Hn fuel Hfuel) as (arena & order & Hr & Hperm & _ & Hlen & Har).
  set (vis := (0, @nil nat) :: order) in *.
  assert (vis.*1 ≡ₚ seq 0 (tree_size t)) as Hfst by (by rewrite Hperm, chains_fst).
  assert (NoDup vis.*1) as Hnd by (rewrite Hfst; apply NoDup_seq).
  assert (length vis = tree_size t) as Hvis.
  { rewrite <- (length_fmap fst), Hfst. apply length_seq. }
  assert (∀ a node, arena !! a = Some node →
            ∃ n0, layout 0 t !! a = Some n0 ∧ UID node = uid_from 0 vis a) as Hread.
  { intros a node Ha. pose proof (lookup_lt_Some _ _ _ Ha) as Hlt.
    rewrite Hlen, <- (length_layout 0) in Hlt. apply lookup_lt_is_Some in Hlt as [n0 Hn0].
    rewrite (Har a n0 Hn0) in Ha. injection Ha as <-. by exists n0. }
  exists arena, (map (info_of (layout 0 t)) order).
  split; [done|]. split; [done|]. split; [|split; [|split; [|split]]].
  - rewrite length_map. unfold vis in Hvis. simpl in Hvis. lia.
  - assert (0 < length (layout 0 t)) as Hlt by (rewrite length_layout; destruct t; simpl; lia).
    apply lookup_lt_is_Some in Hlt as [n0 Hn0].
    exists (set_UID (uid_from 0 vis 0) n0). split; [by apply Har|done].
  - intros i info Hi. rewrite list_lookup_fmap in Hi.
    destruct (order !! i) as [o|] eqn:Ho; [|done]. simpl in Hi. injection Hi as <-.
    split; [done|]. simpl.
    assert (vis !! S i = Some o) as Hvi by done.
    assert (o.1 ≠ 0) as Hne.
    { intros Heq. unfold vis in Hnd. simpl in Hnd. apply NoDup_cons in Hnd as [Hnot _].
      apply Hnot. rewrite <- Heq. apply list_elem_of_fmap. exists o.
      split; [done|]. by eapply list_elem_of_lookup_2. }
    split; [lia|].
    assert (o.1 < length (layout 0 t)) as Hlt.
    { assert (o.1 ∈ vis.*1) as Hin.
      { apply list_elem_of_fmap. exists o. split; [done|]. by eapply list_elem_of_lookup_2. }
      rewrite Hfst, elem_of_seq in Hin. rewrite length_layout. lia. }
    apply lookup_lt_is_Some in Hlt as [n0 Hn0].
    exists (set_UID (uid_from 0 vis o.1) n0). split; [by apply Har|].
    cbn [UID set_UID]. rewrite (uid_from_lookup 0 vis (S i) o Hnd Hvi). f_equal. lia.
  - intros a node Ha. destruct (Hread a node Ha) as (n0 & Hn0 & ->).
    destruct (uid_from 0 vis a) as [u|] eqn:Hu.
    + exists u. split; [done|]. apply uid_from_bound in Hu. lia.
    + apply (uid_from_None 0) in Hu. exfalso. apply Hu.
      rewrite Hfst, elem_of_seq. apply lookup_lt_Some in Hn0.
      rewrite length_layout in Hn0. lia.
  - intros a b na nb Ha Hb Heq.
    destruct (Hread a na Ha) as (n0 & Hn0 & Hua).
    destruct (Hread b nb Hb) as (n1 & Hn1 & Hub).
    rewrite Hua, Hub in Heq.
    destruct (uid_from 0 vis a) as [u|] eqn:Hu.
    + symmetry in Heq. by eapply uid_from_inj.
    + apply (uid_from_None 0) in Hu. exfalso. apply Hu.
      rewrite Hfst, elem_of_seq. apply lookup_lt_Some in Hn0.
      rewrite length_layout in Hn0. lia.
Qed.

End TraversalIds.

Lemma X11_witness :
  ∃ t, spec_tree 5 (createFromObject example_profile) = Some t ∧
  ∃ n, ∀ fuel, n ≤ fuel →
    ∃ arena infos,
      remainingNodeInfos fuel (createFromObject example_profile) =
        Ok (createFromObject example_profile, arena, infos) ∧
      length arena = tree_size t ∧
      length infos = tree_size t - 1 ∧
      (∃ root, arena !! 0 = Some root ∧ UID root = Some 1) ∧
      (∀ i info, infos !! i = Some info →
         ancestor info = focusNode info ∧ 0 < focusNode info ∧
         ∃ node, arena !! focusNode info = Some node ∧ UID node = Some (i + 2)) ∧
      (∀ a node, arena !! a = Some node → ∃ u, UID node = Some u ∧ 1 ≤ u ≤ tree_size t) ∧
      (∀ a b na nb, arena !! a = Some na → arena !! b = Some nb → UID na = UID nb → a = b).
Proof.
  eexists. split; [vm_compute; reflexivity|].
  apply (X11_traversal_ids example_profile 5). vm_compute. reflexivity.
Defined.

(** ** A node is visited after its parent *)

Section ParentsFirst.
Context {num : Type} `{JSNumber num}.
Implicit Types (obj : RawProfile num) (t : tree num) (ks ts : list (tree num)).

(** The chain of a node below the root of a stored tree ends with the node
    whose subtrees it is among. *)
Lemma forest_chains_last anc b ts x cx :
  Forall (λ k, ∀ anc b x cx, (x, cx) ∈ chains anc b k →
               (x = b ∧ cx = anc) ∨
               ∃ pb ps pre, (pb, ps) ∈ nodes_at b k ∧ x ∈ roots (S pb) (subtrees ps) ∧
                            cx = pre ++ [pb]) ts →
  (x, cx) ∈ concat (forest_with (chains anc) b ts) →
  (x ∈ roots b ts ∧ cx = anc) ∨
  ∃ pb ps pre, (pb, ps) ∈ concat (forest_with nodes_at b ts) ∧
               x ∈ roots (S pb) (subtrees ps) ∧ cx = pre ++ [pb].
Proof.
  intros IH. revert b. induction IH as [|k ks Hk _ IHks]; intros b Hx.
  { by apply not_elem_of_nil in Hx. }
  simpl in Hx. apply elem_of_app in Hx as [Hx|Hx].
  - destruct (Hk anc b x cx Hx) as [[-> ->]|(pb & ps & pre & Hp & Hin & ->)].
    + left. split; [apply list_elem_of_here|done].
    + right. exists pb, ps, pre. split; [|done]. simpl. apply elem_of_app. by left.
  - destruct (IHks _ Hx) as [[Hr ->]|(pb & ps & pre & Hp & Hin & ->)].
    + left. split; [by apply list_elem_of_further|done].
    + right. exists pb, ps, pre. split; [|done]. simpl. apply elem_of_app. by right.
Qed.

Lemma chains_last anc b t x cx :
  (x, cx) ∈ chains anc b t →
  (x = b ∧ cx = anc) ∨
  ∃ pb ps pre, (pb, ps) ∈ nodes_at b t ∧ x ∈ roots (S pb) (subtrees ps) ∧ cx = pre ++ [pb].
Proof.
  revert anc b x cx. induction t as [d ks IH] using tree_ind'. intros anc b x cx Hx.
  simpl in Hx. apply elem_of_cons in Hx as [[= -> ->]|Hx]; [by left|]. right.
  destruct (forest_chains_last (anc ++ [b]) (S b) ks x cx IH Hx)
    as [[Hr ->]|(pb & ps & pre & Hp & Hin & ->)].
  - exists b, (Node d ks), anc. split; [apply list_elem_of_here|done].
  - exists pb, ps, pre. split; [|done]. rewrite nodes_at_Node. by apply list_elem_of_further.
Qed.

(** X12: [remainingNodeInfos] visits a node after its parent: in the tree
    it leaves, the traversal id of every node that has a parent is larger
    than the traversal id of the parent. *)
Theorem X12_parents_are_visited_first obj d t :
  spec_tree d (createFromObject obj) = Some t →
  ∃ n, ∀ fuel, n ≤ fuel →
    ∃ arena infos,
      remainingNodeInfos fuel (createFromObject obj) = Ok (createFromObject obj, arena, infos) ∧
      ∀ c k a,
        arena !! c = Some k → parent k = Some a →
        ∃ pn u v, arena !! a = Some pn ∧ UID pn = Some u ∧ UID k = Some v ∧ u < v.
Proof.
  intros Hs. pose proof (has_children_createFromObject obj) as Hflat.
  destruct (remainingNodeInfos_visit d _ t Hflat Hs) as [n Hn].
  exists n. intros fuel Hfuel.
  destruct (Hn fuel Hfuel) as (arena & order & Hr & Hperm & Hcl & Hlen & Har).
  set (vis := (0, @nil nat) :: order) in *.
  assert (NoDup vis.*1) as Hnd by (rewrite Hperm, chains_fst; apply NoDup_seq).
  exists arena, (map (info_of (layout 0 t)) order). split; [done|].
  intros c k a Hc Hpar.
  pose proof (lookup_lt_Some _ _ _ Hc) as Hlt.
  rewrite Hlen, <- (length_layout 0) in Hlt. apply lookup_lt_is_Some in Hlt as [n0 Hn0].
  rewrite (Har c n0 Hn0) in Hc. injection Hc as <-.
  change (parent n0 = Some a) in Hpar.
  (* the place of [c] in the order of the visits *)
  assert (∃ cx, (c, cx) ∈ vis) as [cx Hin].
  { assert (c ∈ vis.*1) as Hmem.
    { rewrite Hperm, chains_fst, elem_of_seq. apply lookup_lt_Some in Hn0.
      rewrite length_layout in Hn0. lia. }
    apply list_elem_of_fmap in Hmem as ([c' cx] & -> & Hmem). by exists cx. }
  assert (c ≠ 0) as Hc0.
  { intros ->. pose proof (spec_tree_parent d _ t 0 n0 Hs Hn0) as [Hp _].
    by apply Hp; [eexists|]. }
  assert ((c, cx) ∈ chains [] 0 t) as Hchain by (by rewrite <- Hperm).
  destruct (chains_last [] 0 t c cx Hchain) as [[-> _]|(pb & ps & pre & Hp & Hroots & ->)];
    [done|].
  (* the parent of [c] is [pb] *)
  destruct (linked_kid t pb ps c (spec_tree_linked d _ t Hs) Hp Hroots)
    as (k' & dp & Hck' & Hpark' & _).
  apply layout_lookup in Hn0 as (s & Hcs & -> & _).
  pose proof (nodes_at_inj 0 t c s k' Hcs Hck') as <-.
  change (parent (root_data s) = Some a) in Hpar. rewrite Hpark' in Hpar. injection Hpar as <-.
  (* [pb] was visited before *)
  apply list_elem_of_lookup_1 in Hin as (i & Hi).
  destruct (Hcl i (c, pre ++ [pb]) Hi pb) as (j & o' & Hji & Hj & Hfst).
  { simpl. apply elem_of_app. right. apply list_elem_of_here. }
  assert (layout 0 t !! pb = Some (cell (pb, ps))) as Hpn.
  { rewrite layout_cells, list_lookup_fmap.
    apply nodes_at_lookup in Hp. rewrite Nat.sub_0_r in Hp. by rewrite Hp. }
  assert (uid_from 0 vis pb = Some (j + 1)) as Hu
    by (rewrite <- Hfst; apply (uid_from_lookup 0 vis j o' Hnd Hj)).
  assert (uid_from 0 vis c = Some (i + 1)) as Hv
    by (apply (uid_from_lookup 0 vis i (c, pre ++ [pb]) Hnd Hi)).
  exists (set_UID (uid_from 0 vis pb) (cell (pb, ps))), (j + 1), (i + 1).
  split; [by apply Har|]. split; [exact Hu|]. split; [exact Hv|lia].
Qed.

End ParentsFirst.

Lemma X12_witness :
  ∃ n, ∀ fuel, n ≤ fuel →
    ∃ arena infos,
      remainingNodeInfos fuel (createFromObject example_profile) =
        Ok (createFromObject example_profile, arena, infos) ∧
      ∀ c k a,
        arena !! c = Some k → parent k = Some a →
        ∃ pn u v, arena !! a = Some pn ∧ UID pn = Some u ∧ UID k = Some v ∧ u < v.
Proof.
  eapply (X12_parents_are_visited_first example_profile 5). vm_compute. reflexivity.
Defined.

(** ** Trees without recursion *)

Section WithoutRecursion.
Context {num : Type} `{JSNumber num}.
Implicit Types (obj : RawProfile num) (t : tree num).

Lemma filter_fst_occurrences (u : string) (occ : list (ProfileNode num * bool)) :
  (occurrences_of u occ).*1 = filter (λ n, callUID n = u) occ.*1.
Proof.
  unfold occurrences_of. induction occ as [|o occ IH]; [done|].
  rewrite fmap_cons. destruct (decide (callUID o.1 = u)) as [Hu|Hu].
  - rewrite !filter_cons_True by done. rewrite fmap_cons. by rewrite IH.
  - by rewrite !filter_cons_False by done.
Qed.

(** X13: when no node of the tree below the root has the call site of one of
    its ancestors below the root, no entry of [remainingNodeInfos] is
    accounted for, and every record of [bottomUpNodes] has for its total time
    the total times, and for its self time the self times, of all the nodes
    of its call site, added in the order of the visits. *)
Theorem X13_totals_without_recursion obj d t :
  spec_tree d (createFromObject obj) = Some t →
  Forall (λ o, Forall (λ b, b ≠ 0 →
                 callUID_at (layout 0 t) b ≠ callUID_at (layout 0 t) o.1) o.2)
    (chains [] 0 t) →
  ∃ n, ∀ fuel, n ≤ fuel →
    ∃ arena infos visited records,
      remainingNodeInfos fuel (createFromObject obj) = Ok (createFromObject obj, arena, infos) ∧
      bottomUpNodes fuel (createFromObject obj) = Ok (createFromObject obj, records) ∧
      Forall2 (λ i node, layout 0 t !! focusNode i = Some node) infos visited ∧
      Forall (λ i, totalAccountedFor i = false) infos ∧
      Forall (λ r, ∃ n0 rest,
                filter (λ n, callUID n = callUID r) visited = n0 :: rest ∧
                totalTime r = fold_left num_add (totalTime <$> rest) (totalTime n0) ∧
                selfTime r = fold_left num_add (selfTime <$> rest) (selfTime n0)) records.
Proof.
  intros Hs Hnorec. pose proof (has_children_createFromObject obj) as Hflat.
  destruct (bottomUpNodes_spec d _ t Hflat Hs) as [n Hn].
  exists n. intros fuel Hfuel.
  destruct (Hn fuel Hfuel) as (arena & order & occ & records & Hr & Hb & Hperm & _ & Hocc & Hm).
  assert (Forall (λ o, accounted (layout 0 t) o.1 o.2 = false) order) as Hfalse.
  { apply Forall_forall. intros o Ho.
    assert (o ∈ chains [] 0 t) as Hin by (rewrite <- Hperm; by apply list_elem_of_further).
    rewrite Forall_forall in Hnorec. specialize (Hnorec o Hin). rewrite Forall_forall in Hnorec.
    unfold accounted. apply not_true_is_false. intros Hex.
    apply existsb_exists in Hex as (b & Hb' & Hboth). apply list_elem_of_In in Hb'.
    apply andb_true_iff in Hboth as [Hpar Hsame]. apply bool_decide_eq_true in Hsame.
    apply (Hnorec b Hb'); [|done]. intros ->.
    rewrite (has_parent_spec_tree d (createFromObject obj) t) in Hpar;
      [|done|destruct t; simpl; lia].
    by rewrite bool_decide_false in Hpar by (intros ?; done). }
  assert (Forall (λ oc : ProfileNode num * bool, oc.2 = false) occ) as Hflags.
  { clear -Hocc Hfalse. induction Hocc as [|o oc order occ [_ Hoc] _ IH]; [constructor|].
    apply Forall_cons in Hfalse as [Ho Hfalse]. constructor; [congruence|by apply IH]. }
  exists arena, (map (info_of (layout 0 t)) order), occ.*1, records.
  split; [done|]. split; [done|]. split; [|split].
  - apply Forall2_fmap_l, Forall2_fmap_r. eapply Forall2_impl; [apply Hocc|].
    simpl. by intros o oc [? _].
  - apply Forall_fmap. eapply Forall_impl; [apply Hfalse|]. done.
  - destruct Hm as [_ Hrecs]. eapply Forall_impl; [apply Hrecs|]. intros r Hg. simpl in Hg.
    rewrite <- filter_fst_occurrences.
    assert (Forall (λ oc : ProfileNode num * bool, oc.2 = false)
              (occurrences_of (callUID r) occ)) as Hsub.
    { unfold occurrences_of. apply Forall_forall. intros oc Hoc.
      apply list_elem_of_filter in Hoc as [_ Hoc]. rewrite Forall_forall in Hflags. eauto. }
    destruct (occurrences_of (callUID r) occ) as [|[n0 f0] rest]; [done|].
    apply Forall_cons in Hsub as [_ Hrest].
    simpl in Hg. injection Hg as <-. exists n0, (rest.*1). split; [done|].
    simpl. rewrite (filter_all _ rest) by done. done.
Qed.

End WithoutRecursion.

Lemma X13_witness :
  ∃ t, spec_tree 5 (createFromObject collision_profile) = Some t ∧
  ∃ n, ∀ fuel, n ≤ fuel →
    ∃ arena infos visited records,
      remainingNodeInfos fuel (createFromObject collision_profile) =
        Ok (createFromObject collision_profile, arena, infos) ∧
      bottomUpNodes fuel (createFromObject collision_profile) =
        Ok (createFromObject collision_profile, records) ∧
      Forall2 (λ i node, layout 0 t !! focusNode i = Some node) infos visited ∧
      Forall (λ i, totalAccountedFor i = false) infos ∧
      Forall (λ r, ∃ n0 rest,
                filter (λ n, callUID n = callUID r) visited = n0 :: rest ∧
                totalTime r = fold_left num_add (totalTime <$> rest) (totalTime n0) ∧
                selfTime r = fold_left num_add (selfTime <$> rest) (selfTime n0)) records.
Proof.
  eexists. split; [vm_compute; reflexivity|].
  apply (X13_totals_without_recursion collision_profile 5); [vm_compute; reflexivity|].
  apply (bool_decide_unpack _). vm_compute. exact I.
Defined.

(** ** The names of the output *)

Section Names.
Context {num : Type} `{JSNumber num}.
Implicit Types (obj : RawProfile num) (t : tree num).

Lemma named_nonempty (c : CallFrame) : functionName (named c) ≠ "".
Proof.
  unfold named. destruct (String.eqb (functionName c) "") eqn:He; [done|].
  by apply String.eqb_neq.
Qed.

Lemma length_first_seen (l : list string) : length (first_seen l) ≤ length l.
Proof.
  apply submseteq_length, NoDup_submseteq; [apply NoDup_first_seen|].
  intros u. by rewrite elem_of_first_seen.
Qed.

(** X14: [formattedBottomUpProfile] answers one entry for each record, at
    most as many as the tree has nodes below the root; the name of every
    entry is the name construction left to some node of the document, and no
    entry has an empty name. *)
Theorem X14_no_empty_name_is_reported obj d t :
  spec_tree d (createFromObject obj) = Some t →
  ∃ n, ∀ fuel, n ≤ fuel →
    ∃ records out,
      bottomUpNodes fuel (createFromObject obj) = Ok (createFromObject obj, records) ∧
      formattedBottomUpProfile fuel (createFromObject obj) = Ok (createFromObject obj, out) ∧
      length out = length records ∧
      length out ≤ tree_size t - 1 ∧
      Forall (λ o, out_functionName o ≠ "" ∧
                   ∃ raw, raw ∈ raw_nodes obj ∧
                          out_functionName o = functionName (named (raw_callFrame raw))) out.
Proof.
  intros Hs. pose proof (has_children_createFromObject obj) as Hflat.
  destruct (bottomUpNodes_spec d _ t Hflat Hs) as [n Hn].
  exists n. intros fuel Hfuel.
  destruct (Hn fuel Hfuel) as (arena & order & occ & records & _ & Hb & Hperm & _ & Hocc & Hm).
  exists records, (map format_node records).
  split; [done|]. split; [unfold formattedBottomUpProfile; by rewrite Hb|].
  split; [by rewrite length_map|]. split.
  - rewrite length_map. destruct Hm as [Hkeys _].
    rewrite <- (length_fmap callUID), Hkeys.
    etransitivity; [apply length_first_seen|].
    rewrite !length_fmap, <- (Forall2_length _ _ _ Hocc).
    apply Permutation_length in Hperm.
    assert (length (chains [] 0 t) = tree_size t) as Hsize
      by (by rewrite <- (length_fmap fst (chains [] 0 t)), chains_fst, length_seq).
    rewrite Hsize in Hperm. simpl in Hperm. lia.
  - apply Forall_fmap, Forall_forall. intros r Hr.
    destruct (merged_record records occ r Hm Hr) as (n0 & f0 & rest & _ & Hin & Hg).
    apply (group_record_callFrame occ) in Hg.
    apply list_elem_of_lookup_1 in Hin as (j & Hj).
    destruct (Forall2_lookup_r _ _ _ _ _ Hocc Hj) as (o & _ & Ho & _). simpl in Ho.
    destruct (tree_node_frame obj d t _ n0 Hs Ho) as [_ (raw & Hraw & Hframe)].
    unfold format_node. simpl. rewrite Hg, Hframe.
    split; [apply named_nonempty|]. by exists raw.
Qed.

End Names.

Lemma X14_witness :
  ∃ t, spec_tree 5 (createFromObject example_profile) = Some t ∧
  ∃ n, ∀ fuel, n ≤ fuel →
    ∃ records out,
      bottomUpNodes fuel (createFromObject example_profile) =
        Ok (createFromObject example_profile, records) ∧
      formattedBottomUpProfile fuel (createFromObject example_profile) =
        Ok (createFromObject example_profile, out) ∧
      length out = length records ∧
      length out ≤ tree_size t - 1 ∧
      Forall (λ o, out_functionName o ≠ "" ∧
                   ∃ raw, raw ∈ raw_nodes example_profile ∧
                          out_functionName o = functionName (named (raw_callFrame raw))) out.
Proof.
  eexists. split; [vm_compute; reflexivity|].
  apply (X14_no_empty_name_is_reported example_profile 5). vm_compute. reflexivity.
Defined.

(** ** What a record keeps of the first node of its call site *)

Section Records.
Context {num : Type} `{JSNumber num}.
Implicit Types (obj : RawProfile num) (t : tree num).

(** X15: every record of [bottomUpNodes] is a copy of the first node the
    traversal visits of its call site: it has the id, the call frame, the hit
    count, the position ticks, the reason and the children of that node, and
    the clone is given no depth, no parent and no traversal id. *)
Theorem X15_record_is_copy_of_first_node obj d t :
  spec_tree d (createFromObject obj) = Some t →
  ∃ n, ∀ fuel, n ≤ fuel →
    ∃ arena infos visited records,
      remainingNodeInfos fuel (createFromObject obj) = Ok (createFromObject obj, arena, infos) ∧
      bottomUpNodes fuel (createFromObject obj) = Ok (createFromObject obj, records) ∧
      Forall2 (λ i node, layout 0 t !! focusNode i = Some node) infos visited ∧
      Forall (λ r, ∃ n0 rest,
                filter (λ n, callUID n = callUID r) visited = n0 :: rest ∧
                origin r = origin n0 ∧ children r = children n0 ∧
                depth r = None ∧ parent r = None ∧ UID r = None) records.
Proof.
  intros Hs. pose proof (has_children_createFromObject obj) as Hflat.
  destruct (bottomUpNodes_spec d _ t Hflat Hs) as [n Hn].
  exists n. intros fuel Hfuel.
  destruct (Hn fuel Hfuel) as (arena & order & occ & records & Hr & Hb & _ & _ & Hocc & Hm).
  exists arena, (map (info_of (layout 0 t)) order), occ.*1, records.
  split; [done|]. split; [done|]. split.
  - apply Forall2_fmap_l, Forall2_fmap_r. eapply Forall2_impl; [apply Hocc|].
    simpl. by intros o oc [? _].
  - apply Forall_forall. intros r Hrin.
    destruct (merged_record records occ r Hm Hrin) as (n0 & f0 & rest & Hocc0 & Hin & Hg).
    exists n0, (rest.*1). rewrite <- filter_fst_occurrences, Hocc0. split; [done|].
    apply list_elem_of_lookup_1 in Hin as (j & Hj).
    destruct (Forall2_lookup_r _ _ _ _ _ Hocc Hj) as (o & _ & Ho & _). simpl in Ho.
    apply layout_lookup in Ho as (s & _ & -> & _).
    simpl in Hg. injection Hg as <-. done.
Qed.

End Records.

Lemma X15_witness :
  ∃ t, spec_tree 5 (createFromObject example_profile) = Some t ∧
  ∃ n, ∀ fuel, n ≤ fuel →
    ∃ arena infos visited records,
      remainingNodeInfos fuel (createFromObject example_profile) =
        Ok (createFromObject example_profile, arena, infos) ∧
      bottomUpNodes fuel (createFromObject example_profile) =
        Ok (createFromObject example_profile, records) ∧
      Forall2 (λ i node, layout 0 t !! focusNode i = Some node) infos visited ∧
      Forall (λ r, ∃ n0 rest,
                filter (λ n, callUID n = callUID r) visited = n0 :: rest ∧
                origin r = origin n0 ∧ children r = children n0 ∧
                depth r = None ∧ parent r = None ∧ UID r = None) records.
Proof.
  eexists. split; [vm_compute; reflexivity|].
  apply (X15_record_is_copy_of_first_node example_profile 5). vm_compute. reflexivity.
Defined.
